(** * Bulk song ingestion pipeline of the music library client

    A shallow embedding of the administrator dashboard
    (components/AdminDashboard.tsx), of the application root (App.tsx,
    [addSongs]) and of the storage wrapper (lib/db.ts, [addSongsToDB]),
    together with the properties of the ingestion pipeline.

    The handlers of the source are asynchronous but run one after the other
    on a single thread; each is embedded as a computation in a state and
    exception monad over a [World] that holds the React state of the
    components, the object URL registry, the object store and a log of the
    observable effects.  A run returns, throws, or stays suspended on a
    promise that never settles.  The third-party services, the clock and the
    random number generator are oracles of an environment [Env], indexed
    by the number of requests made so far, so that the same request may
    be answered differently at different times. *)

From Stdlib Require Import Ascii String ZArith.
From stdpp Require Import gmap strings list fin_maps pretty sorting.

Local Open Scope string_scope.
Local Open Scope list_scope.

(** ** Strings *)

(** The double quote character, used inside message templates. *)
Definition dquote : string := String "034"%char EmptyString.

(** [strip_prefix p s] removes the prefix [p] from [s] when [s] starts
    with it. *)
Fixpoint strip_prefix (p s : string) : option string :=
  match p, s with
  | EmptyString, _ => Some s
  | String a p', String b s' =>
      if Ascii.eqb a b then strip_prefix p' s' else None
  | String _ _, EmptyString => None
  end.

(** [String.prototype.replace] with a string pattern: the first occurrence
    of [pat], scanning from the left, is replaced by [rep]; a string
    without occurrence is returned as it is.  (The replacement strings of
    the program hold no dollar sign, so no substitution pattern of the
    replacement is involved.) *)
Fixpoint js_replace (pat rep s : string) : string :=
  match strip_prefix pat s with
  | Some rest => rep +:+ rest
  | None =>
      match s with
      | EmptyString => EmptyString
      | String c s' => String c (js_replace pat rep s')
      end
  end.

(** [String.prototype.includes]. *)
Fixpoint includes (needle hay : string) : bool :=
  match strip_prefix needle hay with
  | Some _ => true
  | None =>
      match hay with
      | EmptyString => false
      | String _ hay' => includes needle hay'
      end
  end.

(** ** JavaScript values that may be missing *)

(** A property read from a parsed JSON object is modelled as an optional
    string: [None] stands for [undefined] (or [null]). *)
Definition truthy (v : option string) : bool :=
  match v with
  | Some (String _ _) => true
  | _ => false
  end.

(** [v || d] on such a value: the fallback is taken when [v] is missing
    or the empty string. *)
Definition js_or (v : option string) (d : string) : string :=
  match v with
  | Some (String c r) => String c r
  | _ => d
  end.

(** The string a template literal writes for such a value. *)
Definition js_str (v : option string) : string :=
  match v with
  | Some s => s
  | None => "undefined"
  end.

(** ** Data model (types.ts, lib/db.ts, AdminDashboard.tsx) *)

Record Blob := { blob_bytes : list Byte.byte; blob_type : string }.

Record File := {
  file_name : string;
  lastModified : Z;
  file_bytes : list Byte.byte;
  file_type : string
}.

(** Object URLs are opaque strings minted by the browser; the model names
    them by a number. *)
Definition ObjectURL := nat.

Module SongDetails.
Record t := { title : string; artist : string; album : string }.
End SongDetails.

Module SongData.
Record t := {
    title : string; artist : string; album : string;
    audioFile : File; coverArtFile : File
  }.
End SongData.

Module StoredSong.
Record t := {
    id : string; title : string; artist : string; album : string;
    audioFile : File; coverArtFile : File
  }.
End StoredSong.

Module Song.
Record t := {
    id : string; title : string; artist : string; album : string;
    audioSrc : ObjectURL; coverArtSrc : ObjectURL
  }.
End Song.

Inductive Status := pending | processing | success | error.

Global Instance Status_eq_dec : EqDecision Status.
Proof. solve_decision. Defined.

Module StagedFile.
Record t := {
    id : string;
    file : File;
    status : Status;
    songDetails : option SongDetails.t;
    coverArtFile : option File;
    error : option string
  }.
End StagedFile.

(** ** Exceptions *)

(** The source throws plain [Error] objects told apart by their message
    only.  The tag records the throw site, after the error taxonomy of the
    specification; the program never reads it.  [RuntimeError] is an
    exception raised by the runtime or by a collaborator (a rejected
    promise, a [TypeError], a JSON syntax error). *)
Inductive ErrorKind :=
| ExtractionError
| CatalogResponseError
| LookupError
| ArtworkUrlError
| ArtworkFetchError
| RuntimeError.

Record Exn := { exn_kind : ErrorKind; exn_message : string }.

(** How the run of an asynchronous function ends: it returns, it throws,
    or it stays suspended on a promise that never settles, in which case
    nothing after the [await] runs, no [catch] and no [finally] block
    either. *)
Inductive Outcome (A : Type) :=
| Ok (a : A)
| Throw (e : Exn)
| Unsettled.
Arguments Ok {A} a.
Arguments Throw {A} e.
Arguments Unsettled {A}.

(** ** Responses of the external services *)

(** What a promise of a collaborator settles to: a value, or a rejection
    with the message of its error. *)
Inductive Reply (A : Type) :=
| Resolved (a : A)
| Rejected (message : string).
Arguments Resolved {A} a.
Arguments Rejected {A} message.

(** [{title, artist}] destructured from the parsed model response. *)
Record Extraction := { ex_title : option string; ex_artist : option string }.

Record ItunesResult := {
  trackName : option string;
  artistName : option string;
  collectionName : option string;
  artworkUrl100 : option string
}.

Record ItunesData := { resultCount : Z; results : list ItunesResult }.

(** A [Response]: the status code, what [json()] settles to and what
    [blob()] resolves to. *)
Record Response := {
  resp_status : Z;
  resp_json : Reply ItunesData;
  resp_blob : Blob
}.

(** [response.ok]: the status is in the range 200-299. *)
Definition resp_ok (r : Response) : bool :=
  (200 <=? resp_status r)%Z && (resp_status r <=? 299)%Z.

(** ** Environment *)

(** The collaborators of the program.  The first argument of an oracle is
    the number of requests made to the environment before this one. *)
Record Env := {
  (** [ai.models.generateContent], settling to the response text *)
  generateContent : nat → string → Reply string;
  (** [JSON.parse(text.trim())] followed by the read of [title] and
      [artist]; a syntax error is a rejection *)
  jsonParse : string → Reply Extraction;
  encodeURIComponent : string → string;
  fetch : nat → string → Reply Response;
  (** [new Date().toISOString()] *)
  toISOString : nat → string;
  (** [Date.now()], the [lastModified] of a [File] built by the program *)
  dateNow : nat → Z;
  (** the decimal rendering of [Math.random()] *)
  mathRandom : nat → string;
  (** the message of the error of the object store transaction ([initDB]
      included), or [None] when it completes *)
  transactionError : nat → option string;
  (** whether the failure of a write transaction reaches the promise of
      [addSongsToDB]: [initDB] rejects, or the error of a request bubbles
      to [transaction.onerror]; a failure at commit only aborts the
      transaction, which fires [abort] and no [error] event *)
  transactionErrorEvent : nat → bool
}.

(** ** World *)

Inductive Event :=
| EvGenerateContent (prompt : string)
| EvFetch (url : string)
| EvTransaction (records : list StoredSong.t) (completed : bool)
| EvCreateObjectURL (u : ObjectURL)
| EvRevokeObjectURL (u : ObjectURL)
| EvSetStagedFiles (l : list StagedFile.t)
| EvConsoleError (msg : string) (e : Exn).

(** State of the single song form. *)
Record SingleForm := {
  f_title : string;
  f_artist : option string;
  f_album : option string;
  f_audioFile : option File;
  f_coverArtFile : option File;
  f_coverArtPreview : option ObjectURL;
  f_isFetching : bool;
  f_isSubmitting : bool;
  f_error : option string
}.

Record World := {
  tick : nat;
  log : list Event;
  objectURLs : gmap nat File;
  db : gmap string StoredSong.t;
  songs : list Song.t;
  stagedFiles : list StagedFile.t;
  isProcessing : bool;
  processedCount : nat;
  form : SingleForm
}.

Definition M (A : Type) : Type := World → Outcome A * World.

Global Instance M_ret : MRet M := λ A a w, (Ok a, w).

Global Instance M_bind : MBind M := λ A B f m w,
  match m w with
  | (Ok a, w') => f a w'
  | (Throw e, w') => (Throw e, w')
  | (Unsettled, w') => (Unsettled, w')
  end.

Definition throw {A} (k : ErrorKind) (msg : string) : M A :=
  λ w, (Throw {| exn_kind := k; exn_message := msg |}, w).

(** [try { body } catch (e) { handler e }] *)
Definition try_catch {A} (body : M A) (handler : Exn → M A) : M A :=
  λ w,
  match body w with
  | (Ok a, w') => (Ok a, w')
  | (Throw e, w') => handler e w'
  | (Unsettled, w') => (Unsettled, w')
  end.

(** [try { body } finally { final }] *)
Definition try_finally {A} (body : M A) (final : M unit) : M A :=
  λ w,
  match body w with
  | (Unsettled, w') => (Unsettled, w')
  | (r, w') =>
      match final w' with
      | (Ok _, w'') => (r, w'')
      | (Throw e, w'') => (Throw e, w'')
      | (Unsettled, w'') => (Unsettled, w'')
      end
  end.

(** Awaiting a promise of a collaborator: a rejection is thrown. *)
Definition lift {A} (r : Reply A) : M A :=
  λ w,
  match r with
  | Resolved a => (Ok a, w)
  | Rejected msg => (Throw {| exn_kind := RuntimeError; exn_message := msg |}, w)
  end.

(** Awaiting a promise that never settles. *)
Definition unsettled {A} : M A := λ w, (Unsettled, w).

Definition gets {A} (f : World → A) : M A := λ w, (Ok (f w), w).

Definition modify (f : World → World) : M unit := λ w, (Ok tt, f w).

Fixpoint forEach {A} (l : list A) (body : A → M unit) : M unit :=
  match l with
  | [] => mret tt
  | x :: l' => body x ;; forEach l' body
  end.

(** *** Field updates of the world *)

Definition with_tick (t : nat) (w : World) : World :=
  {| tick := t; log := log w; objectURLs := objectURLs w; db := db w;
     songs := songs w; stagedFiles := stagedFiles w;
     isProcessing := isProcessing w; processedCount := processedCount w;
     form := form w |}.

Definition with_log (l : list Event) (w : World) : World :=
  {| tick := tick w; log := l; objectURLs := objectURLs w; db := db w;
     songs := songs w; stagedFiles := stagedFiles w;
     isProcessing := isProcessing w; processedCount := processedCount w;
     form := form w |}.

Definition with_objectURLs (m : gmap nat File) (w : World) : World :=
  {| tick := tick w; log := log w; objectURLs := m; db := db w;
     songs := songs w; stagedFiles := stagedFiles w;
     isProcessing := isProcessing w; processedCount := processedCount w;
     form := form w |}.

Definition with_db (m : gmap string StoredSong.t) (w : World) : World :=
  {| tick := tick w; log := log w; objectURLs := objectURLs w; db := m;
     songs := songs w; stagedFiles := stagedFiles w;
     isProcessing := isProcessing w; processedCount := processedCount w;
     form := form w |}.

Definition with_songs (l : list Song.t) (w : World) : World :=
  {| tick := tick w; log := log w; objectURLs := objectURLs w; db := db w;
     songs := l; stagedFiles := stagedFiles w;
     isProcessing := isProcessing w; processedCount := processedCount w;
     form := form w |}.

Definition with_stagedFiles (l : list StagedFile.t) (w : World) : World :=
  {| tick := tick w; log := log w; objectURLs := objectURLs w; db := db w;
     songs := songs w; stagedFiles := l;
     isProcessing := isProcessing w; processedCount := processedCount w;
     form := form w |}.

Definition with_isProcessing (b : bool) (w : World) : World :=
  {| tick := tick w; log := log w; objectURLs := objectURLs w; db := db w;
     songs := songs w; stagedFiles := stagedFiles w;
     isProcessing := b; processedCount := processedCount w;
     form := form w |}.

Definition with_processedCount (n : nat) (w : World) : World :=
  {| tick := tick w; log := log w; objectURLs := objectURLs w; db := db w;
     songs := songs w; stagedFiles := stagedFiles w;
     isProcessing := isProcessing w; processedCount := n;
     form := form w |}.

Definition with_form (f : SingleForm) (w : World) : World :=
  {| tick := tick w; log := log w; objectURLs := objectURLs w; db := db w;
     songs := songs w; stagedFiles := stagedFiles w;
     isProcessing := isProcessing w; processedCount := processedCount w;
     form := f |}.

(** *** Primitive effects *)

Definition emit (e : Event) : M unit :=
  modify (λ w, with_log (log w ++ [e]) w).

(** One request to the environment: the oracle is read at the current
    tick, and the tick advances. *)
Definition ask {A} (oracle : nat → A) : M A :=
  λ w, (Ok (oracle (tick w)), with_tick (S (tick w)) w).

Definition consoleError (msg : string) (e : Exn) : M unit :=
  emit (EvConsoleError msg e).

(** [URL.createObjectURL]: a URL that is not live is minted and bound to
    the file. *)
Definition createObjectURL (f : File) : M ObjectURL :=
  λ w,
  let u := fresh (dom (objectURLs w)) in
  (Ok u,
   with_log (log w ++ [EvCreateObjectURL u])
     (with_objectURLs (<[u := f]> (objectURLs w)) w)).

(** [URL.revokeObjectURL] *)
Definition revokeObjectURL (u : ObjectURL) : M unit :=
  modify (λ w,
    with_log (log w ++ [EvRevokeObjectURL u])
      (with_objectURLs (delete u (objectURLs w)) w)).

(** [setStagedFiles(prev => f(prev))]; every update is visible to the
    interface and recorded in the log. *)
Definition setStagedFiles (f : list StagedFile.t → list StagedFile.t) : M unit :=
  modify (λ w,
    let l := f (stagedFiles w) in
    with_log (log w ++ [EvSetStagedFiles l]) (with_stagedFiles l w)).

Definition setProcessedCount (n : nat) : M unit :=
  modify (with_processedCount n).

Definition setIsProcessing (b : bool) : M unit :=
  modify (with_isProcessing b).

Definition setSongs (f : list Song.t → list Song.t) : M unit :=
  modify (λ w, with_songs (f (songs w)) w).

Fixpoint mapM {A B} (f : A → M B) (l : list A) : M (list B) :=
  match l with
  | [] => mret []
  | x :: l' => y ← f x; ys ← mapM f l'; mret (y :: ys)
  end.

Definition is_empty (s : string) : bool :=
  match s with
  | EmptyString => true
  | String _ _ => false
  end.

(** ** The program *)

Section Program.

Variable env : Env.

Definition callGenerateContent (prompt : string) : M string :=
  emit (EvGenerateContent prompt) ;;
  r ← ask (λ t, generateContent env t prompt);
  lift r.

Definition callFetch (url : string) : M Response :=
  emit (EvFetch url) ;;
  r ← ask (λ t, fetch env t url);
  lift r.

(** [new File([blob], name, { type: blob.type })] *)
Definition newFile (blob : Blob) (name : string) : M File :=
  t ← ask (dateNow env);
  mret {| file_name := name; lastModified := t;
          file_bytes := blob_bytes blob; file_type := blob_type blob |}.

Definition geminiPrompt (name : string) : string :=
  "Extract the artist and title from this filename: " +:+ dquote +:+ name
  +:+ dquote +:+ ". Assume " +:+ dquote +:+ "Artist - Title" +:+ dquote
  +:+ " or similar formats.".

Definition itunesSearchUrl (searchTerm : string) : string :=
  "https://itunes.apple.com/search?term=" +:+ searchTerm
  +:+ "&entity=song&limit=1".

(** [data.results[0]] followed by the read of property [prop]: reading a
    property of [undefined] is a [TypeError]. *)
Definition first_result (prop : string) (data : ItunesData) : M ItunesResult :=
  match results data with
  | r :: _ => mret r
  | [] =>
      throw RuntimeError
        ("Cannot read properties of undefined (reading '" +:+ prop +:+ "')")
  end.

(** *** BulkUploader *)

(** The metadata of lines 211-215 of the dashboard. *)
Definition resolveDetails (songData : ItunesResult) (title artist : string)
  : SongDetails.t :=
  {| SongDetails.title := js_or (trackName songData) title;
     SongDetails.artist := js_or (artistName songData) artist;
     SongDetails.album := js_or (collectionName songData) title |}.

Definition highResArtworkUrlOf (songData : ItunesResult) : string :=
  js_replace "100x100" "600x600" (js_or (artworkUrl100 songData) EmptyString).

(** The second half of [processFile] (lines 207-226), from the parsed
    catalog response on: [title] and [artist] are the extracted ones. *)
Definition processFile_resolve (title artist : string)
    (itunesData : ItunesData) : M (SongDetails.t * File) :=
  if (resultCount itunesData =? 0)%Z then
    throw LookupError "Song not found on iTunes."
  else
    songData ← first_result "trackName" itunesData;
    let songDetails := resolveDetails songData title artist in
    let highResArtworkUrl := highResArtworkUrlOf songData in
    if is_empty highResArtworkUrl then
      throw ArtworkUrlError "Cover art not found."
    else
      artResponse ← callFetch highResArtworkUrl;
      if negb (resp_ok artResponse) then
        throw ArtworkFetchError "Failed to download cover art."
      else
        let artBlob := resp_blob artResponse in
        coverArtFile ← newFile artBlob "cover.jpg";
        mret (songDetails, coverArtFile).

Definition processFile (file : File) : M (SongDetails.t * File) :=
  text ← callGenerateContent (geminiPrompt (file_name file));
  geminiResult ← lift (jsonParse env text);
  let title := ex_title geminiResult in
  let artist := ex_artist geminiResult in
  if negb (truthy title) || negb (truthy artist) then
    throw ExtractionError "AI could not determine title and artist."
  else
    let searchTerm :=
      encodeURIComponent env (js_str artist +:+ " " +:+ js_str title) in
    itunesResponse ← callFetch (itunesSearchUrl searchTerm);
    if negb (resp_ok itunesResponse) then
      throw CatalogResponseError "iTunes search failed."
    else
      itunesData ← lift (resp_json itunesResponse);
      processFile_resolve (js_str title) (js_str artist) itunesData.

Definition newStagedFile (file : File) : M StagedFile.t :=
  r ← ask (mathRandom env);
  mret {| StagedFile.id :=
            file_name file +:+ "-" +:+ pretty (lastModified file)
            +:+ "-" +:+ r;
          StagedFile.file := file;
          StagedFile.status := pending;
          StagedFile.songDetails := None;
          StagedFile.coverArtFile := None;
          StagedFile.error := None |}.

(** [files] is [e.target.files], which may be null. *)
Definition handleFileChange (files : option (list File)) : M unit :=
  match files with
  | None => mret tt
  | Some fs =>
      newStagedFiles ← mapM newStagedFile fs;
      setStagedFiles (λ prev, (prev ++ newStagedFiles)%list)
  end.

(** [prev.map(sf => sf.id === id ? upd(sf) : sf)] *)
Definition updateById (id : string) (upd : StagedFile.t → StagedFile.t)
    (prev : list StagedFile.t) : list StagedFile.t :=
  (λ sf, if decide (StagedFile.id sf = id) then upd sf else sf) <$> prev.

Definition markProcessing (sf : StagedFile.t) : StagedFile.t :=
  {| StagedFile.id := StagedFile.id sf;
     StagedFile.file := StagedFile.file sf;
     StagedFile.status := processing;
     StagedFile.songDetails := StagedFile.songDetails sf;
     StagedFile.coverArtFile := StagedFile.coverArtFile sf;
     StagedFile.error := StagedFile.error sf |}.

Definition markSuccess (songDetails : SongDetails.t) (coverArtFile : File)
    (sf : StagedFile.t) : StagedFile.t :=
  {| StagedFile.id := StagedFile.id sf;
     StagedFile.file := StagedFile.file sf;
     StagedFile.status := success;
     StagedFile.songDetails := Some songDetails;
     StagedFile.coverArtFile := Some coverArtFile;
     StagedFile.error := StagedFile.error sf |}.

Definition markError (msg : string) (sf : StagedFile.t) : StagedFile.t :=
  {| StagedFile.id := StagedFile.id sf;
     StagedFile.file := StagedFile.file sf;
     StagedFile.status := error;
     StagedFile.songDetails := StagedFile.songDetails sf;
     StagedFile.coverArtFile := StagedFile.coverArtFile sf;
     StagedFile.error := Some msg |}.

(** [e.message || 'An unknown error occurred'] *)
Definition errorMessage (e : Exn) : string :=
  js_or (Some (exn_message e)) "An unknown error occurred".

(** The body of the loop of [handleProcessQueue] for one item of the
    snapshot; the result is the new value of [currentProcessed]. *)
Definition processQueueItem (stagedFile : StagedFile.t)
    (currentProcessed : nat) : M nat :=
  if decide (StagedFile.status stagedFile ≠ pending) then
    setProcessedCount (S currentProcessed) ;;
    mret (S currentProcessed)
  else
    setStagedFiles (updateById (StagedFile.id stagedFile) markProcessing) ;;
    try_catch
      (r ← processFile (StagedFile.file stagedFile);
       setStagedFiles
         (updateById (StagedFile.id stagedFile) (markSuccess r.1 r.2)))
      (λ e,
       consoleError
         ("Failed to process " +:+ file_name (StagedFile.file stagedFile)
          +:+ ":") e ;;
       setStagedFiles
         (updateById (StagedFile.id stagedFile)
            (markError (errorMessage e)))) ;;
    setProcessedCount (S currentProcessed) ;;
    mret (S currentProcessed).

Fixpoint processQueueLoop (snapshot : list StagedFile.t)
    (currentProcessed : nat) : M nat :=
  match snapshot with
  | [] => mret currentProcessed
  | stagedFile :: rest =>
      c ← processQueueItem stagedFile currentProcessed;
      processQueueLoop rest c
  end.

(** The loop runs over the [stagedFiles] of the render in which the
    handler was created, while the updates apply to the current state. *)
Definition handleProcessQueue : M unit :=
  snapshot ← gets stagedFiles;
  setIsProcessing true ;;
  setProcessedCount 0 ;;
  processQueueLoop snapshot 0 ;;
  setIsProcessing false.

(** The Clear All button. *)
Definition handleClearAll : M unit := setStagedFiles (λ _, []).


(** *** lib/db.ts *)

(** [store.put(song)]: the record is stored under its [id], replacing a
    record with the same key. *)
Definition put (m : gmap string StoredSong.t) (song : StoredSong.t)
  : gmap string StoredSong.t :=
  <[StoredSong.id song := song]> m.

(** [addSongsToDB]: one read-write transaction that puts every record.
    The promise resolves in [transaction.oncomplete] and rejects in
    [transaction.onerror]; there is no [onabort], so the promise of a
    transaction that aborts without [error] event never settles.  The
    writes of a failed transaction are not applied. *)
Definition addSongsToDB (songs : list StoredSong.t) : M unit :=
  r ← ask (λ t, (transactionError env t, transactionErrorEvent env t));
  match r with
  | (None, _) =>
      emit (EvTransaction songs true) ;;
      modify (λ w, with_db (foldl put (db w) songs) w)
  | (Some msg, true) =>
      emit (EvTransaction songs false) ;;
      throw RuntimeError msg
  | (Some _, false) =>
      emit (EvTransaction songs false) ;;
      unsettled
  end.

(** *** App.tsx *)

(** The body of the [forEach] of [addSongs]: the record for the store and
    the song for display, which share the generated id. *)
Definition prepareSong (data : SongData.t) : M (StoredSong.t * Song.t) :=
  iso ← ask (toISOString env);
  let id := iso +:+ "-" +:+ SongData.title data in
  audioSrc ← createObjectURL (SongData.audioFile data);
  coverArtSrc ← createObjectURL (SongData.coverArtFile data);
  mret ({| StoredSong.id := id;
           StoredSong.title := SongData.title data;
           StoredSong.artist := SongData.artist data;
           StoredSong.album := SongData.album data;
           StoredSong.audioFile := SongData.audioFile data;
           StoredSong.coverArtFile := SongData.coverArtFile data |},
        {| Song.id := id;
           Song.title := SongData.title data;
           Song.artist := SongData.artist data;
           Song.album := SongData.album data;
           Song.audioSrc := audioSrc;
           Song.coverArtSrc := coverArtSrc |}).

Definition revokeSong (song : Song.t) : M unit :=
  revokeObjectURL (Song.audioSrc song) ;;
  revokeObjectURL (Song.coverArtSrc song).

Definition addSongs (newSongsData : list SongData.t) : M unit :=
  prepared ← mapM prepareSong newSongsData;
  let newStoredSongs := prepared.*1 in
  let newDisplaySongs := prepared.*2 in
  try_catch
    (addSongsToDB newStoredSongs ;;
     setSongs (λ prevSongs, (prevSongs ++ newDisplaySongs)%list))
    (λ e,
     consoleError "Failed to save songs to DB:" e ;;
     forEach newDisplaySongs revokeSong).

(** *** BulkUploader, continued *)

(** The [SongData] of a successful item.  The non-null assertions of the
    source are unchecked: an item without details makes the handler fail
    with a [TypeError] in the map.  An item without cover art would make
    it fail later, in [URL.createObjectURL]; the model raises that error
    in the map as well.  Neither happens for an item marked by
    [markSuccess], which sets both. *)
Definition toSongData (sf : StagedFile.t) : M SongData.t :=
  match StagedFile.songDetails sf, StagedFile.coverArtFile sf with
  | Some d, Some c =>
      mret {| SongData.title := SongDetails.title d;
              SongData.artist := SongDetails.artist d;
              SongData.album := SongDetails.album d;
              SongData.audioFile := StagedFile.file sf;
              SongData.coverArtFile := c |}
  | None, _ =>
      throw RuntimeError
        "Cannot read properties of undefined (reading 'title')"
  | Some _, None =>
      throw RuntimeError
        "Failed to execute 'createObjectURL' on 'URL': Overload resolution failed."
  end.

Definition handleAddSongsToLibrary : M unit :=
  staged ← gets stagedFiles;
  let successfulFiles :=
    filter (λ sf, StagedFile.status sf = success) staged in
  if decide (length successfulFiles = 0%nat) then mret tt
  else
    newSongsData ← mapM toSongData successfulFiles;
    addSongs newSongsData ;;
    setStagedFiles (λ _, []) ;;
    setProcessedCount 0.

(** *** SingleSongUploader *)

Definition setForm (f : SingleForm → SingleForm) : M unit :=
  modify (λ w, with_form (f (form w)) w).

Definition setArtist (v : option string) : M unit :=
  setForm (λ f,
    {| f_title := f_title f; f_artist := v; f_album := f_album f;
       f_audioFile := f_audioFile f; f_coverArtFile := f_coverArtFile f;
       f_coverArtPreview := f_coverArtPreview f;
       f_isFetching := f_isFetching f; f_isSubmitting := f_isSubmitting f;
       f_error := f_error f |}).

Definition setAlbum (v : option string) : M unit :=
  setForm (λ f,
    {| f_title := f_title f; f_artist := f_artist f; f_album := v;
       f_audioFile := f_audioFile f; f_coverArtFile := f_coverArtFile f;
       f_coverArtPreview := f_coverArtPreview f;
       f_isFetching := f_isFetching f; f_isSubmitting := f_isSubmitting f;
       f_error := f_error f |}).

Definition setCoverArtFile (v : option File) : M unit :=
  setForm (λ f,
    {| f_title := f_title f; f_artist := f_artist f; f_album := f_album f;
       f_audioFile := f_audioFile f; f_coverArtFile := v;
       f_coverArtPreview := f_coverArtPreview f;
       f_isFetching := f_isFetching f; f_isSubmitting := f_isSubmitting f;
       f_error := f_error f |}).

Definition setCoverArtPreview (v : option ObjectURL) : M unit :=
  setForm (λ f,
    {| f_title := f_title f; f_artist := f_artist f; f_album := f_album f;
       f_audioFile := f_audioFile f; f_coverArtFile := f_coverArtFile f;
       f_coverArtPreview := v;
       f_isFetching := f_isFetching f; f_isSubmitting := f_isSubmitting f;
       f_error := f_error f |}).

Definition setIsFetching (b : bool) : M unit :=
  setForm (λ f,
    {| f_title := f_title f; f_artist := f_artist f; f_album := f_album f;
       f_audioFile := f_audioFile f; f_coverArtFile := f_coverArtFile f;
       f_coverArtPreview := f_coverArtPreview f;
       f_isFetching := b; f_isSubmitting := f_isSubmitting f;
       f_error := f_error f |}).

Definition setError (v : option string) : M unit :=
  setForm (λ f,
    {| f_title := f_title f; f_artist := f_artist f; f_album := f_album f;
       f_audioFile := f_audioFile f; f_coverArtFile := f_coverArtFile f;
       f_coverArtPreview := f_coverArtPreview f;
       f_isFetching := f_isFetching f; f_isSubmitting := f_isSubmitting f;
       f_error := v |}).

(** The [try] block of [handleFetchInfo]; [title] and [coverArtPreview]
    are the values of the render in which the handler was created. *)
Definition fetchInfoBody (title : string) (coverArtPreview : option ObjectURL)
  : M unit :=
  let searchTerm := encodeURIComponent env title in
  response ← callFetch (itunesSearchUrl searchTerm);
  if negb (resp_ok response) then
    throw CatalogResponseError "Failed to fetch from iTunes."
  else
    data ← lift (resp_json response);
    if (resultCount data =? 0)%Z then
      throw LookupError
        ("No results found for " +:+ dquote +:+ title +:+ dquote +:+ ".")
    else
      result ← first_result "artistName" data;
      setArtist (artistName result) ;;
      setAlbum (collectionName result) ;;
      match artworkUrl100 result with
      | None =>
          throw RuntimeError
            "Cannot read properties of undefined (reading 'replace')"
      | Some artworkUrl =>
          let highResArtworkUrl := js_replace "100x100" "600x600" artworkUrl in
          artResponse ← callFetch highResArtworkUrl;
          let artBlob := resp_blob artResponse in
          artFile ← newFile artBlob "cover.jpg";
          setCoverArtFile (Some artFile) ;;
          match coverArtPreview with
          | Some u => revokeObjectURL u
          | None => mret tt
          end ;;
          u ← createObjectURL artFile;
          setCoverArtPreview (Some u)
      end.

Definition handleFetchInfo : M unit :=
  title ← gets (λ w, f_title (form w));
  coverArtPreview ← gets (λ w, f_coverArtPreview (form w));
  if is_empty title then
    setError (Some "Please enter a song title to fetch info.")
  else
    setIsFetching true ;;
    setError None ;;
    try_finally
      (try_catch (fetchInfoBody title coverArtPreview)
         (λ e, setError (Some (exn_message e))))
      (setIsFetching false).

End Program.

(** ** Observations on runs *)

(** The events a run from [w] to [w'] added to the log. *)
Definition events_since (w w' : World) : list Event :=
  drop (length (log w)) (log w').

(** The prompts sent to the model: one per attempt of the per-item
    pipeline, whose first step is the text extraction. *)
Definition gemini_prompts (l : list Event) : list string :=
  omap (λ e, match e with EvGenerateContent p => Some p | _ => None end) l.

Definition fetched_urls (l : list Event) : list string :=
  omap (λ e, match e with EvFetch u => Some u | _ => None end) l.

Definition staged_updates (l : list Event) : list (list StagedFile.t) :=
  omap (λ e, match e with EvSetStagedFiles s => Some s | _ => None end) l.

Definition created_urls (l : list Event) : list ObjectURL :=
  omap (λ e, match e with EvCreateObjectURL u => Some u | _ => None end) l.

Definition revoked_urls (l : list Event) : list ObjectURL :=
  omap (λ e, match e with EvRevokeObjectURL u => Some u | _ => None end) l.

Definition transactions (l : list Event) : list (list StoredSong.t * bool) :=
  omap (λ e, match e with EvTransaction r b => Some (r, b) | _ => None end) l.

(** The prompt of the attempt on a staged item. *)
Definition prompt_of (sf : StagedFile.t) : string :=
  geminiPrompt (file_name (StagedFile.file sf)).

Definition is_pending (sf : StagedFile.t) : Prop :=
  StagedFile.status sf = pending.

Global Instance is_pending_dec (sf : StagedFile.t) : Decision (is_pending sf).
Proof. unfold is_pending. apply _. Defined.

Definition is_terminal (sf : StagedFile.t) : Prop :=
  StagedFile.status sf = success ∨ StagedFile.status sf = error.

(** ** The state machine of a staged item *)

(** One step, or none, along pending, processing, then success or error. *)
Inductive forward : Status → Status → Prop :=
| forward_stay s : forward s s
| forward_start : forward pending processing
| forward_ok : forward processing success
| forward_fail : forward processing error.

(** The same item before and after an update of the collection. *)
Definition item_step (a b : StagedFile.t) : Prop :=
  StagedFile.id b = StagedFile.id a ∧
  StagedFile.file b = StagedFile.file a ∧
  forward (StagedFile.status a) (StagedFile.status b).

(** An update of the staged collection that respects the state machine:
    every item steps forward in place, or pending items are appended, or
    the whole batch is removed. *)
Definition lawful_update (old new : list StagedFile.t) : Prop :=
  Forall2 item_step old new
  ∨ (∃ added, new = (old ++ added)%list ∧ Forall is_pending added)
  ∨ new = [].

Fixpoint lawful_history (cur : list StagedFile.t)
    (updates : list (list StagedFile.t)) : Prop :=
  match updates with
  | [] => True
  | u :: rest => lawful_update cur u ∧ lawful_history u rest
  end.

(** A success item carries its details and its cover art. *)
Definition complete (sf : StagedFile.t) : Prop :=
  StagedFile.status sf = success →
  is_Some (StagedFile.songDetails sf) ∧ is_Some (StagedFile.coverArtFile sf).

(** The extraction and the catalog request of the pipeline run on [file]
    from world [w]: the model answers with a title and an artist, both
    non-empty, and the catalog answers the search for them with a 2xx
    response whose body parses to [data]. *)
Definition lookup_returns (env : Env) (w : World) (file : File)
    (title artist : string) (data : ItunesData) : Prop :=
  ∃ text resp,
    generateContent env (tick w) (geminiPrompt (file_name file))
      = Resolved text ∧
    jsonParse env text
      = Resolved {| ex_title := Some title; ex_artist := Some artist |} ∧
    is_empty title = false ∧ is_empty artist = false ∧
    fetch env (S (tick w))
      (itunesSearchUrl (encodeURIComponent env (artist +:+ " " +:+ title)))
      = Resolved resp ∧
    resp_ok resp = true ∧
    resp_json resp = Resolved data.

(** ** The operations on the staged collection *)

(** What the administrator can do to the staged collection. *)
Inductive Action :=
| FileChange (files : option (list File))
| ProcessQueue
| AddSongsToLibrary
| ClearAll.

Definition perform (env : Env) (a : Action) : M unit :=
  match a with
  | FileChange files => handleFileChange env files
  | ProcessQueue => handleProcessQueue env
  | AddSongsToLibrary => handleAddSongsToLibrary env
  | ClearAll => handleClearAll
  end.

(** ** Predicates on runs *)

(** [w'] holds the same component state, object URLs, store and library
    as [w]: a run from [w] to [w'] only talked to the environment. *)
Definition frame (w w' : World) : Prop :=
  objectURLs w' = objectURLs w ∧ db w' = db w ∧ songs w' = songs w ∧
  stagedFiles w' = stagedFiles w ∧ isProcessing w' = isProcessing w ∧
  processedCount w' = processedCount w ∧ form w' = form w.

(** Everything but the tick, the log and the object URLs is the same. *)
Definition frame_io (w w' : World) : Prop :=
  db w' = db w ∧ songs w' = songs w ∧ stagedFiles w' = stagedFiles w ∧
  isProcessing w' = isProcessing w ∧ processedCount w' = processedCount w ∧
  form w' = form w.

Definition is_fetch (e : Event) : Prop :=
  match e with EvFetch _ => True | _ => False end.

Definition is_quiet (e : Event) : Prop :=
  match e with
  | EvFetch _ | EvConsoleError _ _ => True
  | _ => False
  end.

(** [talks P m]: a run of [m] adds only events that satisfy [P] to the
    log and changes nothing but the log and the tick. *)
Definition talks (P : Event → Prop) {A} (m : M A) : Prop :=
  ∀ w, ∃ evs,
    log (m w).2 = log w ++ evs ∧ Forall P evs ∧ frame w (m w).2.

(** A computation is [tick_local] when its outcome and the tick it ends
    at are decided by the tick it starts from: it reads nothing else of
    the world. *)
Definition tick_local {A} (m : M A) : Prop :=
  ∀ w1 w2, tick w1 = tick w2 →
    (m w1).1 = (m w2).1 ∧ tick (m w1).2 = tick (m w2).2.

(** A computation [settles] when no run of it stays suspended: every
    promise it awaits settles. *)
Definition settles {A} (m : M A) : Prop := ∀ w, (m w).1 ≠ Unsettled.

(** The update that ends the attempt on an item; no update ends an
    attempt that stays suspended. *)
Definition finish (o : Outcome (SongDetails.t * File))
  : StagedFile.t → StagedFile.t :=
  match o with
  | Ok r => markSuccess r.1 r.2
  | Throw e => markError (errorMessage e)
  | Unsettled => λ sf, sf
  end.

(** The state agrees with the snapshot on the items still to process: an
    item of the state that bears the id of a pending item of [rest] is
    pending. *)
Definition agrees (rest st : list StagedFile.t) : Prop :=
  ∀ a b, a ∈ st → b ∈ rest → StagedFile.id a = StagedFile.id b →
         is_pending b → is_pending a.

Definition is_success (sf : StagedFile.t) : Prop :=
  StagedFile.status sf = success.

(** The [SongData] handed to [addSongs] for a success item. *)
Definition dataOf (sf : StagedFile.t) (data : SongData.t) : Prop :=
  SongData.audioFile data = StagedFile.file sf ∧
  StagedFile.coverArtFile sf = Some (SongData.coverArtFile data) ∧
  StagedFile.songDetails sf =
    Some {| SongDetails.title := SongData.title data;
            SongDetails.artist := SongData.artist data;
            SongDetails.album := SongData.album data |}.

(** The world after a commit that went through: the batch and the
    progress counter are cleared after [addSongs]. *)
Definition committed (env : Env) (data : list SongData.t) (w : World)
  : World :=
  let w1 := (addSongs env data w).2 in
  with_processedCount 0
    (with_log (log w1 ++ [EvSetStagedFiles []]) (with_stagedFiles [] w1)).

(** The write transaction asked at request [t] settles the promise of
    [addSongsToDB]: it completes, or it fails with an [error] event. *)
Definition store_settles (env : Env) (t : nat) : bool :=
  match transactionError env t with
  | None => true
  | Some _ => transactionErrorEvent env t
  end.

(** The world once the model and the catalog have answered. *)
Definition after_lookup (env : Env) (w : World) (file : File)
    (title artist : string) : World :=
  with_tick (S (S (tick w)))
    (with_log
       (log w ++
        [EvGenerateContent (geminiPrompt (file_name file));
         EvFetch (itunesSearchUrl
                    (encodeURIComponent env (artist +:+ " " +:+ title)))])
       w).

(** The world once the artwork host has been asked for [url]. *)
Definition after_fetch (w : World) (url : string) : World :=
  with_tick (S (tick w)) (with_log (log w ++ [EvFetch url]) w).

(** The cover art file built from the body of the artwork response. *)
Definition coverArtOf (env : Env) (t : nat) (r : Response) : File :=
  {| file_name := "cover.jpg"; lastModified := dateNow env t;
     file_bytes := blob_bytes (resp_blob r);
     file_type := blob_type (resp_blob r) |}.

(** The record [addSongs] builds for the song [data] when the clock reads
    [iso]. *)
Definition storedSongOf (iso : string) (data : SongData.t) : StoredSong.t :=
  {| StoredSong.id := iso +:+ "-" +:+ SongData.title data;
     StoredSong.title := SongData.title data;
     StoredSong.artist := SongData.artist data;
     StoredSong.album := SongData.album data;
     StoredSong.audioFile := SongData.audioFile data;
     StoredSong.coverArtFile := SongData.coverArtFile data |}.

(** The records of a batch whose first clock reading is request [t]: the
    clock is read once per song. *)
Definition recordsOf (env : Env) (t : nat) (l : list SongData.t)
  : list StoredSong.t :=
  imap (λ i data, storedSongOf (toISOString env (t + i)) data) l.

(** The object URLs of a list of display songs, in creation order. *)
Definition urls_of (l : list Song.t) : list ObjectURL :=
  l ≫= λ song, [Song.audioSrc song; Song.coverArtSrc song].

(** A display song bears the id and the metadata of its record. *)
Definition displays (r : StoredSong.t) (s : Song.t) : Prop :=
  Song.id s = StoredSong.id r ∧ Song.title s = StoredSong.title r ∧
  Song.artist s = StoredSong.artist r ∧ Song.album s = StoredSong.album r.

(** ** Scenarios *)

Definition coverBlob : Blob :=
  {| blob_bytes := [Byte.xff; Byte.xd8]; blob_type := "image/jpeg" |}.

Definition notFoundBlob : Blob :=
  {| blob_bytes := [Byte.x3c; Byte.x68]; blob_type := "text/html" |}.

Definition helpResult : ItunesResult :=
  {| trackName := Some "Yesterday";
     artistName := Some "The Beatles";
     collectionName := Some "Help!";
     artworkUrl100 := Some "http://x/100x100bb.jpg" |}.

Definition oneMatch : ItunesData :=
  {| resultCount := 1; results := [helpResult] |}.

Definition noMatch : ItunesData := {| resultCount := 0; results := [] |}.

Definition noArtworkResult : ItunesResult :=
  {| trackName := Some "Yesterday"; artistName := Some "The Beatles";
     collectionName := Some "Help!"; artworkUrl100 := None |}.

(** An environment in which the model extracts Yesterday by The Beatles
    from every file name, the catalog answers every search with
    [catalog], the artwork host answers with status [artStatus] and the
    body [artBody], and the store fails with [storeError] if any, with
    an [error] event.  The clock stands still. *)
Definition scenarioEnv (catalog : ItunesData) (artStatus : Z)
    (artBody : Blob) (storeError : option string) : Env :=
  {| generateContent := λ _ _, Resolved "{title: Yesterday, artist: The Beatles}";
     jsonParse := λ _,
       Resolved {| ex_title := Some "Yesterday";
                   ex_artist := Some "The Beatles" |};
     encodeURIComponent := λ s, s;
     fetch := λ _ url,
       match strip_prefix "https://itunes.apple.com/" url with
       | Some _ =>
           Resolved {| resp_status := 200; resp_json := Resolved catalog;
                       resp_blob := notFoundBlob |}
       | None =>
           Resolved {| resp_status := artStatus;
                       resp_json := Rejected "Unexpected token";
                       resp_blob := artBody |}
       end;
     toISOString := λ _, "2024-01-01T00:00:00.000Z";
     dateNow := λ _, 1704067200000%Z;
     mathRandom := λ t, "0." +:+ pretty t;
     transactionError := λ _, storeError;
     transactionErrorEvent := λ _, true |}.

Definition happyEnv : Env := scenarioEnv oneMatch 200 coverBlob None.

(** An environment like [happyEnv] whose catalog finds nothing during the
    first two requests: the first item of a batch fails, the next ones
    succeed. *)
Definition flakyEnv : Env :=
  {| generateContent := generateContent happyEnv;
     jsonParse := jsonParse happyEnv;
     encodeURIComponent := encodeURIComponent happyEnv;
     fetch := λ t url,
       if (t <? 2)%nat
       then fetch (scenarioEnv noMatch 200 coverBlob None) t url
       else fetch happyEnv t url;
     toISOString := toISOString happyEnv;
     dateNow := dateNow happyEnv;
     mathRandom := mathRandom happyEnv;
     transactionError := transactionError happyEnv;
     transactionErrorEvent := transactionErrorEvent happyEnv |}.

Definition missEnv : Env := scenarioEnv noMatch 200 coverBlob None.

Definition noArtworkEnv : Env :=
  scenarioEnv {| resultCount := 1; results := [noArtworkResult] |}
    200 coverBlob None.

(** A match under another track name, with an empty artist name and no
    collection name. *)
Definition sparseResult : ItunesResult :=
  {| trackName := Some "Yesterday (Remastered 2009)";
     artistName := Some EmptyString;
     collectionName := None;
     artworkUrl100 := Some "http://x/100x100bb.jpg" |}.

Definition sparseEnv : Env :=
  scenarioEnv {| resultCount := 1; results := [sparseResult] |}
    200 coverBlob None.

Definition brokenArtEnv : Env := scenarioEnv oneMatch 404 notFoundBlob None.

Definition fullStoreEnv : Env :=
  scenarioEnv oneMatch 200 coverBlob (Some "QuotaExceededError").

(** An environment like [fullStoreEnv] whose write transaction fails at
    commit: it aborts without [error] event. *)
Definition abortedStoreEnv : Env :=
  {| generateContent := generateContent fullStoreEnv;
     jsonParse := jsonParse fullStoreEnv;
     encodeURIComponent := encodeURIComponent fullStoreEnv;
     fetch := fetch fullStoreEnv;
     toISOString := toISOString fullStoreEnv;
     dateNow := dateNow fullStoreEnv;
     mathRandom := mathRandom fullStoreEnv;
     transactionError := transactionError fullStoreEnv;
     transactionErrorEvent := λ _, false |}.

Definition initialForm : SingleForm :=
  {| f_title := EmptyString; f_artist := Some EmptyString;
     f_album := Some EmptyString; f_audioFile := None;
     f_coverArtFile := None; f_coverArtPreview := None;
     f_isFetching := false; f_isSubmitting := false; f_error := None |}.

Definition typedForm (title : string) : SingleForm :=
  {| f_title := title; f_artist := Some EmptyString;
     f_album := Some EmptyString; f_audioFile := None;
     f_coverArtFile := None; f_coverArtPreview := None;
     f_isFetching := false; f_isSubmitting := false; f_error := None |}.

Definition initialWorld : World :=
  {| tick := 0; log := []; objectURLs := ∅; db := ∅; songs := [];
     stagedFiles := []; isProcessing := false; processedCount := 0;
     form := initialForm |}.

Definition audioFile (name : string) : File :=
  {| file_name := name; lastModified := 17;
     file_bytes := [Byte.x49; Byte.x44; Byte.x33]; file_type := "audio/mpeg" |}.

Definition coverFile : File :=
  {| file_name := "cover.jpg"; lastModified := 1704067200000;
     file_bytes := blob_bytes coverBlob; file_type := blob_type coverBlob |}.

Definition pendingItem (id name : string) : StagedFile.t :=
  {| StagedFile.id := id; StagedFile.file := audioFile name;
     StagedFile.status := pending; StagedFile.songDetails := None;
     StagedFile.coverArtFile := None; StagedFile.error := None |}.

Definition successItem : StagedFile.t :=
  {| StagedFile.id := "a"; StagedFile.file := audioFile "Beatles - Yesterday.mp3";
     StagedFile.status := success;
     StagedFile.songDetails :=
       Some {| SongDetails.title := "Yesterday";
               SongDetails.artist := "The Beatles";
               SongDetails.album := "Help!" |};
     StagedFile.coverArtFile := Some coverFile; StagedFile.error := None |}.

Definition errorItem : StagedFile.t :=
  {| StagedFile.id := "b"; StagedFile.file := audioFile "Unknown - Noise.mp3";
     StagedFile.status := error; StagedFile.songDetails := None;
     StagedFile.coverArtFile := None;
     StagedFile.error := Some "Song not found on iTunes." |}.

Definition stagedWorld (l : list StagedFile.t) : World :=
  with_stagedFiles l initialWorld.

Definition yesterdayData : SongData.t :=
  {| SongData.title := "Yesterday"; SongData.artist := "The Beatles";
     SongData.album := "Help!";
     SongData.audioFile := audioFile "Beatles - Yesterday.mp3";
     SongData.coverArtFile := coverFile |}.

(** ** More of the program *)

(** *** SingleSongUploader, continued *)

Definition setTitle (v : string) : M unit :=
  setForm (λ f,
    {| f_title := v; f_artist := f_artist f; f_album := f_album f;
       f_audioFile := f_audioFile f; f_coverArtFile := f_coverArtFile f;
       f_coverArtPreview := f_coverArtPreview f;
       f_isFetching := f_isFetching f; f_isSubmitting := f_isSubmitting f;
       f_error := f_error f |}).

Definition setAudioFile (v : option File) : M unit :=
  setForm (λ f,
    {| f_title := f_title f; f_artist := f_artist f; f_album := f_album f;
       f_audioFile := v; f_coverArtFile := f_coverArtFile f;
       f_coverArtPreview := f_coverArtPreview f;
       f_isFetching := f_isFetching f; f_isSubmitting := f_isSubmitting f;
       f_error := f_error f |}).

Definition setIsSubmitting (b : bool) : M unit :=
  setForm (λ f,
    {| f_title := f_title f; f_artist := f_artist f; f_album := f_album f;
       f_audioFile := f_audioFile f; f_coverArtFile := f_coverArtFile f;
       f_coverArtPreview := f_coverArtPreview f;
       f_isFetching := f_isFetching f; f_isSubmitting := b;
       f_error := f_error f |}).

(** [if (coverArtPreview) URL.revokeObjectURL(coverArtPreview)] *)
Definition revokePreview (coverArtPreview : option ObjectURL) : M unit :=
  match coverArtPreview with
  | Some u => revokeObjectURL u
  | None => mret tt
  end.

(** [handleCoverArtChange]; [file] is [e.target.files?.[0]] and
    [coverArtPreview] the value of the render in which the handler was
    created. *)
Definition handleCoverArtChange (file : option File) : M unit :=
  coverArtPreview ← gets (λ w, f_coverArtPreview (form w));
  match file with
  | Some f =>
      setCoverArtFile (Some f) ;;
      revokePreview coverArtPreview ;;
      u ← createObjectURL f;
      setCoverArtPreview (Some u)
  | None => mret tt
  end.

(** The guard of [handleSubmit] and the [SongData] it builds: [None]
    when one of title, artist, album, audio file and cover art is
    missing or empty. *)
Definition formSongData (f : SingleForm) : option SongData.t :=
  match f_audioFile f, f_coverArtFile f with
  | Some audio, Some cover =>
      if is_empty (f_title f) || negb (truthy (f_artist f))
         || negb (truthy (f_album f))
      then None
      else Some {| SongData.title := f_title f;
                   SongData.artist := js_str (f_artist f);
                   SongData.album := js_str (f_album f);
                   SongData.audioFile := audio;
                   SongData.coverArtFile := cover |}
  | _, _ => None
  end.

(** [handleSubmit].  [e.preventDefault()] and the reset of the DOM form
    act on the document, which the world does not hold. *)
Definition handleSubmit (env : Env) : M unit :=
  f ← gets form;
  match formSongData f with
  | None =>
      setError
        (Some "All fields, including audio and cover art, are required.")
  | Some newSongData =>
      setIsSubmitting true ;;
      addSongs env [newSongData] ;;
      setTitle EmptyString ;;
      setArtist (Some EmptyString) ;;
      setAlbum (Some EmptyString) ;;
      setAudioFile None ;;
      setCoverArtFile None ;;
      revokePreview (f_coverArtPreview f) ;;
      setCoverArtPreview None ;;
      setError None ;;
      setIsSubmitting false
  end.

(** *** BulkUploader, what the buttons read *)

Definition successfulCount (w : World) : nat :=
  length (filter (λ s, StagedFile.status s = success) (stagedFiles w)).

Definition pendingCount (w : World) : nat :=
  length (filter (λ s, StagedFile.status s = pending) (stagedFiles w)).

(** [disabled] of the Process All Files button. *)
Definition processDisabled (w : World) : bool :=
  isProcessing w || (pendingCount w =? 0)%nat.

(** [disabled] of the Add Songs to Library button. *)
Definition addDisabled (w : World) : bool :=
  isProcessing w || (successfulCount w =? 0)%nat.

(** *** lib/db.ts, reading *)

(** Ascending order of the keys of the object store. *)
Definition key_le (a b : StoredSong.t) : Prop :=
  String.leb (StoredSong.id a) (StoredSong.id b) = true.

Global Instance key_le_dec (a b : StoredSong.t) : Decision (key_le a b).
Proof. unfold key_le. apply _. Defined.

(** [store.getAll()]: every record, in ascending order of the keys. *)
Definition getAll (m : gmap string StoredSong.t) : list StoredSong.t :=
  merge_sort key_le (map_to_list m).*2.

(** The song built for a stored record by [getSongsFromDB]. *)
Definition toDisplaySong (s : StoredSong.t) : M Song.t :=
  audioSrc ← createObjectURL (StoredSong.audioFile s);
  coverArtSrc ← createObjectURL (StoredSong.coverArtFile s);
  mret {| Song.id := StoredSong.id s;
          Song.title := StoredSong.title s;
          Song.artist := StoredSong.artist s;
          Song.album := StoredSong.album s;
          Song.audioSrc := audioSrc;
          Song.coverArtSrc := coverArtSrc |}.

(** [getSongsFromDB]: one read-only transaction; the promise rejects
    with the error of [initDB] or of the request. *)
Definition getSongsFromDB (env : Env) : M (list Song.t) :=
  r ← ask (transactionError env);
  match r with
  | Some msg => throw RuntimeError msg
  | None =>
      storedSongs ← gets (λ w, getAll (db w));
      mapM toDisplaySong storedSongs
  end.

(** *** App.tsx, continued *)

Inductive UserRole := admin | user.

(** The state of [App] besides [songs]; [None] is the null role. *)
Record Shell := { userRole : option UserRole; isLoading : bool }.

(** [loadInitialSongs], run once when the application mounts. *)
Definition loadInitialSongs (env : Env) (sh : Shell) : M Shell :=
  try_catch
    (dbSongs ← getSongsFromDB env; setSongs (λ _, dbSongs))
    (λ e, consoleError "Failed to load songs from DB:" e) ;;
  mret {| userRole := userRole sh; isLoading := false |}.

Definition handleLogin (role : option UserRole) (sh : Shell) : Shell :=
  {| userRole := role; isLoading := isLoading sh |}.

Definition handleLogout (sh : Shell) : Shell :=
  {| userRole := None; isLoading := isLoading sh |}.

Inductive Screen :=
| LoadingView
| AdminDashboardView
| UserPlayerView
| LoginScreenView.

Definition renderContent (sh : Shell) : Screen :=
  if isLoading sh then LoadingView
  else
    match userRole sh with
    | Some admin => AdminDashboardView
    | Some user => UserPlayerView
    | None => LoginScreenView
    end.

(** *** UserPlayer.tsx *)

(** The part of the player state the transport handlers act on; the
    playback position, the duration and the volume are floating-point
    readings of the audio element and are left out. *)
Module Player.
Record t := { currentSongIndex : Z; isPlaying : bool; isMuted : bool }.
End Player.

(** [songs[index]] *)
Definition songAt (songs : list Song.t) (index : Z) : option Song.t :=
  if (index <? 0)%Z then None else songs !! Z.to_nat index.

(** [Array.prototype.findIndex]: the first index whose element satisfies
    the predicate, or -1. *)
Fixpoint findIndex {A} (p : A → bool) (l : list A) : Z :=
  match l with
  | [] => (-1)%Z
  | x :: l' =>
      if p x then 0%Z
      else let r := findIndex p l' in
           if (r =? -1)%Z then (-1)%Z else (r + 1)%Z
  end.

(** [playNext]; the remainder of JavaScript has the sign of the
    dividend. *)
Definition playNext (songs : list Song.t) (p : Player.t) : Player.t :=
  if (length songs =? 0)%nat then p
  else {| Player.currentSongIndex :=
            Z.rem (Player.currentSongIndex p + 1) (Z.of_nat (length songs));
          Player.isPlaying := true;
          Player.isMuted := Player.isMuted p |}.

Definition playPrev (songs : list Song.t) (p : Player.t) : Player.t :=
  if (length songs =? 0)%nat then p
  else {| Player.currentSongIndex :=
            Z.rem (Player.currentSongIndex p - 1 + Z.of_nat (length songs))
              (Z.of_nat (length songs));
          Player.isPlaying := true;
          Player.isMuted := Player.isMuted p |}.

Definition togglePlayPause (songs : list Song.t) (p : Player.t) : Player.t :=
  if (0 <? length songs)%nat
  then {| Player.currentSongIndex := Player.currentSongIndex p;
          Player.isPlaying := negb (Player.isPlaying p);
          Player.isMuted := Player.isMuted p |}
  else p.

Definition selectSong (index : Z) (p : Player.t) : Player.t :=
  {| Player.currentSongIndex := index;
     Player.isPlaying := true;
     Player.isMuted := Player.isMuted p |}.

(** The click on the row of [song] in the playlist: the row selects
    [songs.findIndex(s => s.id === song.id)]. *)
Definition clickSong (songs : list Song.t) (song : Song.t) (p : Player.t)
  : Player.t :=
  selectSong
    (findIndex (λ s, bool_decide (Song.id s = Song.id song)) songs) p.

(** The effect on [songs]: an empty library stops and rewinds the
    player. *)
Definition onSongsChange (songs : list Song.t) (p : Player.t) : Player.t :=
  if (length songs =? 0)%nat
  then {| Player.currentSongIndex := 0;
          Player.isPlaying := false;
          Player.isMuted := Player.isMuted p |}
  else p.

(** *** The first version of the application (App.tsx without store) *)

Module Legacy.

(** [addSongs] of that version: the songs are appended to the library
    in memory. *)
Definition addSongs (newSongs : list Song.t) : M unit :=
  setSongs (λ prevSongs, prevSongs ++ newSongs).

(** The song built for a success item by the dashboard of that version.
    The fields of the object literal are evaluated in order: the clock is
    read, then the details, then the two object URLs are created; a
    missing detail or cover art is a [TypeError] at that point. *)
Definition toSong (env : Env) (sf : StagedFile.t) : M Song.t :=
  iso ← ask (toISOString env);
  match StagedFile.songDetails sf with
  | None =>
      throw RuntimeError
        "Cannot read properties of undefined (reading 'title')"
  | Some d =>
      audioSrc ← createObjectURL (StagedFile.file sf);
      match StagedFile.coverArtFile sf with
      | None =>
          throw RuntimeError
            "Failed to execute 'createObjectURL' on 'URL': Overload resolution failed."
      | Some c =>
          coverArtSrc ← createObjectURL c;
          mret {| Song.id := iso +:+ "-" +:+ SongDetails.title d;
                  Song.title := SongDetails.title d;
                  Song.artist := SongDetails.artist d;
                  Song.album := SongDetails.album d;
                  Song.audioSrc := audioSrc;
                  Song.coverArtSrc := coverArtSrc |}
      end
  end.

Definition handleAddSongsToLibrary (env : Env) : M unit :=
  staged ← gets stagedFiles;
  let successfulFiles :=
    filter (λ sf, StagedFile.status sf = success) staged in
  if decide (length successfulFiles = 0%nat) then mret tt
  else
    newSongs ← mapM (toSong env) successfulFiles;
    addSongs newSongs ;;
    setStagedFiles (λ _, []).

End Legacy.

(** ** Predicates and scenarios for the rest of the program *)
(** ** Predicates of the further properties *)

(** What the interface can rely on for a staged item: a success item
    carries its details and its cover art, an error item a non-empty
    message. *)
Definition well_marked (sf : StagedFile.t) : Prop :=
  (StagedFile.status sf = success →
   is_Some (StagedFile.songDetails sf) ∧ is_Some (StagedFile.coverArtFile sf)) ∧
  (StagedFile.status sf = error →
   ∃ msg, StagedFile.error sf = Some msg ∧ is_empty msg = false).

(** A freshly staged item. *)
Definition is_fresh_item (sf : StagedFile.t) : Prop :=
  StagedFile.status sf = pending ∧ StagedFile.songDetails sf = None ∧
  StagedFile.coverArtFile sf = None ∧ StagedFile.error sf = None.

(** The id given to [file] when the random number generator answers
    [r]. *)
Definition stagedIdOf (file : File) (r : string) : string :=
  file_name file +:+ "-" +:+ pretty (lastModified file) +:+ "-" +:+ r.

(** The item staged for [file] when the random number generator answers
    [r]. *)
Definition stagedItemOf (file : File) (r : string) : StagedFile.t :=
  {| StagedFile.id := stagedIdOf file r;
     StagedFile.file := file;
     StagedFile.status := pending;
     StagedFile.songDetails := None;
     StagedFile.coverArtFile := None;
     StagedFile.error := None |}.

(** The error of the text extraction step of a run on [file] from
    world [w], if it fails: the model call is rejected, its answer does
    not parse, or the title or the artist is missing or empty. *)
Definition extraction_error (env : Env) (w : World) (file : File)
  : option Exn :=
  match generateContent env (tick w) (geminiPrompt (file_name file)) with
  | Rejected msg => Some {| exn_kind := RuntimeError; exn_message := msg |}
  | Resolved text =>
      match jsonParse env text with
      | Rejected msg =>
          Some {| exn_kind := RuntimeError; exn_message := msg |}
      | Resolved ex =>
          if truthy (ex_title ex) && truthy (ex_artist ex) then None
          else Some {| exn_kind := ExtractionError;
                       exn_message :=
                         "AI could not determine title and artist." |}
      end
  end.

(** The extraction of a run on [file] from world [w] yields [title] and
    [artist]. *)
Definition extraction_returns (env : Env) (w : World) (file : File)
    (title artist : string) : Prop :=
  ∃ text,
    generateContent env (tick w) (geminiPrompt (file_name file))
      = Resolved text ∧
    jsonParse env text
      = Resolved {| ex_title := Some title; ex_artist := Some artist |} ∧
    is_empty title = false ∧ is_empty artist = false.

(** The URL of the catalog search for an extraction. *)
Definition catalogUrlOf (env : Env) (title artist : string) : string :=
  itunesSearchUrl (encodeURIComponent env (artist +:+ " " +:+ title)).

(** The error of the catalog step, if it fails before a parsed answer:
    the request is rejected, the status is not 2xx, or the body does not
    parse. *)
Definition catalog_error (env : Env) (w : World) (title artist : string)
  : option Exn :=
  match fetch env (S (tick w)) (catalogUrlOf env title artist) with
  | Rejected msg => Some {| exn_kind := RuntimeError; exn_message := msg |}
  | Resolved resp =>
      if resp_ok resp then
        match resp_json resp with
        | Rejected msg =>
            Some {| exn_kind := RuntimeError; exn_message := msg |}
        | Resolved _ => None
        end
      else Some {| exn_kind := CatalogResponseError;
                   exn_message := "iTunes search failed." |}
  end.

(** The error of the artwork download from [url], asked as request
    [t], if it fails. *)
Definition artwork_error (env : Env) (t : nat) (url : string) : option Exn :=
  match fetch env t url with
  | Rejected msg => Some {| exn_kind := RuntimeError; exn_message := msg |}
  | Resolved resp =>
      if resp_ok resp then None
      else Some {| exn_kind := ArtworkFetchError;
                   exn_message := "Failed to download cover art." |}
  end.

(** *** Further scenarios *)

(** The model answers with an empty title. *)
Definition blankTitleEnv : Env :=
  {| generateContent := generateContent happyEnv;
     jsonParse := λ _,
       Resolved {| ex_title := Some EmptyString;
                   ex_artist := Some "The Beatles" |};
     encodeURIComponent := encodeURIComponent happyEnv;
     fetch := fetch happyEnv;
     toISOString := toISOString happyEnv;
     dateNow := dateNow happyEnv;
     mathRandom := mathRandom happyEnv;
     transactionError := transactionError happyEnv;
     transactionErrorEvent := transactionErrorEvent happyEnv |}.

(** The catalog answers every request with status 503. *)
Definition catalogDownEnv : Env :=
  {| generateContent := generateContent happyEnv;
     jsonParse := jsonParse happyEnv;
     encodeURIComponent := encodeURIComponent happyEnv;
     fetch := λ _ _,
       Resolved {| resp_status := 503; resp_json := Rejected "Unexpected token";
                   resp_blob := notFoundBlob |};
     toISOString := toISOString happyEnv;
     dateNow := dateNow happyEnv;
     mathRandom := mathRandom happyEnv;
     transactionError := transactionError happyEnv;
     transactionErrorEvent := transactionErrorEvent happyEnv |}.

(** The catalog announces one result and carries none. *)
Definition hollowEnv : Env :=
  scenarioEnv {| resultCount := 1; results := [] |} 200 coverBlob None.

(** What a handler of the single song form leaves alone: the title, the
    audio file and the submitting flag of the form, the store, the
    library and the bulk uploader. *)
Definition form_keeps (w w' : World) : Prop :=
  f_title (form w') = f_title (form w) ∧
  f_audioFile (form w') = f_audioFile (form w) ∧
  f_isSubmitting (form w') = f_isSubmitting (form w) ∧
  db w' = db w ∧ songs w' = songs w ∧ stagedFiles w' = stagedFiles w ∧
  isProcessing w' = isProcessing w ∧ processedCount w' = processedCount w.

(** [asks n m]: a run of [m] makes at most [n] fetches, sends nothing to
    the model, makes no store transaction, does not update the staged
    collection, and keeps what [form_keeps] lists. *)
Definition asks (n : nat) {A} (m : M A) : Prop :=
  ∀ w, ∃ evs,
    log (m w).2 = log w ++ evs ∧
    (length (fetched_urls evs) ≤ n)%nat ∧
    gemini_prompts evs = [] ∧ transactions evs = [] ∧
    staged_updates evs = [] ∧
    form_keeps w (m w).2.

(** The catalog request of [handleFetchInfo] from world [w] is answered
    with a 2xx response whose body parses to [data]; the title of the
    form is not empty. *)
Definition form_lookup_returns (env : Env) (w : World) (data : ItunesData)
  : Prop :=
  is_empty (f_title (form w)) = false ∧
  ∃ resp,
    fetch env (tick w)
      (itunesSearchUrl (encodeURIComponent env (f_title (form w))))
      = Resolved resp ∧
    resp_ok resp = true ∧ resp_json resp = Resolved data.

(** The message of [handleFetchInfo] for a search without result. *)
Definition noResultsMessage (title : string) : string :=
  "No results found for " +:+ dquote +:+ title +:+ dquote +:+ ".".

(** The message of the error of the artwork step of [handleFetchInfo]
    for the match [result], if the step throws: the match has no artwork
    URL, or the request is rejected. *)
Definition form_artwork_error (env : Env) (w : World) (result : ItunesResult)
  : option string :=
  match artworkUrl100 result with
  | None => Some "Cannot read properties of undefined (reading 'replace')"
  | Some url =>
      match fetch env (S (tick w)) (js_replace "100x100" "600x600" url) with
      | Rejected msg => Some msg
      | Resolved _ => None
      end
  end.

(** The registry of object URLs once the preview [p] is revoked. *)
Definition without_preview (p : option ObjectURL) (m : gmap nat File)
  : gmap nat File :=
  match p with
  | Some u => delete u m
  | None => m
  end.

(** The model extracts nothing; the form scenarios only use the catalog
    and the artwork host. *)
Definition typedWorld (title : string) : World :=
  with_form (typedForm title) initialWorld.

(** The form as [handleSubmit] leaves it after a submission. *)
Definition blankForm (isFetching : bool) : SingleForm :=
  {| f_title := EmptyString; f_artist := Some EmptyString;
     f_album := Some EmptyString; f_audioFile := None;
     f_coverArtFile := None; f_coverArtPreview := None;
     f_isFetching := isFetching; f_isSubmitting := false; f_error := None |}.

(** The events that revoke the preview [p]. *)
Definition preview_urls (p : option ObjectURL) : list ObjectURL :=
  match p with
  | Some u => [u]
  | None => []
  end.

(** A form filled for the song Yesterday, with the preview [p]. *)
Definition filledForm (p : option ObjectURL) : SingleForm :=
  {| f_title := "Yesterday"; f_artist := Some "The Beatles";
     f_album := Some "Help!";
     f_audioFile := Some (audioFile "Beatles - Yesterday.mp3");
     f_coverArtFile := Some coverFile; f_coverArtPreview := p;
     f_isFetching := false; f_isSubmitting := false; f_error := None |}.

(** A world whose form is filled and shows the preview 0 of its cover
    art. *)
Definition filledWorld : World :=
  with_objectURLs {[ 0%nat := coverFile ]}
    (with_form (filledForm (Some 0%nat)) initialWorld).

(** The object URLs of the song [s] are live in the registry [m] and
    name the files [audio] and [cover]. *)
Definition bound (m : gmap nat File) (s : Song.t) (audio cover : File)
  : Prop :=
  m !! Song.audioSrc s = Some audio ∧ m !! Song.coverArtSrc s = Some cover.

(** The song [s] shows the data [d] and plays its files. *)
Definition plays (m : gmap nat File) (d : SongData.t) (s : Song.t) : Prop :=
  Song.title s = SongData.title d ∧ Song.artist s = SongData.artist d ∧
  Song.album s = SongData.album d ∧
  bound m s (SongData.audioFile d) (SongData.coverArtFile d).

(** Every record of the store sits under its own [id], as the key path
    of the object store has it. *)
Definition keyed (m : gmap string StoredSong.t) : Prop :=
  ∀ k r, m !! k = Some r → StoredSong.id r = k.

(** The last record of [rs] whose id is [k]. *)
Definition last_with_id (k : string) (rs : list StoredSong.t)
  : option StoredSong.t :=
  last (filter (λ r, StoredSong.id r = k) rs).

(** The song [s] shows the stored record [r] and plays its files. *)
Definition shows (m : gmap nat File) (r : StoredSong.t) (s : Song.t) : Prop :=
  displays r s ∧ bound m s (StoredSong.audioFile r) (StoredSong.coverArtFile r).

(** A record of the song Yesterday, a store that holds it, and the state
    of [App] while the library loads. *)
Definition yesterdayRecord : StoredSong.t :=
  storedSongOf "2024-05-01T10:00:00.000Z" yesterdayData.

Definition storedWorld : World :=
  with_db {[ StoredSong.id yesterdayRecord := yesterdayRecord ]} initialWorld.

Definition mountingShell : Shell := {| userRole := None; isLoading := true |}.

(** The song [s] shows the details of the staged item [sf] and plays its
    audio file and its cover art. *)
Definition stagedShows (m : gmap nat File) (sf : StagedFile.t) (s : Song.t)
  : Prop :=
  ∃ d c,
    StagedFile.songDetails sf = Some d ∧ StagedFile.coverArtFile sf = Some c ∧
    Song.title s = SongDetails.title d ∧
    Song.artist s = SongDetails.artist d ∧
    Song.album s = SongDetails.album d ∧
    bound m s (StagedFile.file sf) c.

(** Two songs of a library, and a player stopped on the second. *)
Definition yesterdaySong : Song.t :=
  {| Song.id := "2024-05-01T10:00:00.000Z-Yesterday";
     Song.title := "Yesterday"; Song.artist := "The Beatles";
     Song.album := "Help!"; Song.audioSrc := 0%nat; Song.coverArtSrc := 1%nat |}.

Definition helpSong : Song.t :=
  {| Song.id := "2024-05-01T10:00:01.000Z-Help!";
     Song.title := "Help!"; Song.artist := "The Beatles";
     Song.album := "Help!"; Song.audioSrc := 2%nat; Song.coverArtSrc := 3%nat |}.

Definition stoppedPlayer : Player.t :=
  {| Player.currentSongIndex := 1; Player.isPlaying := false;
     Player.isMuted := false |}.

(** The player points to a song of the library, or the library is empty
    and the player is stopped on row 0. *)
Definition in_range (songs : list Song.t) (p : Player.t) : Prop :=
  (songs = [] ∧ Player.currentSongIndex p = 0%Z ∧ Player.isPlaying p = false) ∨
  (0 ≤ Player.currentSongIndex p < Z.of_nat (length songs))%Z.

(** The player as [UserPlayer] mounts it. *)
Definition initialPlayer : Player.t :=
  {| Player.currentSongIndex := 0; Player.isPlaying := false;
     Player.isMuted := false |}.

(** ** Proof tactics *)

Ltac unfold_monad :=
  unfold callGenerateContent, callFetch, newFile, first_result, emit, ask,
    lift, modify, gets, throw, try_catch, try_finally, consoleError,
    setStagedFiles, setProcessedCount, setIsProcessing, setSongs,
    mbind, M_bind, mret, M_ret in *.

Ltac log_norm := rewrite <- ?app_assoc; cbn [app].

(** ** Properties of the string functions *)

Lemma append_nil_l (s : string) : EmptyString +:+ s = s.
Proof. reflexivity. Qed.

Lemma append_cons (c : ascii) (s t : string) :
  String c s +:+ t = String c (s +:+ t).
Proof. reflexivity. Qed.

Local Ltac str_simpl := rewrite ?append_nil_l, ?append_cons in *.

Lemma strip_prefix_Some (p s rest : string) :
  strip_prefix p s = Some rest ↔ s = p +:+ rest.
Proof.
  revert s. induction p as [|a p IH]; intros s; cbn [strip_prefix]; str_simpl.
  - split; congruence.
  - destruct s as [|b s]; [split; discriminate|].
    destruct (Ascii.eqb_spec a b) as [->|Hne].
    + rewrite IH. split; [intros ->; reflexivity | congruence].
    + split; [discriminate | intros [=]; congruence].
Qed.

(** A string without occurrence of the pattern is returned as it is. *)
Lemma js_replace_absent (pat rep s : string) :
  includes pat s = false → js_replace pat rep s = s.
Proof.
  induction s as [|c s IH]; cbn [includes js_replace].
  - destruct (strip_prefix pat EmptyString); [discriminate | reflexivity].
  - destruct (strip_prefix pat (String c s)); [discriminate|].
    intros H. rewrite IH; auto.
Qed.

(** Otherwise the leftmost occurrence is the one replaced. *)
Lemma js_replace_leftmost (pat rep s : string) :
  includes pat s = true →
  ∃ pre post,
    s = pre +:+ pat +:+ post ∧
    js_replace pat rep s = pre +:+ rep +:+ post ∧
    ∀ pre' post', s = pre' +:+ pat +:+ post' →
      (String.length pre ≤ String.length pre')%nat.
Proof.
  induction s as [|c s IH]; cbn [includes js_replace].
  - destruct (strip_prefix pat EmptyString) as [rest|] eqn:E; [|discriminate].
    intros _. exists EmptyString, rest. apply strip_prefix_Some in E.
    str_simpl. repeat split; auto. intros; simpl; lia.
  - destruct (strip_prefix pat (String c s)) as [rest|] eqn:E.
    + intros _. exists EmptyString, rest. apply strip_prefix_Some in E.
      str_simpl. repeat split; auto. intros; simpl; lia.
    + intros H. destruct (IH H) as (pre & post & Hs & Hr & Hmin).
      exists (String c pre), post. rewrite Hr. str_simpl.
      repeat split; [congruence|].
      intros [|c' pre'] post' Heq; str_simpl.
      * apply strip_prefix_Some in Heq. congruence.
      * injection Heq as -> Heq. apply Hmin in Heq. simpl. lia.
Qed.

(** With a non-empty pattern and a non-empty replacement, the result is
    empty exactly when the subject is. *)
Lemma js_replace_empty (pat rep s : string) :
  is_empty pat = false → is_empty rep = false →
  is_empty (js_replace pat rep s) = is_empty s.
Proof.
  intros Hpat Hrep. destruct s as [|c s]; cbn [js_replace].
  - destruct pat; [discriminate | reflexivity].
  - destruct (strip_prefix pat (String c s)); [|reflexivity].
    destruct rep; [discriminate | reflexivity].
Qed.

(** ** Runs of the pipeline *)

Section Runs.

Variable env : Env.

Lemma frame_refl (w : World) : frame w w.
Proof. by repeat split. Qed.

Lemma frame_trans (w1 w2 w3 : World) :
  frame w1 w2 → frame w2 w3 → frame w1 w3.
Proof.
  intros (?&?&?&?&?&?&?) (?&?&?&?&?&?&?). repeat split; congruence.
Qed.

Lemma talks_silent {A} (P : Event → Prop) (m : M A) :
  (∀ w, log (m w).2 = log w ∧ frame w (m w).2) → talks P m.
Proof.
  intros H w. destruct (H w) as [Hl Hf]. exists [].
  by rewrite app_nil_r.
Qed.

Lemma talks_ret {A} (P : Event → Prop) (a : A) : talks P (mret a).
Proof. apply talks_silent. intros w. split; [done|apply frame_refl]. Qed.

Lemma talks_throw {A} (P : Event → Prop) (k : ErrorKind) (msg : string) :
  talks P (@throw A k msg).
Proof. apply talks_silent. intros w. split; [done|apply frame_refl]. Qed.

Lemma talks_lift {A} (P : Event → Prop) (r : Reply A) : talks P (lift r).
Proof.
  apply talks_silent. intros w. unfold lift.
  destruct r; (split; [done|apply frame_refl]).
Qed.

Lemma talks_ask {A} (P : Event → Prop) (oracle : nat → A) :
  talks P (ask oracle).
Proof. apply talks_silent. intros w. by repeat split. Qed.

Lemma talks_emit (P : Event → Prop) (e : Event) : P e → talks P (emit e).
Proof.
  intros He w. exists [e]. split; [done|]. split; [by constructor|].
  by repeat split.
Qed.

Lemma talks_bind {A B} (P : Event → Prop) (m : M A) (f : A → M B) :
  talks P m → (∀ a, talks P (f a)) → talks P (m ≫= f).
Proof.
  intros Hm Hf w. unfold mbind, M_bind.
  destruct (Hm w) as (evs & Hl & Hp & Hfr).
  destruct (m w) as [[a|e|] w1]; cbn in *.
  - destruct (Hf a w1) as (evs' & Hl' & Hp' & Hfr').
    exists (evs ++ evs'). split; [rewrite Hl', Hl; by rewrite app_assoc|].
    split; [by apply Forall_app|]. by eapply frame_trans.
  - by exists evs.
  - by exists evs.
Qed.

Lemma talks_callFetch (url : string) : talks is_fetch (callFetch env url).
Proof.
  unfold callFetch. apply talks_bind; [by apply talks_emit|intros _].
  apply talks_bind; [apply talks_ask|intros r]. apply talks_lift.
Qed.

(** A run of [processFile] sends the prompt of the file, then only
    fetches, and changes nothing else. *)
Lemma processFile_run (file : File) (w : World) :
  ∃ evs,
    log (processFile env file w).2
      = log w ++ EvGenerateContent (geminiPrompt (file_name file)) :: evs ∧
    Forall is_fetch evs ∧
    frame w (processFile env file w).2.
Proof.
  unfold processFile.
  set (k := λ text : string, _).
  assert (Hk : ∀ text, talks is_fetch (k text)).
  { intros text. subst k. cbn beta.
    unfold processFile_resolve, newFile, first_result.
    repeat first
      [ apply talks_callFetch
      | apply talks_bind; [|intros ?]
      | apply talks_ask
      | apply talks_lift
      | apply talks_throw
      | apply talks_ret
      | case_match ]. }
  clearbody k. unfold callGenerateContent, emit, ask, modify, lift.
  unfold mbind, M_bind. cbn.
  destruct (generateContent env (tick w) (geminiPrompt (file_name file)))
    as [text|msg]; cbn.
  - destruct (Hk text (with_tick (S (tick w))
        (with_log (log w ++ [EvGenerateContent (geminiPrompt (file_name file))]) w)))
      as (evs & Hl & Hp & Hfr).
    exists evs. rewrite Hl. cbn. split; [by log_norm|]. split; [done|].
    eapply frame_trans; [|exact Hfr]. by repeat split.
  - exists []. by repeat split.
Qed.

Lemma tick_local_ret {A} (a : A) : tick_local (mret a).
Proof. by intros w1 w2 Ht. Qed.

Lemma tick_local_bind {A B} (m : M A) (f : A → M B) :
  tick_local m → (∀ a, tick_local (f a)) → tick_local (m ≫= f).
Proof.
  intros Hm Hf w1 w2 Ht. unfold mbind, M_bind.
  destruct (Hm w1 w2 Ht) as [Ho Ht'].
  destruct (m w1) as [[a|e|] w1'], (m w2) as [[a'|e'|] w2']; simplify_eq/=.
  - by apply Hf.
  - done.
  - done.
Qed.

Lemma tick_local_throw {A} (k : ErrorKind) (msg : string) :
  tick_local (@throw A k msg).
Proof. by intros w1 w2 Ht. Qed.

Lemma tick_local_lift {A} (r : Reply A) : tick_local (lift r).
Proof. intros w1 w2 Ht. unfold lift. by destruct r. Qed.

Lemma tick_local_emit (e : Event) : tick_local (emit e).
Proof. by intros w1 w2 Ht. Qed.

Lemma tick_local_ask {A} (oracle : nat → A) : tick_local (ask oracle).
Proof. intros w1 w2 Ht. unfold ask. cbn. by rewrite Ht. Qed.

Lemma tick_local_callFetch (url : string) : tick_local (callFetch env url).
Proof.
  unfold callFetch. apply tick_local_bind; [apply tick_local_emit|intros _].
  apply tick_local_bind; [apply tick_local_ask|intros r].
  apply tick_local_lift.
Qed.

(** The outcome of [processFile] is decided by the environment from the
    current tick on; the state of the components plays no part. *)
Lemma processFile_tick_local (file : File) : tick_local (processFile env file).
Proof.
  unfold processFile, processFile_resolve, callGenerateContent, newFile,
    first_result.
  repeat first
    [ apply tick_local_bind; [|intros ?]
    | apply tick_local_callFetch
    | apply tick_local_emit
    | apply tick_local_ask
    | apply tick_local_lift
    | apply tick_local_throw
    | apply tick_local_ret
    | case_match ].
Qed.

Lemma settles_ret {A} (a : A) : settles (mret a).
Proof. by intros w. Qed.

Lemma settles_throw {A} (k : ErrorKind) (msg : string) :
  settles (@throw A k msg).
Proof. by intros w. Qed.

Lemma settles_lift {A} (r : Reply A) : settles (lift r).
Proof. intros w. unfold lift. by destruct r. Qed.

Lemma settles_ask {A} (oracle : nat → A) : settles (ask oracle).
Proof. by intros w. Qed.

Lemma settles_modify (f : World → World) : settles (modify f).
Proof. by intros w. Qed.

Lemma settles_gets {A} (f : World → A) : settles (gets f).
Proof. by intros w. Qed.

Lemma settles_bind {A B} (m : M A) (f : A → M B) :
  settles m → (∀ a, settles (f a)) → settles (m ≫= f).
Proof.
  intros Hm Hf w. unfold mbind, M_bind. specialize (Hm w).
  destruct (m w) as [[a|e|] w1]; cbn in *; [apply Hf|done|done].
Qed.

Lemma settles_try_catch {A} (m : M A) (h : Exn → M A) :
  settles m → (∀ e, settles (h e)) → settles (try_catch m h).
Proof.
  intros Hm Hh w. unfold try_catch. specialize (Hm w).
  destruct (m w) as [[a|e|] w1]; cbn in *; [done|apply Hh|done].
Qed.

Lemma settles_try_finally {A} (m : M A) (final : M unit) :
  settles m → settles final → settles (try_finally m final).
Proof.
  intros Hm Hf w. unfold try_finally. specialize (Hm w).
  destruct (m w) as [[a|e|] w1]; cbn in *; [| |done];
    specialize (Hf w1); by destruct (final w1) as [[[]|e'|] w2].
Qed.

Lemma settles_callFetch (url : string) : settles (callFetch env url).
Proof.
  unfold callFetch, emit.
  apply settles_bind; [apply settles_modify|intros _].
  apply settles_bind; [apply settles_ask|intros r]. apply settles_lift.
Qed.

(** [processFile] awaits the collaborators only, whose promises settle. *)
Lemma processFile_settles (file : File) : settles (processFile env file).
Proof.
  unfold processFile, processFile_resolve, callGenerateContent, newFile,
    first_result, emit.
  repeat first
    [ apply settles_bind; [|intros ?]
    | apply settles_callFetch
    | apply settles_modify
    | apply settles_ask
    | apply settles_lift
    | apply settles_throw
    | apply settles_ret
    | case_match ].
Qed.

Lemma processFile_outcome (file : File) (w1 w2 : World) :
  tick w1 = tick w2 →
  (processFile env file w1).1 = (processFile env file w2).1.
Proof. intros Ht. by apply processFile_tick_local. Qed.

(** An item of the snapshot that is not pending is counted and skipped. *)
Lemma processQueueItem_skip (sf : StagedFile.t) (c : nat) (w : World) :
  StagedFile.status sf ≠ pending →
  processQueueItem env sf c w = (Ok (S c), with_processedCount (S c) w).
Proof.
  intros H. unfold processQueueItem. rewrite decide_True by done.
  reflexivity.
Qed.

(** A pending item of the snapshot is marked processing, attempted, and
    marked with the outcome of the attempt; the loop goes on in both
    cases. *)
Lemma processQueueItem_pending (sf : StagedFile.t) (c : nat) (w : World) :
  StagedFile.status sf = pending →
  let w' := (processQueueItem env sf c w).2 in
  let o := (processFile env (StagedFile.file sf) w).1 in
  let st1 := updateById (StagedFile.id sf) markProcessing (stagedFiles w) in
  let st2 := updateById (StagedFile.id sf) (finish o) st1 in
  (processQueueItem env sf c w).1 = Ok (S c) ∧
  stagedFiles w' = st2 ∧
  (∃ mid,
     log w' = log w ++ EvSetStagedFiles st1
                :: EvGenerateContent (prompt_of sf)
                :: mid ++ [EvSetStagedFiles st2] ∧
     Forall is_quiet mid) ∧
  processedCount w' = S c ∧
  objectURLs w' = objectURLs w ∧ db w' = db w ∧ songs w' = songs w ∧
  isProcessing w' = isProcessing w ∧ form w' = form w.
Proof.
  intros Hp. cbn zeta. unfold processQueueItem.
  rewrite decide_False by (rewrite Hp; auto).
  unfold_monad. cbn.
  set (w1 := with_log _ _).
  pose proof (processFile_outcome (StagedFile.file sf) w1 w eq_refl) as Ho.
  destruct (processFile_run (StagedFile.file sf) w1)
    as (evs & Hlog & Hevs & Hfr).
  rewrite <- Ho.
  pose proof (processFile_settles (StagedFile.file sf) w1) as Hs.
  destruct (processFile env (StagedFile.file sf) w1) as [[r|e|] w2];
    [| |done];
    cbn in *; destruct Hfr as (? & ? & ? & Hst & ? & ? & ?);
    rewrite Hst, Hlog; subst w1; cbn.
  - repeat split; try done.
    exists evs. split; [log_norm; reflexivity|].
    eapply Forall_impl; [exact Hevs|]. by intros [].
  - repeat split; try done.
    exists (evs ++ [EvConsoleError
      ("Failed to process " +:+ file_name (StagedFile.file sf) +:+ ":") e]).
    split; [log_norm; reflexivity|].
    apply Forall_app; split; [|by repeat constructor].
    eapply Forall_impl; [exact Hevs|]. by intros [].
Qed.

(** *** Observations on quiet events *)

Lemma gemini_prompts_quiet (l : list Event) :
  Forall is_quiet l → gemini_prompts l = [].
Proof.
  induction 1 as [|e l He _ IH]; [done|].
  unfold gemini_prompts in *. cbn. rewrite IH. by destruct e.
Qed.

Lemma staged_updates_quiet (l : list Event) :
  Forall is_quiet l → staged_updates l = [].
Proof.
  induction 1 as [|e l He _ IH]; [done|].
  unfold staged_updates in *. cbn. rewrite IH. by destruct e.
Qed.

Lemma gemini_prompts_app (l1 l2 : list Event) :
  gemini_prompts (l1 ++ l2) = gemini_prompts l1 ++ gemini_prompts l2.
Proof. apply omap_app. Qed.

Lemma staged_updates_app (l1 l2 : list Event) :
  staged_updates (l1 ++ l2) = staged_updates l1 ++ staged_updates l2.
Proof. apply omap_app. Qed.

Lemma gemini_prompts_cons (e : Event) (l : list Event) :
  gemini_prompts (e :: l) =
  match e with
  | EvGenerateContent p => p :: gemini_prompts l
  | _ => gemini_prompts l
  end.
Proof. by destruct e. Qed.

Lemma staged_updates_cons (e : Event) (l : list Event) :
  staged_updates (e :: l) =
  match e with
  | EvSetStagedFiles s => s :: staged_updates l
  | _ => staged_updates l
  end.
Proof. by destruct e. Qed.

Lemma events_since_app (w w' : World) (evs : list Event) :
  log w' = log w ++ evs → events_since w w' = evs.
Proof. intros H. unfold events_since. rewrite H. apply drop_app_length. Qed.

(** *** The loop of [handleProcessQueue] *)

(** The loop attempts the pending items of the snapshot, in order, and no
    other; it always runs to its end. *)
Lemma processQueueLoop_run (rest : list StagedFile.t) (c : nat) (w : World) :
  let w' := (processQueueLoop env rest c w).2 in
  (processQueueLoop env rest c w).1 = Ok (c + length rest)%nat ∧
  (∃ evs,
     log w' = log w ++ evs ∧
     gemini_prompts evs = prompt_of <$> filter is_pending rest) ∧
  (rest ≠ [] → processedCount w' = (c + length rest)%nat) ∧
  objectURLs w' = objectURLs w ∧ db w' = db w ∧ songs w' = songs w ∧
  isProcessing w' = isProcessing w ∧ form w' = form w.
Proof.
  revert c w. induction rest as [|sf rest IH]; intros c w; cbn zeta.
  - cbn. rewrite Nat.add_0_r. repeat split; try done.
    exists []. by rewrite app_nil_r.
  - cbn [processQueueLoop]. unfold mbind, M_bind.
    destruct (decide (is_pending sf)) as [Hp|Hp].
    + destruct (processQueueItem_pending sf c w Hp)
        as (Ho & _ & (mid & Hlog & Hmid) & Hc & ? & ? & ? & ? & ?).
      destruct (processQueueItem env sf c w) as [o w1]. cbn in Ho, Hlog, Hc.
      subst o. cbn in *.
      destruct (IH (S c) w1) as (Ho' & (evs & Hlog' & Hg) & Hc' & ? & ? & ? & ? & ?).
      rewrite Ho'. repeat split; try congruence.
      * f_equal. lia.
      * eexists. split; [rewrite Hlog', Hlog; log_norm; reflexivity|].
        rewrite decide_True by done.
        rewrite !gemini_prompts_cons, !gemini_prompts_app.
        rewrite gemini_prompts_quiet by done. cbn. by rewrite Hg.
      * intros _. destruct rest as [|sf' rest'].
        -- cbn. cbn in Hc. rewrite Hc. lia.
        -- rewrite Hc' by done. cbn. lia.
    + rewrite (processQueueItem_skip sf c w Hp).
      destruct (IH (S c) (with_processedCount (S c) w))
        as (Ho' & (evs & Hlog' & Hg) & Hc' & ? & ? & ? & ? & ?).
      rewrite Ho'. repeat split; try done.
      * f_equal. cbn. lia.
      * exists evs. split; [done|]. by rewrite filter_cons_False.
      * intros _. destruct rest as [|sf' rest'].
        -- cbn. lia.
        -- rewrite Hc' by done. cbn. lia.
Qed.

Lemma handleProcessQueue_eq (w : World) :
  handleProcessQueue env w =
  (Ok tt,
   with_isProcessing false
     (processQueueLoop env (stagedFiles w) 0
        (with_processedCount 0 (with_isProcessing true w))).2).
Proof.
  unfold handleProcessQueue, gets, setIsProcessing, setProcessedCount, modify.
  unfold mbind, M_bind. cbn.
  set (w1 := with_processedCount 0 (with_isProcessing true w)).
  destruct (processQueueLoop_run (stagedFiles w) 0 w1) as [Ho _].
  destruct (processQueueLoop env (stagedFiles w) 0 w1) as [o w2].
  cbn in Ho. by subst o.
Qed.

End Runs.

(** *** Updates by id *)

Lemma Forall2_chain {A} (R1 R2 R3 : A → A → Prop) (l1 l2 l3 : list A) :
  (∀ a b c, R1 a b → R2 b c → R3 a c) →
  Forall2 R1 l1 l2 → Forall2 R2 l2 l3 → Forall2 R3 l1 l3.
Proof.
  intros HR H12. revert l3.
  induction H12 as [|a b l1 l2 Hab _ IH]; intros l3 H23.
  - inversion H23. constructor.
  - inversion H23 as [|? c ? l3' Hbc H23']; subst.
    constructor; eauto.
Qed.

Lemma Forall2_updateById (R : StagedFile.t → StagedFile.t → Prop)
    (x : string) (upd : StagedFile.t → StagedFile.t) (st : list StagedFile.t) :
  Forall (λ a, R a (if decide (StagedFile.id a = x) then upd a else a)) st →
  Forall2 R st (updateById x upd st).
Proof.
  intros H. unfold updateById. apply Forall2_fmap_r.
  apply Forall_Forall2_diag. exact H.
Qed.

Lemma finish_status (o : Outcome (SongDetails.t * File)) (a : StagedFile.t) :
  o ≠ Unsettled →
  StagedFile.id (finish o a) = StagedFile.id a ∧
  StagedFile.file (finish o a) = StagedFile.file a ∧
  is_terminal (finish o a).
Proof. intros Ho. destruct o; cbn; unfold is_terminal; cbn; auto. done. Qed.

(** The two updates of an attempt on the item [x], taken together: the
    items with this id end in a terminal state, the others are as they
    were. *)
Lemma attempt_updates (x : string) (o : Outcome (SongDetails.t * File))
    (st : list StagedFile.t) :
  o ≠ Unsettled →
  Forall2
    (λ a b, StagedFile.id b = StagedFile.id a ∧
            (StagedFile.id a = x → is_terminal b) ∧
            (StagedFile.id a ≠ x → b = a))
    st (updateById x (finish o) (updateById x markProcessing st)).
Proof.
  intros Ho.
  unfold updateById. rewrite <- list_fmap_compose.
  apply Forall2_fmap_r, Forall_Forall2_diag, Forall_forall.
  intros a _. cbn. destruct (decide (StagedFile.id a = x)) as [Hx|Hx]; cbn.
  - rewrite decide_True by done.
    destruct (finish_status o (markProcessing a) Ho) as (Hid & _ & Ht).
    split; [by rewrite Hid|]. split; [done|]. congruence.
  - rewrite decide_False by done. split; [done|]. split; [done|done].
Qed.

Section Loop.

Variable env : Env.

(** After the loop over pending items [rest], the items of the state
    whose id is the id of an item of [rest] are in a terminal state, and
    the status of the others has not changed. *)
Lemma processQueueLoop_terminal (rest : list StagedFile.t) (c : nat)
    (w : World) :
  Forall is_pending rest →
  Forall2
    (λ a b, StagedFile.id b = StagedFile.id a ∧
            (StagedFile.id a ∈ StagedFile.id <$> rest → is_terminal b) ∧
            (StagedFile.id a ∉ StagedFile.id <$> rest →
             StagedFile.status b = StagedFile.status a))
    (stagedFiles w) (stagedFiles (processQueueLoop env rest c w).2).
Proof.
  revert c w. induction rest as [|sf rest IH]; intros c w Hall.
  - cbn. apply Forall_Forall2_diag, Forall_forall. intros a _.
    split; [done|]. split; [|done]. by intros ?%elem_of_nil.
  - apply Forall_cons in Hall as [Hp Hall].
    cbn [processQueueLoop]. unfold mbind, M_bind.
    destruct (processQueueItem_pending env sf c w Hp) as (Ho & Hst & _).
    destruct (processQueueItem env sf c w) as [o w1]. cbn in Ho, Hst.
    subst o. cbn.
    eapply Forall2_chain;
      [|apply (attempt_updates (StagedFile.id sf)
                 (processFile env (StagedFile.file sf) w).1),
              processFile_settles
       |rewrite <- Hst; apply IH, Hall].
    cbn. intros a b d (Hid & Hx & Hne) (Hid' & Hin & Hnin).
    split; [congruence|]. rewrite Hid in *. split.
    + intros [Heq|Hr]%elem_of_cons.
      * destruct (decide (StagedFile.id a ∈ StagedFile.id <$> rest)) as [Hi|Hi];
          [by apply Hin|].
        unfold is_terminal. rewrite (Hnin Hi). by apply Hx.
      * by apply Hin.
    + intros Hn%not_elem_of_cons. destruct Hn as [Hn1 Hn2].
      rewrite (Hnin Hn2). by rewrite (Hne Hn1).
Qed.

Lemma agrees_self (st : list StagedFile.t) :
  NoDup (StagedFile.id <$> st) → agrees st st.
Proof.
  intros Hnd a b Ha Hb Hid Hp.
  apply list_elem_of_lookup in Ha as [i Hi], Hb as [j Hj].
  assert (i = j) as ->.
  { eapply NoDup_lookup; [exact Hnd| |];
      rewrite list_lookup_fmap; [by rewrite Hi|by rewrite Hj, Hid]. }
  congruence.
Qed.

Lemma last_cons_default {A} (x : A) (l : list A) (d : A) :
  default d (last (x :: l)) = default x (last l).
Proof. destruct l as [|y l]; [done|]. by rewrite last_cons_cons;
  destruct (last (y :: l)) eqn:E; [|by apply last_None in E]. Qed.

(** Every update the loop makes moves items forward in place, and the
    updates account for the final state. *)
Lemma processQueueLoop_history (rest : list StagedFile.t) (c : nat)
    (w : World) :
  NoDup (StagedFile.id <$> rest) → agrees rest (stagedFiles w) →
  let w' := (processQueueLoop env rest c w).2 in
  ∃ evs,
    log w' = log w ++ evs ∧
    lawful_history (stagedFiles w) (staged_updates evs) ∧
    stagedFiles w' = default (stagedFiles w) (last (staged_updates evs)).
Proof.
  revert c w. induction rest as [|sf rest IH]; intros c w Hnd Hag; cbn zeta.
  - exists []. cbn. by rewrite app_nil_r.
  - cbn [processQueueLoop]. unfold mbind, M_bind.
    cbn in Hnd. apply NoDup_cons in Hnd as [Hfresh Hnd].
    destruct (decide (is_pending sf)) as [Hp|Hp].
    + destruct (processQueueItem_pending env sf c w Hp)
        as (Ho & Hst & (mid & Hlog & Hmid) & _).
      destruct (processQueueItem env sf c w) as [o w1]. cbn in Ho, Hst, Hlog.
      subst o. cbn.
      set (st1 := updateById (StagedFile.id sf) markProcessing (stagedFiles w)) in *.
      set (o := (processFile env (StagedFile.file sf) w).1) in *.
      assert (Hset : o ≠ Unsettled) by apply processFile_settles.
      assert (Hag1 : agrees rest (stagedFiles w1)).
      { intros a b Ha Hb Hid Hpb. rewrite Hst in Ha.
        pose proof (attempt_updates (StagedFile.id sf) o (stagedFiles w) Hset)
          as HF.
        apply list_elem_of_lookup in Ha as [i Hi].
        destruct (Forall2_lookup_r _ _ _ _ _ HF Hi) as (a0 & Hi0 & Hid0 & _ & Hsame).
        assert (StagedFile.id a0 ≠ StagedFile.id sf) as Hne.
        { intros Heq. apply Hfresh. rewrite <- Heq, <- Hid0, Hid.
          apply list_elem_of_fmap. eauto. }
        rewrite (Hsame Hne). eapply (Hag a0 b); eauto.
        - eapply list_elem_of_lookup_2; eauto.
        - by apply elem_of_cons; right.
        - by rewrite <- Hid0. }
      destruct (IH (S c) w1 Hnd Hag1) as (evs & Hlog' & Hlaw & Hlast).
      eexists. split; [rewrite Hlog', Hlog; log_norm; reflexivity|].
      rewrite !staged_updates_cons, !staged_updates_app.
      rewrite staged_updates_quiet by done.
      rewrite staged_updates_cons. cbn [app staged_updates omap].
      fold (staged_updates evs). rewrite <- Hst.
      split; [|by rewrite !last_cons_default].
      cbn [lawful_history]. split; [|split; [|done]]; left.
      * apply Forall2_updateById, Forall_forall. intros a Ha.
        case_decide as Hid; [|by repeat split; constructor].
        repeat split; cbn.
        assert (is_pending a) as ->; [|constructor].
        eapply (Hag a sf); eauto. by apply elem_of_cons; left.
      * rewrite Hst. apply Forall2_updateById, Forall_forall. intros a Ha.
        case_decide as Hid; [|by repeat split; constructor].
        destruct (finish_status o a Hset) as (? & ? & Hterm).
        repeat split; try done.
        subst st1. unfold updateById in Ha.
        apply list_elem_of_fmap in Ha as (a0 & -> & _).
        case_decide as Hid0; [|by destruct Hid0].
        destruct o as [r|e|]; [| |done]; cbn; constructor.
    + rewrite (processQueueItem_skip env sf c w Hp). cbn.
      apply (IH (S c) (with_processedCount (S c) w) Hnd).
      intros a b Ha Hb. apply Hag; [done|]. by apply elem_of_cons; right.
Qed.

End Loop.

(** ** Runs of [addSongs] *)

Section AddSongs.

Variable env : Env.

Lemma prepareSong_run (data : SongData.t) (w : World) :
  ∃ u1 u2,
    u1 ≠ u2 ∧ objectURLs w !! u1 = None ∧ objectURLs w !! u2 = None ∧
    prepareSong env data w =
    (Ok (storedSongOf (toISOString env (tick w)) data,
         {| Song.id := toISOString env (tick w) +:+ "-" +:+ SongData.title data;
            Song.title := SongData.title data;
            Song.artist := SongData.artist data;
            Song.album := SongData.album data;
            Song.audioSrc := u1; Song.coverArtSrc := u2 |}),
     with_log (log w ++ [EvCreateObjectURL u1; EvCreateObjectURL u2])
       (with_objectURLs
          (<[u2 := SongData.coverArtFile data]>
             (<[u1 := SongData.audioFile data]> (objectURLs w)))
          (with_tick (S (tick w)) w))).
Proof.
  set (u1 := fresh (dom (objectURLs w))).
  set (u2 := fresh (dom (<[u1 := SongData.audioFile data]> (objectURLs w)))).
  exists u1, u2.
  assert (H1 : u1 ∉ dom (objectURLs w)) by apply is_fresh.
  assert (H2 : u2 ∉ dom (<[u1 := SongData.audioFile data]> (objectURLs w)))
    by apply is_fresh.
  rewrite dom_insert in H2.
  apply not_elem_of_union in H2 as [H2a H2b].
  apply not_elem_of_singleton in H2a.
  apply not_elem_of_dom in H1, H2b.
  repeat split; [congruence|done|done|].
  unfold prepareSong, createObjectURL, ask, mbind, M_bind, mret, M_ret.
  cbn. fold u1. fold u2. log_norm. reflexivity.
Qed.

Lemma mapM_cons_Ok {A B} (f : A → M B) (x : A) (l : list A) (w w1 w2 : World)
    (y : B) (ys : list B) :
  f x w = (Ok y, w1) → mapM f l w1 = (Ok ys, w2) →
  mapM f (x :: l) w = (Ok (y :: ys), w2).
Proof.
  intros H1 H2. cbn [mapM]. unfold mbind, M_bind. rewrite H1.
  by rewrite H2.
Qed.

Lemma forEach_cons_Ok {A} (f : A → M unit) (x : A) (l : list A)
    (w w1 : World) :
  f x w = (Ok tt, w1) → forEach (x :: l) f w = forEach l f w1.
Proof. intros H1. cbn [forEach]. unfold mbind, M_bind. by rewrite H1. Qed.

Lemma mapM_prepareSong_run (l : list SongData.t) (w : World) :
  ∃ display,
    let w' := (mapM (prepareSong env) l w).2 in
    (mapM (prepareSong env) l w).1
      = Ok (zip (recordsOf env (tick w) l) display) ∧
    Forall2 displays (recordsOf env (tick w) l) display ∧
    tick w' = (tick w + length l)%nat ∧
    log w' = log w ++ (EvCreateObjectURL <$> urls_of display) ∧
    (∀ u, u ∈ urls_of display → objectURLs w !! u = None) ∧
    (∀ k, k ∉ urls_of display → objectURLs w' !! k = objectURLs w !! k) ∧
    frame_io w w'.
Proof.
  revert w. induction l as [|data l IH]; intros w.
  - exists []. cbn. rewrite Nat.add_0_r, app_nil_r.
    repeat split; try done. by intros u ?%elem_of_nil.
  - destruct (prepareSong_run data w) as (u1 & u2 & Hne & Hu1 & Hu2 & Hrun).
    set (w1 := with_log _ _) in Hrun.
    destruct (IH w1) as (display & Ho & Hdisp & Ht & Hlog & Hfresh & Hkeep & Hfr).
    destruct (mapM (prepareSong env) l w1) as [o w2] eqn:E.
    cbn in Ho, Ht, Hlog, Hkeep, Hfr. subst o.
    eexists (_ :: display). rewrite (mapM_cons_Ok _ _ _ _ _ _ _ _ Hrun E).
    cbn -[recordsOf].
    assert (Hrec : recordsOf env (tick w) (data :: l) =
              storedSongOf (toISOString env (tick w)) data
              :: recordsOf env (S (tick w)) l).
    { unfold recordsOf. cbn. rewrite Nat.add_0_r. f_equal.
      apply imap_ext. intros i x _. cbn. do 2 f_equal. lia. }
    rewrite Hrec. split; [reflexivity|].
    split; [constructor; [by repeat split|exact Hdisp]|].
    split; [cbn in Ht; rewrite Ht; cbn; lia|].
    split; [rewrite Hlog; subst w1; cbn; by log_norm|].
    assert (Hin : ∀ u, u ∈ urls_of display → u ≠ u1 ∧ u ≠ u2 ∧
                       objectURLs w !! u = None).
    { intros u Hu. specialize (Hfresh u Hu). subst w1. cbn in Hfresh.
      apply lookup_insert_None in Hfresh as [Hfresh ?].
      apply lookup_insert_None in Hfresh as [? ?]. auto. }
    split.
    { intros u. cbn. rewrite !elem_of_cons.
      intros [->|[->|Hu]]; [done|done|]. by apply Hin. }
    split.
    { intros k. cbn. rewrite !not_elem_of_cons. intros (Hk1 & Hk2 & Hk).
      rewrite (Hkeep k Hk). subst w1. cbn.
      rewrite lookup_insert_ne by done. by rewrite lookup_insert_ne. }
    destruct Hfr as (? & ? & ? & ? & ? & ?). by repeat split.
Qed.

Lemma forEach_revokeSong_run (l : list Song.t) (w : World) :
  let w' := (forEach l revokeSong w).2 in
  (forEach l revokeSong w).1 = Ok tt ∧
  tick w' = tick w ∧
  log w' = log w ++ (EvRevokeObjectURL <$> urls_of l) ∧
  (∀ k, objectURLs w' !! k =
        if decide (k ∈ urls_of l) then None else objectURLs w !! k) ∧
  frame_io w w'.
Proof.
  revert w. induction l as [|song l IH]; intros w.
  - cbn. rewrite app_nil_r. by repeat split.
  - set (w1 := with_log
        (log w ++ [EvRevokeObjectURL (Song.audioSrc song);
                   EvRevokeObjectURL (Song.coverArtSrc song)])
        (with_objectURLs
           (delete (Song.coverArtSrc song)
              (delete (Song.audioSrc song) (objectURLs w))) w)).
    assert (Hrun : revokeSong song w = (Ok tt, w1)).
    { unfold revokeSong, revokeObjectURL, modify, mbind, M_bind. cbn.
      subst w1. by log_norm. }
    rewrite (forEach_cons_Ok _ _ _ _ _ Hrun).
    destruct (IH w1) as (Ho & Ht & Hlog & Hmap & Hfr).
    destruct (forEach l revokeSong w1) as [o w2]. cbn in Ho, Ht, Hlog, Hmap, Hfr.
    subst o. cbn. repeat split; try done.
    + rewrite Hlog. subst w1. cbn. by log_norm.
    + intros k. rewrite (Hmap k). subst w1. cbn. rewrite !lookup_delete.
      repeat case_decide; try done; exfalso;
        repeat match goal with
        | H : _ ∈ _ :: _ |- _ => apply elem_of_cons in H as [?|?]
        | H : _ ∉ _ :: _ |- _ => apply not_elem_of_cons in H as [? ?]
        end; first [congruence | unfold urls_of in *; contradiction].
    + by destruct Hfr as (? & ? & ? & ? & ? & ?).
    + by destruct Hfr as (? & ? & ? & ? & ? & ?).
    + by destruct Hfr as (? & ? & ? & ? & ? & ?).
    + by destruct Hfr as (? & ? & ? & ? & ? & ?).
    + by destruct Hfr as (? & ? & ? & ? & ? & ?).
    + by destruct Hfr as (? & ? & ? & ? & ? & ?).
Qed.

Lemma addSongs_unfold (l : list SongData.t) (w w1 : World)
    (prepared : list (StoredSong.t * Song.t)) :
  mapM (prepareSong env) l w = (Ok prepared, w1) →
  addSongs env l w =
  try_catch
    (addSongsToDB env prepared.*1 ;;
     setSongs (λ prevSongs, prevSongs ++ prepared.*2))
    (λ e,
     consoleError "Failed to save songs to DB:" e ;;
     forEach prepared.*2 revokeSong) w1.
Proof. intros H. unfold addSongs, mbind at 1, M_bind at 1. by rewrite H. Qed.

(** [addSongs] reads the clock once per song, then asks the store once.
    It returns when the promise of the store settles: a failed write that
    rejects is logged and swallowed.  When the promise never settles
    [addSongs] stays suspended with the object URLs it has created. *)
Lemma addSongs_run (l : list SongData.t) (w : World) :
  let w' := (addSongs env l w).2 in
  let records := recordsOf env (tick w) l in
  (addSongs env l w).1
    = (if store_settles env (tick w + length l) then Ok tt else Unsettled) ∧
  tick w' = S (tick w + length l) ∧
  stagedFiles w' = stagedFiles w ∧ isProcessing w' = isProcessing w ∧
  processedCount w' = processedCount w ∧ form w' = form w ∧
  ∃ display,
    Forall2 displays records display ∧
    (∀ u, u ∈ urls_of display → objectURLs w !! u = None) ∧
    match transactionError env (tick w + length l) with
    | None =>
        log w' = log w ++ (EvCreateObjectURL <$> urls_of display)
                   ++ [EvTransaction records true] ∧
        db w' = foldl put (db w) records ∧
        songs w' = songs w ++ display ∧
        (∀ k, k ∉ urls_of display → objectURLs w' !! k = objectURLs w !! k)
    | Some msg =>
        if transactionErrorEvent env (tick w + length l) then
          log w' = log w ++ (EvCreateObjectURL <$> urls_of display)
                     ++ [EvTransaction records false;
                         EvConsoleError "Failed to save songs to DB:"
                           {| exn_kind := RuntimeError; exn_message := msg |}]
                     ++ (EvRevokeObjectURL <$> urls_of display) ∧
          db w' = db w ∧
          songs w' = songs w ∧
          objectURLs w' = objectURLs w
        else
          log w' = log w ++ (EvCreateObjectURL <$> urls_of display)
                     ++ [EvTransaction records false] ∧
          db w' = db w ∧
          songs w' = songs w ∧
          (∀ k, k ∉ urls_of display → objectURLs w' !! k = objectURLs w !! k)
    end.
Proof.
  cbn zeta.
  destruct (mapM_prepareSong_run l w)
    as (display & Ho & Hdisp & Ht & Hlog & Hfresh & Hkeep & Hfr).
  destruct (mapM (prepareSong env) l w) as [o w1] eqn:E.
  cbn in Ho, Ht, Hlog, Hkeep, Hfr. subst o.
  rewrite (addSongs_unfold _ _ _ _ E).
  destruct Hfr as (Hdb & Hsongs & Hst & Hip & Hpc & Hform).
  assert (Hlen : length (recordsOf env (tick w) l) = length display)
    by (by eapply Forall2_length).
  rewrite fst_zip, snd_zip by lia.
  unfold try_catch, addSongsToDB, ask, emit, modify, setSongs, consoleError,
    throw, unsettled. unfold mbind, M_bind. cbn -[forEach]. rewrite Ht.
  unfold store_settles.
  destruct (transactionError env (tick w + length l)) as [msg|];
    [destruct (transactionErrorEvent env (tick w + length l))|];
    cbn -[forEach].
  - set (w2 := with_log _ _).
    destruct (forEach_revokeSong_run display w2) as (Ho & Ht' & Hlog' & Hmap & Hfr).
    destruct (forEach display revokeSong w2) as [o w3].
    cbn in Ho, Ht', Hlog', Hmap, Hfr. subst o. cbn.
    destruct Hfr as (Hdb' & Hsongs' & Hst' & Hip' & Hpc' & Hform').
    subst w2. cbn in *.
    repeat split; try congruence.
    exists display. repeat split; try done; try congruence.
    + rewrite Hlog', Hlog. by log_norm.
    + apply map_eq. intros k. rewrite (Hmap k). case_decide as Hk.
      * symmetry. by apply Hfresh.
      * by apply Hkeep.
  - repeat split; try congruence.
    exists display. repeat split; try done; try congruence.
    rewrite Hlog. by log_norm.
  - repeat split; try congruence.
    exists display. repeat split; try done; try congruence.
    rewrite Hlog. by log_norm.
Qed.

End AddSongs.

(** ** The batch processor *)

Lemma NoDup_fmap_elem_eq {A B} (f : A → B) (l : list A) (a b : A) :
  NoDup (f <$> l) → a ∈ l → b ∈ l → f a = f b → a = b.
Proof.
  intros Hnd Ha Hb Hf.
  apply list_elem_of_lookup in Ha as [i Hi], Hb as [j Hj].
  assert (i = j) as ->; [|congruence].
  eapply NoDup_lookup; [exact Hnd| |];
    rewrite list_lookup_fmap; [by rewrite Hi|by rewrite Hj, Hf].
Qed.

Lemma filter_Forall_id {A} (P : A → Prop) `{∀ x, Decision (P x)}
    (l : list A) :
  Forall P l → filter P l = l.
Proof.
  induction 1 as [|x l Hx _ IH]; [done|].
  rewrite filter_cons_True by done. by rewrite IH.
Qed.

(** The loop leaves alone every item whose id is not the id of a pending
    item of the snapshot. *)
Lemma processQueueLoop_untouched (env : Env) (rest : list StagedFile.t)
    (c : nat) (w : World) :
  Forall2
    (λ a b, StagedFile.id b = StagedFile.id a ∧
            (StagedFile.id a ∉ StagedFile.id <$> filter is_pending rest →
             b = a))
    (stagedFiles w) (stagedFiles (processQueueLoop env rest c w).2).
Proof.
  revert c w. induction rest as [|sf rest IH]; intros c w.
  - cbn. by apply Forall_Forall2_diag, Forall_forall.
  - cbn [processQueueLoop]. unfold mbind, M_bind.
    destruct (decide (is_pending sf)) as [Hp|Hp].
    + rewrite filter_cons_True by done.
      destruct (processQueueItem_pending env sf c w Hp) as (Ho & Hst & _).
      destruct (processQueueItem env sf c w) as [o w1]. cbn in Ho, Hst.
      subst o. cbn [fst snd].
      eapply Forall2_chain;
        [|apply (attempt_updates (StagedFile.id sf)
                   (processFile env (StagedFile.file sf) w).1),
                processFile_settles
         |rewrite <- Hst; apply IH].
      cbn. intros a b d (Hid & _ & Hne) (Hid' & Hsame).
      split; [congruence|]. rewrite ?fmap_cons.
      intros [Hn1 Hn2]%not_elem_of_cons.
      rewrite Hsame by (by rewrite Hid). by apply Hne.
    + rewrite filter_cons_False by done.
      rewrite (processQueueItem_skip env sf c w Hp).
      apply (IH (S c) (with_processedCount (S c) w)).
Qed.

(** C1, as amended.  A run of the batch processor attempts exactly the
    items that are still pending, in staging order: an item in success and
    an item in error are both skipped.  When the ids of the batch are
    distinct, every item that is not pending is left as it is. *)
Theorem handleProcessQueue_attempts_pending (env : Env) (w : World) :
  let w' := (handleProcessQueue env w).2 in
  gemini_prompts (events_since w w')
    = prompt_of <$> filter is_pending (stagedFiles w) ∧
  (NoDup (StagedFile.id <$> stagedFiles w) →
   ∀ i sf, stagedFiles w !! i = Some sf → ¬ is_pending sf →
           stagedFiles w' !! i = Some sf).
Proof.
  cbn zeta. rewrite handleProcessQueue_eq. cbn.
  set (w1 := with_processedCount 0 (with_isProcessing true w)).
  split.
  - destruct (processQueueLoop_run env (stagedFiles w) 0 w1)
      as (_ & (evs & Hlog & Hg) & _).
    rewrite <- Hg. f_equal. by apply events_since_app.
  - intros Hnd i sf Hi Hnp.
    pose proof (processQueueLoop_untouched env (stagedFiles w) 0 w1) as HF.
    change (stagedFiles w1) with (stagedFiles w) in HF.
    destruct (Forall2_lookup_l _ _ _ _ _ HF Hi) as (b & Hb & _ & Hsame).
    rewrite Hb, Hsame; [done|].
    intros (p & Hidp & Hin)%list_elem_of_fmap.
    apply list_elem_of_filter in Hin as [Hpp Hin].
    assert (sf = p) as ->; [|done].
    eapply (NoDup_fmap_elem_eq StagedFile.id); eauto.
    by eapply list_elem_of_lookup_2.
Qed.

(** The batch of C1: one success item and one error item.  Nothing is
    attempted and both items stay as they are. *)
Lemma handleProcessQueue_attempts_pending_witness :
  let w := stagedWorld [successItem; errorItem] in
  let w' := (handleProcessQueue happyEnv w).2 in
  gemini_prompts (events_since w w') = [] ∧
  stagedFiles w' !! 0%nat = Some successItem ∧
  stagedFiles w' !! 1%nat = Some errorItem.
Proof.
  cbn zeta.
  destruct (handleProcessQueue_attempts_pending happyEnv
              (stagedWorld [successItem; errorItem])) as [Hatt Hkeep].
  split; [exact Hatt|].
  assert (Hnd : NoDup (StagedFile.id <$>
                  stagedFiles (stagedWorld [successItem; errorItem])))
    by (apply (bool_decide_unpack _); by vm_compute).
  split; apply (Hkeep Hnd); by vm_compute.
Defined.

(** C1, as stated, fails.  The claim has the error item attempted again;
    the processor attempts nothing, although the environment would let
    the attempt succeed. *)
Lemma handleProcessQueue_skips_error_item :
  let w := stagedWorld [successItem; errorItem] in
  let w' := (handleProcessQueue happyEnv w).2 in
  gemini_prompts (events_since w w')
    ≠ prompt_of <$>
        filter (λ sf, StagedFile.status sf ≠ success) (stagedFiles w).
Proof. by vm_compute. Qed.

(** C2.  On a batch whose items are all pending, the batch processor
    returns, attempts every item in staging order whatever the outcome of
    the items before it, and leaves every item in success or in error. *)
Theorem handleProcessQueue_all_terminal (env : Env) (w : World) :
  Forall is_pending (stagedFiles w) →
  let w' := (handleProcessQueue env w).2 in
  (handleProcessQueue env w).1 = Ok tt ∧
  gemini_prompts (events_since w w') = prompt_of <$> stagedFiles w ∧
  length (stagedFiles w') = length (stagedFiles w) ∧
  Forall is_terminal (stagedFiles w').
Proof.
  intros Hall. cbn zeta. rewrite handleProcessQueue_eq. cbn.
  set (w1 := with_processedCount 0 (with_isProcessing true w)).
  split; [done|]. split.
  { destruct (processQueueLoop_run env (stagedFiles w) 0 w1)
      as (_ & (evs & Hlog & Hg) & _).
    rewrite (events_since_app w _ evs) by done. rewrite Hg. f_equal.
    by apply filter_Forall_id. }
  pose proof (processQueueLoop_terminal env (stagedFiles w) 0 w1 Hall) as HF.
  change (stagedFiles w1) with (stagedFiles w) in HF.
  split; [symmetry; by eapply Forall2_length|].
  apply Forall_forall. intros b Hb.
  apply list_elem_of_lookup in Hb as [i Hi].
  destruct (Forall2_lookup_r _ _ _ _ _ HF Hi) as (a & Ha & _ & Hterm & _).
  apply Hterm, list_elem_of_fmap. exists a. split; [done|].
  by eapply list_elem_of_lookup_2.
Qed.

(** A batch of two pending items in which the first item fails: the
    second is processed all the same. *)
Lemma handleProcessQueue_all_terminal_witness :
  let w := stagedWorld [pendingItem "a" "Unknown - Noise.mp3";
                        pendingItem "b" "Beatles - Yesterday.mp3"] in
  let w' := (handleProcessQueue flakyEnv w).2 in
  StagedFile.status <$> stagedFiles w' = [error; success] ∧
  (handleProcessQueue flakyEnv w).1 = Ok tt ∧
  gemini_prompts (events_since w w') = prompt_of <$> stagedFiles w ∧
  length (stagedFiles w') = length (stagedFiles w) ∧
  Forall is_terminal (stagedFiles w').
Proof.
  cbn zeta. split; [by vm_compute|].
  apply (handleProcessQueue_all_terminal flakyEnv). by repeat constructor.
Defined.

(** ** Runs of the operations *)

Section Operations.

Variable env : Env.

Lemma with_tick_id (w : World) : with_tick (tick w) w = w.
Proof. by destruct w. Qed.

Lemma mapM_newStagedFile_run (fs : list File) (w : World) :
  ∃ added,
    mapM (newStagedFile env) fs w
      = (Ok added, with_tick (tick w + length fs) w) ∧
    Forall is_pending added ∧
    StagedFile.file <$> added = fs.
Proof.
  revert w. induction fs as [|f fs IH]; intros w.
  - exists []. cbn. by rewrite Nat.add_0_r, with_tick_id.
  - destruct (IH (with_tick (S (tick w)) w)) as (added & Hrun & Hp & Hf).
    eexists (_ :: added). split; [|split].
    + eapply (mapM_cons_Ok _ _ _ _ (with_tick (S (tick w)) w));
        [reflexivity|]. rewrite Hrun. cbn.
      f_equal. unfold with_tick. cbn. f_equal. lia.
    + by constructor.
    + cbn. by rewrite Hf.
Qed.

(** Staging appends pending items and touches no staged item. *)
Lemma handleFileChange_run (files : option (list File)) (w : World) :
  let w' := (handleFileChange env files w).2 in
  ∃ added,
    Forall is_pending added ∧
    stagedFiles w' = stagedFiles w ++ added ∧
    (files = None ∧ w' = w ∨
     log w' = log w ++ [EvSetStagedFiles (stagedFiles w ++ added)]).
Proof.
  destruct files as [fs|]; cbn zeta.
  - destruct (mapM_newStagedFile_run fs w) as (added & Hrun & Hp & _).
    exists added. unfold handleFileChange, mbind, M_bind. rewrite Hrun.
    cbn. split; [done|]. split; [done|]. by right.
  - exists []. cbn. rewrite app_nil_r. split; [done|]. split; [done|].
    by left.
Qed.

Lemma toSongData_run (sf : StagedFile.t) (w : World) :
  (toSongData sf w).2 = w ∧
  (∀ data, (toSongData sf w).1 = Ok data → dataOf sf data) ∧
  (is_Some (StagedFile.songDetails sf) →
   is_Some (StagedFile.coverArtFile sf) →
   ∃ data, (toSongData sf w).1 = Ok data).
Proof.
  unfold toSongData.
  destruct (StagedFile.songDetails sf) as [[t a b]|] eqn:Ed,
    (StagedFile.coverArtFile sf) as [cv|] eqn:Ec; cbn;
    (split; [done|]); split; try done;
    first [ intros data [= <-]; by repeat split
          | intros _ _; by eexists
          | by intros _ [? [=]]
          | by intros [? [=]] ].
Qed.

(** Building the [SongData] of the success items changes nothing; it
    succeeds when they carry their details and cover art. *)
Lemma mapM_toSongData_run (l : list StagedFile.t) (w : World) :
  (mapM toSongData l w).2 = w ∧
  (∀ data, (mapM toSongData l w).1 = Ok data → Forall2 dataOf l data) ∧
  (Forall (λ sf, is_Some (StagedFile.songDetails sf) ∧
                 is_Some (StagedFile.coverArtFile sf)) l →
   ∃ data, (mapM toSongData l w).1 = Ok data).
Proof.
  induction l as [|sf l (IHw & IHd & IHc)].
  { split; [done|]. split; [|by exists []]. intros data [= <-]. constructor. }
  destruct (toSongData_run sf w) as (Hw1 & Hd1 & Hc1).
  cbn [mapM]. unfold mbind, M_bind.
  destruct (toSongData sf w) as [[d|e|] w0]; cbn in Hw1; subst w0.
  - destruct (mapM toSongData l w) as [[ds|e|] w1]; cbn in IHw; subst w1; cbn.
    + split; [done|]. split; [|by eexists].
      intros data [= <-]. constructor; [by apply Hd1|by apply IHd].
    + split; [done|]. split; [done|]. intros [_ Hl]%Forall_cons.
      destruct (IHc Hl) as (data & [=]).
    + split; [done|]. split; [done|]. intros [_ Hl]%Forall_cons.
      destruct (IHc Hl) as (data & [=]).
  - cbn. split; [done|]. split; [done|]. intros [[Hdt Hcv] _]%Forall_cons.
    destruct (Hc1 Hdt Hcv) as (data & [=]).
  - cbn. split; [done|]. split; [done|]. intros [[Hdt Hcv] _]%Forall_cons.
    destruct (Hc1 Hdt Hcv) as (data & [=]).
Qed.

(** [toSongData] awaits nothing. *)
Lemma mapM_toSongData_settles (l : list StagedFile.t) (w : World) :
  (mapM toSongData l w).1 ≠ Unsettled.
Proof.
  revert w. induction l as [|sf l IH]; intros w; [done|].
  cbn [mapM]. unfold mbind, M_bind.
  destruct (toSongData_run sf w) as (Hw1 & _).
  assert (Hs : (toSongData sf w).1 ≠ Unsettled).
  { unfold toSongData.
    by destruct (StagedFile.songDetails sf), (StagedFile.coverArtFile sf). }
  destruct (toSongData sf w) as [[d|e|] w0]; [|done|done].
  specialize (IH w0). by destruct (mapM toSongData l w0) as [[ds|e|] w1].
Qed.

(** A commit without success item does nothing at all. *)
Lemma handleAddSongsToLibrary_empty (w : World) :
  filter is_success (stagedFiles w) = [] →
  handleAddSongsToLibrary env w = (Ok tt, w).
Proof.
  intros H. unfold handleAddSongsToLibrary, gets, mbind, M_bind.
  fold is_success. rewrite H. by cbn.
Qed.

(** The ways a commit can go: nothing to commit, a success item without
    details or cover art, or a write to the store, after which the
    handler goes on if the promise of the store settles and stays
    suspended on it otherwise. *)
Lemma handleAddSongsToLibrary_cases (w : World) :
  let successful := filter is_success (stagedFiles w) in
  (successful = [] ∧ handleAddSongsToLibrary env w = (Ok tt, w))
  ∨ (∃ e, (mapM toSongData successful w).1 = Throw e ∧
          handleAddSongsToLibrary env w = (Throw e, w))
  ∨ (successful ≠ [] ∧
     ∃ data, Forall2 dataOf successful data ∧
             handleAddSongsToLibrary env w =
             if store_settles env (tick w + length data)
             then (Ok tt, committed env data w)
             else (Unsettled, (addSongs env data w).2)).
Proof.
  cbn zeta.
  destruct (filter is_success (stagedFiles w)) as [|sf l] eqn:Ef.
  { left. split; [done|]. by apply handleAddSongsToLibrary_empty. }
  right.
  destruct (mapM_toSongData_run (sf :: l) w) as (Hw & Hd & _).
  unfold handleAddSongsToLibrary, gets, mbind, M_bind. fold is_success.
  rewrite Ef. rewrite decide_False by done.
  pose proof (mapM_toSongData_settles (sf :: l) w) as Hs.
  destruct (mapM toSongData (sf :: l) w) as [[data|e|] w0];
    cbn in Hw; subst w0; [| |done].
  - right. split; [done|]. exists data. split; [by apply Hd|].
    unfold committed.
    destruct (addSongs_run env data w) as (Ho & _).
    destruct (addSongs env data w) as [o w1]. cbn in Ho. subst o.
    by destruct (store_settles env (tick w + length data)).
  - left. by exists e.
Qed.

(** A commit with complete success items reaches the store. *)
Lemma handleAddSongsToLibrary_run (w : World) :
  filter is_success (stagedFiles w) ≠ [] →
  Forall complete (stagedFiles w) →
  ∃ data,
    Forall2 dataOf (filter is_success (stagedFiles w)) data ∧
    handleAddSongsToLibrary env w =
    if store_settles env (tick w + length data)
    then (Ok tt, committed env data w)
    else (Unsettled, (addSongs env data w).2).
Proof.
  intros Hne Hc.
  destruct (handleAddSongsToLibrary_cases w) as [[He _]|[(e & He & _)|[_ H]]];
    [done| |done].
  destruct (mapM_toSongData_run (filter is_success (stagedFiles w)) w)
    as (_ & _ & Hd).
  destruct Hd as (data & Ho); [|congruence].
  apply Forall_forall. intros sf [Hs Hin]%list_elem_of_filter.
  rewrite Forall_forall in Hc. by apply Hc.
Qed.

End Operations.

(** ** Events of a commit *)

Lemma omap_fmap_None {A B C} (f : B → option C) (g : A → B) (l : list A) :
  (∀ x, f (g x) = None) → omap f (g <$> l) = [].
Proof. intros H. induction l as [|x l IH]; [done|]. cbn. by rewrite H. Qed.

Lemma omap_fmap_Some {A B} (f : B → option A) (g : A → B) (l : list A) :
  (∀ x, f (g x) = Some x) → omap f (g <$> l) = l.
Proof.
  intros H. induction l as [|x l IH]; [done|]. cbn. by rewrite H, IH.
Qed.

Lemma observe_create (l : list ObjectURL) :
  staged_updates (EvCreateObjectURL <$> l) = [] ∧
  transactions (EvCreateObjectURL <$> l) = [] ∧
  created_urls (EvCreateObjectURL <$> l) = l ∧
  revoked_urls (EvCreateObjectURL <$> l) = [].
Proof.
  repeat split; [apply omap_fmap_None|apply omap_fmap_None
                |apply omap_fmap_Some|apply omap_fmap_None]; done.
Qed.

Lemma observe_revoke (l : list ObjectURL) :
  staged_updates (EvRevokeObjectURL <$> l) = [] ∧
  transactions (EvRevokeObjectURL <$> l) = [] ∧
  created_urls (EvRevokeObjectURL <$> l) = [] ∧
  revoked_urls (EvRevokeObjectURL <$> l) = l.
Proof.
  repeat split; [apply omap_fmap_None|apply omap_fmap_None
                |apply omap_fmap_None|apply omap_fmap_Some]; done.
Qed.

(** What [addSongs] adds to the log: the object URLs of the new songs are
    created, the store is asked once with the records of the batch, and
    on a failure that rejects the same URLs are revoked.  The staged
    collection is not updated. *)
Lemma addSongs_events (env : Env) (l : list SongData.t) (w : World) :
  let w' := (addSongs env l w).2 in
  let ok := bool_decide (transactionError env (tick w + length l) = None) in
  ∃ evs urls,
    log w' = log w ++ evs ∧
    length urls = (2 * length l)%nat ∧
    staged_updates evs = [] ∧
    transactions evs = [(recordsOf env (tick w) l, ok)] ∧
    created_urls evs = urls ∧
    revoked_urls evs
    = (if ok then []
       else if transactionErrorEvent env (tick w + length l) then urls
            else []).
Proof.
  cbn zeta.
  destruct (addSongs_run env l w)
    as (_ & _ & _ & _ & _ & _ & display & Hdisp & _ & Hcase).
  assert (Hlen : length (urls_of display) = (2 * length l)%nat).
  { apply Forall2_length in Hdisp. unfold recordsOf in Hdisp.
    rewrite length_imap in Hdisp. rewrite Hdisp. unfold urls_of.
    clear. induction display as [|s d IH]; [done|]. cbn in *. lia. }
  destruct (transactionError env (tick w + length l)) as [msg|];
    [destruct (transactionErrorEvent env (tick w + length l))|].
  - destruct Hcase as (Hlog & _). eexists _, (urls_of display).
    split; [exact Hlog|]. split; [done|].
    destruct (observe_create (urls_of display)) as (Hc1 & Hc2 & Hc3 & Hc4).
    destruct (observe_revoke (urls_of display)) as (Hr1 & Hr2 & Hr3 & Hr4).
    unfold staged_updates, transactions, created_urls, revoked_urls in *.
    rewrite !omap_app, Hc1, Hc2, Hc3, Hc4, Hr1, Hr2, Hr3, Hr4. cbn.
    rewrite ?app_nil_r. by repeat split.
  - destruct Hcase as (Hlog & _). eexists _, (urls_of display).
    split; [exact Hlog|]. split; [done|].
    destruct (observe_create (urls_of display)) as (Hc1 & Hc2 & Hc3 & Hc4).
    unfold staged_updates, transactions, created_urls, revoked_urls in *.
    rewrite !omap_app, Hc1, Hc2, Hc3, Hc4. cbn.
    rewrite ?app_nil_r. by repeat split.
  - destruct Hcase as (Hlog & _). eexists _, (urls_of display).
    split; [exact Hlog|]. split; [done|].
    destruct (observe_create (urls_of display)) as (Hc1 & Hc2 & Hc3 & Hc4).
    unfold staged_updates, transactions, created_urls, revoked_urls in *.
    rewrite !omap_app, Hc1, Hc2, Hc3, Hc4. cbn.
    rewrite ?app_nil_r. by repeat split.
Qed.

Lemma events_since_refl (w : World) : events_since w w = [].
Proof. unfold events_since. by rewrite drop_all. Qed.

Lemma forward_terminal (s s' : Status) :
  forward s s' →
  (s = success ∨ s = error → s' = s) ∧ (s' = pending → s = pending).
Proof. destruct 1; split; try done; by intros [|]. Qed.

(** C7.  Whatever the administrator does (staging files, processing the
    queue, committing, clearing), and provided the ids of the batch are
    distinct, every update of the staged collection either moves each
    item in place along pending, processing, then success or error (or
    leaves it), or appends pending items, or removes the whole batch; the
    updates account for the final collection.  An item in success or in
    error never changes status, and only a pending item is pending
    afterwards. *)
Theorem staged_status_moves_forward (env : Env) (a : Action) (w : World) :
  NoDup (StagedFile.id <$> stagedFiles w) →
  let w' := (perform env a w).2 in
  let updates := staged_updates (events_since w w') in
  lawful_history (stagedFiles w) updates ∧
  stagedFiles w' = default (stagedFiles w) (last updates) ∧
  (∀ s s', forward s s' →
     (s = success ∨ s = error → s' = s) ∧ (s' = pending → s = pending)).
Proof.
  intros Hnd. cbn zeta. split; [|split; [|apply forward_terminal]];
    destruct a as [files| | |]; cbn [perform].
  - destruct (handleFileChange_run env files w)
      as (added & Hp & Hst & [[_ Hw]|Hlog]).
    + rewrite Hw, events_since_refl. by cbn.
    + rewrite (events_since_app _ _ _ Hlog). cbn. split; [|done].
      right. left. by exists added.
  - rewrite handleProcessQueue_eq. cbn.
    set (w1 := with_processedCount 0 (with_isProcessing true w)).
    destruct (processQueueLoop_history env (stagedFiles w) 0 w1 Hnd)
      as (evs & Hlog & Hlaw & _); [by apply agrees_self|].
    by rewrite (events_since_app w _ evs).
  - destruct (handleAddSongsToLibrary_cases env w)
      as [[_ ->]|[(e & _ & ->)|(_ & data & _ & ->)]]; cbn [snd].
    + by rewrite events_since_refl.
    + by rewrite events_since_refl.
    + destruct (addSongs_events env data w) as (evs & urls & Hlog & _ & Hs & _).
      destruct (store_settles env (tick w + length data)); cbn [snd].
      * unfold committed.
        rewrite (events_since_app w _ (evs ++ [EvSetStagedFiles []]))
          by (cbn; rewrite Hlog; by log_norm).
        rewrite staged_updates_app, Hs. cbn. split; [|done]. by right; right.
      * rewrite (events_since_app w _ evs Hlog), Hs. by cbn.
  - unfold handleClearAll, setStagedFiles, modify. cbn.
    rewrite (events_since_app w _ [EvSetStagedFiles []]) by done.
    cbn. split; [|done]. by right; right.
  - destruct (handleFileChange_run env files w)
      as (added & Hp & Hst & [[_ Hw]|Hlog]).
    + rewrite Hw, events_since_refl. by cbn.
    + rewrite (events_since_app _ _ _ Hlog). by cbn.
  - rewrite handleProcessQueue_eq. cbn.
    set (w1 := with_processedCount 0 (with_isProcessing true w)).
    destruct (processQueueLoop_history env (stagedFiles w) 0 w1 Hnd)
      as (evs & Hlog & _ & Hlast); [by apply agrees_self|].
    by rewrite (events_since_app w _ evs).
  - destruct (handleAddSongsToLibrary_cases env w)
      as [[_ ->]|[(e & _ & ->)|(_ & data & _ & ->)]]; cbn [snd].
    + by rewrite events_since_refl.
    + by rewrite events_since_refl.
    + destruct (addSongs_events env data w) as (evs & urls & Hlog & _ & Hs & _).
      destruct (store_settles env (tick w + length data)); cbn [snd].
      * unfold committed.
        rewrite (events_since_app w _ (evs ++ [EvSetStagedFiles []]))
          by (cbn; rewrite Hlog; by log_norm).
        rewrite staged_updates_app, Hs. by cbn.
      * rewrite (events_since_app w _ evs Hlog), Hs. cbn.
        by destruct (addSongs_run env data w) as (_ & _ & -> & _).
  - unfold handleClearAll, setStagedFiles, modify. cbn.
    by rewrite (events_since_app w _ [EvSetStagedFiles []]).
Qed.

(** A queue of two pending items whose first attempt fails: the four
    updates of the run, by status. *)
Lemma staged_status_moves_forward_witness :
  let w := stagedWorld [pendingItem "a" "Unknown - Noise.mp3";
                        pendingItem "b" "Beatles - Yesterday.mp3"] in
  let w' := (perform flakyEnv ProcessQueue w).2 in
  let updates := staged_updates (events_since w w') in
  (λ l : list StagedFile.t, StagedFile.status <$> l) <$> updates
    = [[processing; pending]; [error; pending];
       [error; processing]; [error; success]] ∧
  lawful_history (stagedFiles w) updates ∧
  stagedFiles w' = default (stagedFiles w) (last updates) ∧
  (∀ s s', forward s s' →
     (s = success ∨ s = error → s' = s) ∧ (s' = pending → s = pending)).
Proof.
  cbn zeta. split; [by vm_compute|].
  apply (staged_status_moves_forward flakyEnv ProcessQueue).
  apply (bool_decide_unpack _). by vm_compute.
Defined.

(** ** The commit *)

(** The songs prepared for a batch have distinct fresh object URLs, each
    bound to the file it was made for. *)
Lemma mapM_prepareSong_bound (env : Env) (l : list SongData.t) (w : World) :
  ∃ display,
    let w' := (mapM (prepareSong env) l w).2 in
    (mapM (prepareSong env) l w).1
      = Ok (zip (recordsOf env (tick w) l) display) ∧
    length display = length l ∧
    tick w' = (tick w + length l)%nat ∧
    log w' = log w ++ (EvCreateObjectURL <$> urls_of display) ∧
    NoDup (urls_of display) ∧
    (∀ u, u ∈ urls_of display → objectURLs w !! u = None) ∧
    (∀ k, k ∉ urls_of display → objectURLs w' !! k = objectURLs w !! k) ∧
    Forall2 (plays (objectURLs w')) l display ∧
    db w' = db w ∧ songs w' = songs w.
Proof.
  revert w. induction l as [|data l IH]; intros w.
  - exists []. cbn. rewrite Nat.add_0_r, app_nil_r.
    repeat split; try done; [constructor|by intros u ?%elem_of_nil].
  - destruct (prepareSong_run env data w) as (u1 & u2 & Hne & Hu1 & Hu2 & Hrun).
    set (w1 := with_log _ _) in Hrun.
    destruct (IH w1)
      as (display & Ho & Hlen & Ht & Hlog & Hnd & Hfresh & Hkeep & Hplay
          & Hdb & Hsongs).
    destruct (mapM (prepareSong env) l w1) as [o w2] eqn:E.
    cbn in Ho, Ht, Hlog, Hkeep, Hplay, Hdb, Hsongs. subst o.
    eexists (_ :: display). rewrite (mapM_cons_Ok _ _ _ _ _ _ _ _ Hrun E).
    cbn -[recordsOf].
    assert (Hrec : recordsOf env (tick w) (data :: l) =
              storedSongOf (toISOString env (tick w)) data
              :: recordsOf env (S (tick w)) l).
    { unfold recordsOf. cbn. rewrite Nat.add_0_r. f_equal.
      apply imap_ext. intros i x _. cbn. do 2 f_equal. lia. }
    rewrite Hrec. split; [reflexivity|].
    split; [by rewrite Hlen|].
    split; [cbn in Ht; rewrite Ht; cbn; lia|].
    split; [rewrite Hlog; subst w1; cbn; by log_norm|].
    assert (Hin : ∀ u, u ∈ urls_of display → u ≠ u1 ∧ u ≠ u2 ∧
                       objectURLs w !! u = None).
    { intros u Hu. specialize (Hfresh u Hu). subst w1. cbn in Hfresh.
      apply lookup_insert_None in Hfresh as [Hfresh ?].
      apply lookup_insert_None in Hfresh as [? ?]. auto. }
    assert (Hn1 : u1 ∉ urls_of display) by (intros Hu; by apply Hin in Hu as (? & _)).
    assert (Hn2 : u2 ∉ urls_of display)
      by (intros Hu; by apply Hin in Hu as (_ & ? & _)).
    split.
    { cbn. apply NoDup_cons. split.
      - rewrite not_elem_of_cons. by split.
      - apply NoDup_cons. by split. }
    split.
    { intros u. cbn. rewrite !elem_of_cons.
      intros [->|[->|Hu]]; [done|done|]. by apply Hin. }
    split.
    { intros k. cbn. rewrite !not_elem_of_cons. intros (Hk1 & Hk2 & Hk).
      rewrite (Hkeep k Hk). subst w1. cbn.
      rewrite lookup_insert_ne by done. by rewrite lookup_insert_ne. }
    split; [|by rewrite Hdb, Hsongs].
    constructor; [|exact Hplay].
    repeat split; cbn.
    + rewrite (Hkeep u1 Hn1). subst w1. cbn.
      rewrite lookup_insert_ne by done. by rewrite lookup_insert_eq.
    + rewrite (Hkeep u2 Hn2). subst w1. cbn. by rewrite lookup_insert_eq.
Qed.

(** C8.  When the write to the store fails, the store and the library
    shown to the listener are as before, and [addSongs] has created two
    object URLs per new song, which were free before.  What becomes of
    them depends on how the transaction fails.  If it fires an [error]
    event, the promise of [addSongsToDB] rejects, [addSongs] returns and
    has revoked every object URL it created: the registry of live object
    URLs is as before.  If the transaction only aborts, the promise never
    settles: [addSongs] never returns, it revokes nothing, and every
    object URL it created stays live. *)
Theorem addSongs_store_failure (env : Env) (l : list SongData.t) (w : World)
    (msg : string) :
  transactionError env (tick w + length l) = Some msg →
  let w' := (addSongs env l w).2 in
  let evs := events_since w w' in
  songs w' = songs w ∧
  db w' = db w ∧
  length (created_urls evs) = (2 * length l)%nat ∧
  (∀ u, u ∈ created_urls evs → objectURLs w !! u = None) ∧
  (transactionErrorEvent env (tick w + length l) = true →
   (addSongs env l w).1 = Ok tt ∧
   objectURLs w' = objectURLs w ∧
   revoked_urls evs = created_urls evs) ∧
  (transactionErrorEvent env (tick w + length l) = false →
   (addSongs env l w).1 = Unsettled ∧
   revoked_urls evs = [] ∧
   (∀ u, u ∈ created_urls evs → is_Some (objectURLs w' !! u))).
Proof.
  intros Herr. cbn zeta.
  destruct (mapM_prepareSong_bound env l w)
    as (display & Hm & Hlen & Ht & Hlog & _ & Hfresh & Hkeep & Hplay
        & Hdb & Hsongs).
  destruct (mapM (prepareSong env) l w) as [o w1] eqn:E.
  cbn in Hm, Ht, Hlog, Hkeep, Hplay, Hdb, Hsongs. subst o.
  rewrite (addSongs_unfold _ _ _ _ _ E).
  assert (Hl : length (recordsOf env (tick w) l) = length display).
  { unfold recordsOf. by rewrite length_imap. }
  assert (Hurls : length (urls_of display) = (2 * length l)%nat).
  { rewrite <- Hlen. unfold urls_of. clear.
    induction display as [|s d IH]; [done|]. cbn in *. lia. }
  rewrite fst_zip, snd_zip by lia.
  destruct (observe_create (urls_of display)) as (_ & _ & Hc & Hr).
  destruct (observe_revoke (urls_of display)) as (_ & _ & Hc' & Hr').
  unfold try_catch, addSongsToDB, ask, emit, modify, consoleError, throw,
    unsettled.
  unfold mbind, M_bind. cbn -[forEach]. rewrite Ht, Herr.
  destruct (transactionErrorEvent env (tick w + length l)); cbn -[forEach].
  - set (w2 := with_log _ _).
    destruct (forEach_revokeSong_run display w2)
      as (Ho & _ & Hlog' & Hmap & Hfr).
    destruct (forEach display revokeSong w2) as [o w3].
    cbn in Ho, Hlog', Hmap, Hfr. subst o.
    destruct Hfr as (Hdb' & Hsongs' & _).
    subst w2. cbn in Hlog', Hmap, Hdb', Hsongs'. cbn [fst snd].
    erewrite events_since_app;
      [|rewrite Hlog', Hlog, <- !app_assoc; reflexivity].
    unfold created_urls, revoked_urls in *.
    rewrite !omap_app, Hc, Hr, Hc', Hr'. cbn. rewrite !app_nil_r.
    split; [congruence|]. split; [congruence|]. split; [done|].
    split; [done|]. split; [|by intros [=]].
    intros _. split; [done|]. split; [|done].
    apply map_eq. intros k. rewrite (Hmap k). case_decide as Hk.
    + symmetry. by apply Hfresh.
    + by apply Hkeep.
  - erewrite events_since_app;
      [|cbn; rewrite Hlog, <- !app_assoc; reflexivity].
    unfold created_urls, revoked_urls in *.
    rewrite !omap_app, Hc, Hr. cbn. rewrite !app_nil_r.
    split; [done|]. split; [done|]. split; [done|]. split; [done|].
    split; [by intros [=]|].
    intros _. split; [done|]. split; [done|].
    intros u Hu. unfold urls_of in Hu.
    apply list_elem_of_bind in Hu as (song & Hu & Hsong).
    apply list_elem_of_lookup in Hsong as [i Hi].
    destruct (Forall2_lookup_r _ _ _ _ _ Hplay Hi)
      as (d & _ & _ & _ & _ & Ha & Hcv).
    apply elem_of_cons in Hu as [->|Hu]; [by eexists|].
    apply list_elem_of_singleton in Hu as ->. by eexists.
Qed.

(** One song committed while the store is full and the transaction
    aborts at commit: [addSongs] stays suspended, and the two object URLs
    it created are live for good. *)
Lemma addSongs_store_failure_witness :
  let w := initialWorld in
  let w' := (addSongs abortedStoreEnv [yesterdayData] w).2 in
  let evs := events_since w w' in
  created_urls evs = [0; 1]%nat ∧
  songs w' = songs w ∧
  db w' = db w ∧
  (addSongs abortedStoreEnv [yesterdayData] w).1 = Unsettled ∧
  revoked_urls evs = [] ∧
  is_Some (objectURLs w' !! 0%nat) ∧ is_Some (objectURLs w' !! 1%nat).
Proof.
  cbn zeta.
  assert (Hc : created_urls
                 (events_since initialWorld
                    (addSongs abortedStoreEnv [yesterdayData] initialWorld).2)
               = [0; 1]%nat) by (by vm_compute).
  split; [exact Hc|].
  destruct (addSongs_store_failure abortedStoreEnv [yesterdayData]
              initialWorld "QuotaExceededError")
    as (Hs & Hdb & _ & _ & _ & Hleak); [by vm_compute|].
  destruct Hleak as (Ho & Hr & Hlive); [by vm_compute|].
  split; [exact Hs|]. split; [exact Hdb|]. split; [exact Ho|].
  split; [exact Hr|].
  split; apply Hlive; rewrite Hc.
  - apply list_elem_of_here.
  - apply list_elem_of_further, list_elem_of_here.
Defined.

(** C9.  [addSongs] submits to the store one record per song, whose id is
    the ISO timestamp read for that song, a hyphen, and the title of the
    song.  Two songs of a batch with the same title whose clock readings
    give the same timestamp therefore get the same id. *)
Theorem addSongs_record_ids (env : Env) (l : list SongData.t) (w : World) :
  let w' := (addSongs env l w).2 in
  let ids := StoredSong.id <$> recordsOf env (tick w) l in
  (∃ ok, transactions (events_since w w')
           = [(recordsOf env (tick w) l, ok)]) ∧
  (∀ i data, l !! i = Some data →
     ids !! i = Some (toISOString env (tick w + i) +:+ "-"
                      +:+ SongData.title data)) ∧
  (∀ i j d1 d2, l !! i = Some d1 → l !! j = Some d2 →
     SongData.title d1 = SongData.title d2 →
     toISOString env (tick w + i) = toISOString env (tick w + j) →
     ids !! i = ids !! j).
Proof.
  cbn zeta.
  assert (Hid : ∀ i data, l !! i = Some data →
            (StoredSong.id <$> recordsOf env (tick w) l) !! i
            = Some (toISOString env (tick w + i) +:+ "-"
                    +:+ SongData.title data)).
  { intros i data Hi. rewrite list_lookup_fmap. unfold recordsOf.
    rewrite list_lookup_imap, Hi. reflexivity. }
  split; [|split; [exact Hid|]].
  - destruct (addSongs_events env l w) as (evs & urls & Hlog & _ & _ & Ht & _).
    eexists. by rewrite (events_since_app w _ evs Hlog).
  - intros i j d1 d2 Hi Hj Ht Hc.
    rewrite (Hid i d1 Hi), (Hid j d2 Hj). by rewrite Ht, Hc.
Qed.

(** Two songs called Yesterday committed while the clock stands still:
    both records bear the same id, and the store, keyed by id, keeps one
    record for the two songs of the library. *)
Lemma addSongs_record_ids_witness :
  let w := initialWorld in
  let l := [yesterdayData; yesterdayData] in
  let w' := (addSongs happyEnv l w).2 in
  let ids := StoredSong.id <$> recordsOf happyEnv (tick w) l in
  ids = ["2024-01-01T00:00:00.000Z-Yesterday";
         "2024-01-01T00:00:00.000Z-Yesterday"] ∧
  length (songs w') = 2%nat ∧ size (db w') = 1%nat ∧
  ids !! 0%nat = ids !! 1%nat.
Proof.
  cbn zeta. split; [by vm_compute|]. split; [by vm_compute|].
  split; [by vm_compute|].
  destruct (addSongs_record_ids happyEnv [yesterdayData; yesterdayData]
              initialWorld) as (_ & _ & Hsame).
  by apply (Hsame 0%nat 1%nat yesterdayData yesterdayData).
Defined.

(** C10.  On a batch whose success items are complete, a commit with at
    least one success item hands exactly the success items to the store
    in one transaction (one record per success item, and none for an
    item in error or pending).  When the write to the store settles (the
    transaction completes, or fails with an [error] event) the commit
    returns, and has then cleared the whole batch and reset the progress
    counter, whether or not the store accepted the records.  When the
    write never settles the commit never completes: the handler stays
    suspended, with the batch and the counter as they were.  A commit
    without success item leaves the world as it is: nothing is written
    and nothing is cleared. *)
Theorem handleAddSongsToLibrary_clears_batch (env : Env) (w : World) :
  Forall complete (stagedFiles w) →
  let successful := filter is_success (stagedFiles w) in
  let w' := (handleAddSongsToLibrary env w).2 in
  (successful = [] → handleAddSongsToLibrary env w = (Ok tt, w)) ∧
  (successful ≠ [] →
   (store_settles env (tick w + length successful) = true →
    (handleAddSongsToLibrary env w).1 = Ok tt ∧
    stagedFiles w' = [] ∧
    processedCount w' = 0%nat) ∧
   (store_settles env (tick w + length successful) = false →
    (handleAddSongsToLibrary env w).1 = Unsettled ∧
    stagedFiles w' = stagedFiles w ∧
    processedCount w' = processedCount w) ∧
   ∃ data ok,
     Forall2 dataOf successful data ∧
     transactions (events_since w w')
       = [(recordsOf env (tick w) data, ok)] ∧
     db w' = (if ok then foldl put (db w) (recordsOf env (tick w) data)
              else db w)).
Proof.
  intros Hc. cbn zeta. split; [apply handleAddSongsToLibrary_empty|].
  intros Hne.
  destruct (handleAddSongsToLibrary_run env w Hne Hc) as (data & Hdata & ->).
  rewrite (Forall2_length _ _ _ Hdata).
  destruct (addSongs_events env data w)
    as (evs & urls & Hlog & _ & _ & Ht & _).
  destruct (addSongs_run env data w)
    as (_ & _ & Hst & _ & Hpc & _ & display & _ & _ & Hcase).
  assert (Hdb : db (addSongs env data w).2
                = (if bool_decide
                        (transactionError env (tick w + length data) = None)
                   then foldl put (db w) (recordsOf env (tick w) data)
                   else db w)).
  { destruct (transactionError env (tick w + length data)) as [msg|].
    - rewrite bool_decide_false by done.
      by destruct (transactionErrorEvent env _);
        destruct Hcase as (_ & ? & _).
    - rewrite bool_decide_true by done. by destruct Hcase as (_ & ? & _). }
  destruct (store_settles env (tick w + length data)).
  - unfold committed. cbn.
    split; [done|]. split; [by intros [=]|].
    exists data,
      (bool_decide (transactionError env (tick w + length data) = None)).
    split; [done|]. split; [|exact Hdb].
    rewrite (events_since_app w _ (evs ++ [EvSetStagedFiles []]))
      by (cbn; rewrite Hlog; by log_norm).
    unfold transactions in *. rewrite omap_app, Ht. by cbn.
  - cbn [fst snd]. split; [by intros [=]|]. split; [done|].
    exists data,
      (bool_decide (transactionError env (tick w + length data) = None)).
    split; [done|]. split; [|exact Hdb].
    by rewrite (events_since_app w _ evs Hlog).
Qed.

(** A batch of a success item, an error item and a pending item: the
    commit stores the one success item and discards all three. *)
Lemma handleAddSongsToLibrary_clears_batch_witness :
  let w := stagedWorld [successItem; errorItem;
                        pendingItem "c" "Later - Song.mp3"] in
  let w' := (handleAddSongsToLibrary happyEnv w).2 in
  size (db w') = 1%nat ∧
  (handleAddSongsToLibrary happyEnv w).1 = Ok tt ∧
  stagedFiles w' = [] ∧
  processedCount w' = 0%nat.
Proof.
  cbn zeta. split; [by vm_compute|].
  destruct (handleAddSongsToLibrary_clears_batch happyEnv
              (stagedWorld [successItem; errorItem;
                            pendingItem "c" "Later - Song.mp3"]))
    as [_ H].
  - apply Forall_cons. split; [intros _; split; by eexists|].
    apply Forall_cons. split; [intros [=]|].
    apply Forall_cons. split; [intros [=]|]. constructor.
  - destruct H as (H & _); [by vm_compute|].
    destruct H as (Ho & Hs & Hp); [by vm_compute|]. done.
Defined.

(** ** The per-item pipeline after the catalog lookup *)

Section Pipeline.

Variable env : Env.

Lemma processFile_lookup (file : File) (w : World) (title artist : string)
    (data : ItunesData) :
  lookup_returns env w file title artist data →
  processFile env file w =
  processFile_resolve env title artist data
    (after_lookup env w file title artist).
Proof.
  intros (text & resp & Hg & Hj & Ht & Ha & Hf & Hok & Hjson).
  unfold processFile, callGenerateContent, callFetch, emit, ask, lift, modify.
  unfold mbind, M_bind. cbn -[processFile_resolve].
  rewrite Hg. cbn -[processFile_resolve]. rewrite Hj.
  cbn -[processFile_resolve].
  destruct title as [|c1 t1]; [discriminate|].
  destruct artist as [|c2 a1]; [discriminate|].
  cbn -[processFile_resolve]. rewrite Hf. cbn -[processFile_resolve].
  rewrite Hok, Hjson. cbn -[processFile_resolve].
  unfold after_lookup. by log_norm.
Qed.

Lemma processFile_resolve_miss (title artist : string) (data : ItunesData)
    (w : World) :
  resultCount data = 0%Z →
  processFile_resolve env title artist data w =
  (Throw {| exn_kind := LookupError;
            exn_message := "Song not found on iTunes." |}, w).
Proof. intros H. unfold processFile_resolve. by rewrite H. Qed.

(** With a top result, the outcome hangs on the artwork alone. *)
Lemma processFile_resolve_match (title artist : string) (data : ItunesData)
    (songData : ItunesResult) (rest : list ItunesResult) (w : World) :
  resultCount data ≠ 0%Z → results data = songData :: rest →
  processFile_resolve env title artist data w =
  let url := highResArtworkUrlOf songData in
  if is_empty url then
    (Throw {| exn_kind := ArtworkUrlError;
              exn_message := "Cover art not found." |}, w)
  else
    match fetch env (tick w) url with
    | Rejected msg =>
        (Throw {| exn_kind := RuntimeError; exn_message := msg |},
         after_fetch w url)
    | Resolved r =>
        if resp_ok r then
          (Ok (resolveDetails songData title artist,
               coverArtOf env (S (tick w)) r),
           with_tick (S (S (tick w))) (after_fetch w url))
        else
          (Throw {| exn_kind := ArtworkFetchError;
                    exn_message := "Failed to download cover art." |},
           after_fetch w url)
    end.
Proof.
  intros Hn Hr. unfold processFile_resolve, first_result.
  rewrite (proj2 (Z.eqb_neq _ _) Hn), Hr. cbn zeta.
  unfold mbind at 1, M_bind at 1. cbn [mret M_ret].
  destruct (is_empty (highResArtworkUrlOf songData)); [done|].
  unfold callFetch, newFile, emit, ask, lift, modify, throw, mbind, M_bind.
  cbn. destruct (fetch env (tick w) (highResArtworkUrlOf songData)) as [r|msg];
    [|done].
  by destruct (resp_ok r).
Qed.

(** The item of the state that bears the id of the attempted item ends
    marked with the outcome of the attempt. *)
Lemma processQueueItem_item (sf : StagedFile.t) (c : nat) (w : World)
    (i : nat) (a : StagedFile.t) :
  is_pending sf → stagedFiles w !! i = Some a →
  StagedFile.id a = StagedFile.id sf →
  stagedFiles (processQueueItem env sf c w).2 !! i
  = Some (finish (processFile env (StagedFile.file sf) w).1 (markProcessing a)).
Proof.
  intros Hp Hi Hid.
  destruct (processQueueItem_pending env sf c w Hp) as (_ & Hst & _).
  rewrite Hst. unfold updateById. rewrite !list_lookup_fmap, Hi. cbn.
  rewrite (decide_True (P := StagedFile.id a = StagedFile.id sf)) by done.
  by rewrite decide_True.
Qed.

End Pipeline.

Lemma highResArtworkUrlOf_empty (songData : ItunesResult) :
  is_empty (highResArtworkUrlOf songData)
  = negb (truthy (artworkUrl100 songData)).
Proof.
  unfold highResArtworkUrlOf. rewrite js_replace_empty by done.
  by destruct (artworkUrl100 songData) as [[|c s]|].
Qed.

Lemma js_or_fallback (v : option string) (d : string) :
  js_or v d =
  match v with
  | None => d
  | Some s => if decide (s = EmptyString) then d else s
  end.
Proof. by destruct v as [[|c s]|]. Qed.

(** C3.  When the catalog lookup returns a top result, the details the
    pipeline resolves are the track name, the artist name and the
    collection name of the result, each replaced by its fallback when
    the field is missing or empty: the extracted title for the track
    name, the extracted artist for the artist name, and the extracted
    title again for the collection name.  No other details are ever
    returned, and they are returned, and recorded on the item with status
    success, as soon as the result has an artwork URL whose
    high-resolution variant is served with a 2xx status. *)
Theorem processFile_metadata (env : Env) (sf : StagedFile.t) (c : nat)
    (w : World) (title artist : string) (data : ItunesData)
    (songData : ItunesResult) (rest : list ItunesResult) :
  lookup_returns env w (StagedFile.file sf) title artist data →
  resultCount data ≠ 0%Z → results data = songData :: rest →
  let o := (processFile env (StagedFile.file sf) w).1 in
  let with_fallback (field : option string) (extracted : string) : string :=
    match field with
    | None => extracted
    | Some s => if decide (s = EmptyString) then extracted else s
    end in
  let details :=
    {| SongDetails.title := with_fallback (trackName songData) title;
       SongDetails.artist := with_fallback (artistName songData) artist;
       SongDetails.album := with_fallback (collectionName songData) title |} in
  (∀ d cover, o = Ok (d, cover) → d = details) ∧
  (∀ url artResp,
     artworkUrl100 songData = Some url → is_empty url = false →
     fetch env (S (S (tick w))) (js_replace "100x100" "600x600" url)
       = Resolved artResp →
     resp_ok artResp = true →
     o = Ok (details, coverArtOf env (S (S (S (tick w)))) artResp) ∧
     (is_pending sf →
      ∀ i a, stagedFiles w !! i = Some a →
             StagedFile.id a = StagedFile.id sf →
             ∃ b, stagedFiles (processQueueItem env sf c w).2 !! i = Some b ∧
                  StagedFile.status b = success ∧
                  StagedFile.songDetails b = Some details)).
Proof.
  intros Hl Hn Hr. cbv beta zeta.
  rewrite <- !js_or_fallback. fold (resolveDetails songData title artist).
  rewrite (processFile_lookup env _ _ _ _ _ Hl).
  rewrite (processFile_resolve_match env _ _ _ _ _ _ Hn Hr). cbn zeta.
  change (tick (after_lookup env w (StagedFile.file sf) title artist))
    with (S (S (tick w))).
  split.
  - intros d cover. repeat case_match; intros [=]. by subst.
  - intros url artResp Hu He Hf Hok.
    assert (Hurl : highResArtworkUrlOf songData
                   = js_replace "100x100" "600x600" url).
    { unfold highResArtworkUrlOf. rewrite Hu. by destruct url. }
    assert (Ho : (processFile env (StagedFile.file sf) w).1
                 = Ok (resolveDetails songData title artist,
                       coverArtOf env (S (S (S (tick w)))) artResp)).
    { rewrite (processFile_lookup env _ _ _ _ _ Hl).
      rewrite (processFile_resolve_match env _ _ _ _ _ _ Hn Hr). cbn zeta.
      change (tick (after_lookup env w (StagedFile.file sf) title artist))
        with (S (S (tick w))).
      rewrite highResArtworkUrlOf_empty, Hu, Hurl, Hf, Hok.
      by destruct url. }
    rewrite highResArtworkUrlOf_empty, Hu, Hurl, Hf, Hok.
    split; [by destruct url|].
    intros Hp i a Hi Hid. eexists. split.
    + by apply processQueueItem_item.
    + rewrite Ho. by cbn.
Qed.

(** The example of the specification: the extraction is Yesterday by The
    Beatles, the one match is on the album Help!.  The item is resolved
    to that album, the artwork is fetched at 600x600, and the record the
    commit stores bears the album.  With a match under another track
    name, with an empty artist name and no collection name, the item is
    resolved to the track name of the match, the extracted artist, and
    the extracted title as album. *)
Lemma processFile_metadata_witness :
  let sf := pendingItem "a" "Beatles - Yesterday.mp3" in
  let w := stagedWorld [sf] in
  let w1 := (handleProcessQueue happyEnv w).2 in
  let w2 := (handleAddSongsToLibrary happyEnv w1).2 in
  fetched_urls (events_since w w1)
    = ["https://itunes.apple.com/search?term=The Beatles Yesterday&entity=song&limit=1";
       "http://x/600x600bb.jpg"] ∧
  StoredSong.album <$> (map_to_list (db w2)).*2 = ["Help!"] ∧
  (∃ b, stagedFiles (processQueueItem happyEnv sf 0 w).2 !! 0%nat = Some b ∧
        StagedFile.status b = success ∧
        StagedFile.songDetails b
        = Some {| SongDetails.title := "Yesterday";
                  SongDetails.artist := "The Beatles";
                  SongDetails.album := "Help!" |}) ∧
  (∃ b, stagedFiles (processQueueItem sparseEnv sf 0 w).2 !! 0%nat = Some b ∧
        StagedFile.status b = success ∧
        StagedFile.songDetails b
        = Some {| SongDetails.title := "Yesterday (Remastered 2009)";
                  SongDetails.artist := "The Beatles";
                  SongDetails.album := "Yesterday" |}).
Proof.
  cbn zeta. split; [by vm_compute|]. split; [by vm_compute|]. split.
  - destruct (processFile_metadata happyEnv
                (pendingItem "a" "Beatles - Yesterday.mp3") 0
                (stagedWorld [pendingItem "a" "Beatles - Yesterday.mp3"])
                "Yesterday" "The Beatles" oneMatch helpResult [])
      as [_ H]; [by eexists _, _|done|done|].
    destruct (H "http://x/100x100bb.jpg"
                {| resp_status := 200; resp_json := Rejected "Unexpected token";
                   resp_blob := coverBlob |}) as [_ Hitem]; try done.
    by apply (Hitem eq_refl 0%nat (pendingItem "a" "Beatles - Yesterday.mp3")).
  - destruct (processFile_metadata sparseEnv
                (pendingItem "a" "Beatles - Yesterday.mp3") 0
                (stagedWorld [pendingItem "a" "Beatles - Yesterday.mp3"])
                "Yesterday" "The Beatles"
                {| resultCount := 1; results := [sparseResult] |}
                sparseResult [])
      as [_ H]; [by eexists _, _|done|done|].
    destruct (H "http://x/100x100bb.jpg"
                {| resp_status := 200; resp_json := Rejected "Unexpected token";
                   resp_blob := coverBlob |}) as [_ Hitem]; try done.
    by apply (Hitem eq_refl 0%nat (pendingItem "a" "Beatles - Yesterday.mp3")).
Defined.

(** C4, as amended.  When the catalog lookup of a pending item returns
    zero matches, the attempt fails with the fixed message
    [Song not found on iTunes.] and the item ends in error with that
    message attached; the message does not depend on the title. *)
Theorem lookup_miss_message (env : Env) (sf : StagedFile.t) (c : nat)
    (w : World) (title artist : string) (data : ItunesData)
    (i : nat) (a : StagedFile.t) :
  is_pending sf →
  lookup_returns env w (StagedFile.file sf) title artist data →
  resultCount data = 0%Z →
  stagedFiles w !! i = Some a → StagedFile.id a = StagedFile.id sf →
  (processFile env (StagedFile.file sf) w).1
    = Throw {| exn_kind := LookupError;
               exn_message := "Song not found on iTunes." |} ∧
  ∃ b, stagedFiles (processQueueItem env sf c w).2 !! i = Some b ∧
       StagedFile.status b = error ∧
       StagedFile.error b = Some "Song not found on iTunes." ∧
       StagedFile.songDetails b = StagedFile.songDetails a ∧
       StagedFile.coverArtFile b = StagedFile.coverArtFile a.
Proof.
  intros Hp Hl Hz Hi Hid.
  assert (Ho : (processFile env (StagedFile.file sf) w).1
               = Throw {| exn_kind := LookupError;
                          exn_message := "Song not found on iTunes." |}).
  { rewrite (processFile_lookup env _ _ _ _ _ Hl).
    by rewrite processFile_resolve_miss. }
  split; [exact Ho|]. eexists. split.
  - by apply processQueueItem_item.
  - rewrite Ho. by cbn.
Qed.

Lemma lookup_miss_message_witness :
  let sf := pendingItem "a" "Beatles - Yesterday.mp3" in
  let w := stagedWorld [sf] in
  ∃ b, stagedFiles (processQueueItem missEnv sf 0 w).2 !! 0%nat = Some b ∧
       StagedFile.status b = error ∧
       StagedFile.error b = Some "Song not found on iTunes.".
Proof.
  cbn zeta.
  destruct (lookup_miss_message missEnv
              (pendingItem "a" "Beatles - Yesterday.mp3") 0
              (stagedWorld [pendingItem "a" "Beatles - Yesterday.mp3"])
              "Yesterday" "The Beatles" noMatch 0
              (pendingItem "a" "Beatles - Yesterday.mp3"))
    as (_ & b & Hb & Hs & He & _); try done; [by eexists _, _|].
  by exists b.
Defined.

(** C4, as stated, fails.  The model extracts the title Yesterday, the
    catalog has no match, and the message attached to the item does not
    hold the title (nor the file name). *)
Lemma lookup_miss_message_omits_title :
  let sf := pendingItem "a" "Beatles - Yesterday.mp3" in
  let w := stagedWorld [sf] in
  let w' := (handleProcessQueue missEnv w).2 in
  lookup_returns missEnv w (StagedFile.file sf) "Yesterday" "The Beatles"
    noMatch ∧
  (λ b, (StagedFile.status b, StagedFile.error b)) <$> stagedFiles w'
    = [(error, Some "Song not found on iTunes.")] ∧
  includes "Yesterday" "Song not found on iTunes." = false ∧
  includes "Beatles - Yesterday.mp3" "Song not found on iTunes." = false.
Proof.
  cbn zeta. split; [by eexists _, _|]. by vm_compute.
Qed.

(** C5.  With a top result, the attempt fails for want of an artwork URL
    exactly when the result carries none (the field is missing or empty):
    the item then ends in error, and no artwork is requested.  When the
    result carries one, the URL requested is that URL with the leftmost
    [100x100] replaced by [600x600]. *)
Theorem processFile_artwork_url (env : Env) (sf : StagedFile.t) (c : nat)
    (w : World) (title artist : string) (data : ItunesData)
    (songData : ItunesResult) (rest : list ItunesResult) :
  lookup_returns env w (StagedFile.file sf) title artist data →
  resultCount data ≠ 0%Z → results data = songData :: rest →
  let r := processFile env (StagedFile.file sf) w in
  let catalogUrl :=
    itunesSearchUrl (encodeURIComponent env (artist +:+ " " +:+ title)) in
  ((∃ e, r.1 = Throw e ∧ exn_kind e = ArtworkUrlError)
   ↔ truthy (artworkUrl100 songData) = false) ∧
  (truthy (artworkUrl100 songData) = false →
   r.1 = Throw {| exn_kind := ArtworkUrlError;
                  exn_message := "Cover art not found." |} ∧
   fetched_urls (events_since w r.2) = [catalogUrl] ∧
   (is_pending sf →
    ∀ i a, stagedFiles w !! i = Some a →
           StagedFile.id a = StagedFile.id sf →
           ∃ b, stagedFiles (processQueueItem env sf c w).2 !! i = Some b ∧
                StagedFile.status b = error ∧
                StagedFile.error b = Some "Cover art not found." ∧
                StagedFile.coverArtFile b = StagedFile.coverArtFile a)) ∧
  (∀ url, artworkUrl100 songData = Some url → is_empty url = false →
     fetched_urls (events_since w r.2)
     = [catalogUrl; js_replace "100x100" "600x600" url]).
Proof.
  intros Hl Hn Hr. cbn zeta.
  pose proof (processFile_lookup env _ _ _ _ _ Hl) as E.
  rewrite (processFile_resolve_match env _ _ _ _ _ _ Hn Hr) in E.
  cbn zeta in E. rewrite highResArtworkUrlOf_empty in E.
  change (tick (after_lookup env w (StagedFile.file sf) title artist))
    with (S (S (tick w))) in E.
  destruct (truthy (artworkUrl100 songData)) eqn:Et; cbn [negb] in E.
  - split; [split; [intros (e & He & Hk)|discriminate]|split; [discriminate|]].
    + rewrite E in He.
      destruct (fetch env (S (S (tick w))) (highResArtworkUrlOf songData))
        as [resp|msg]; [destruct (resp_ok resp)|];
        cbn in He; simplify_eq; cbn in Hk; discriminate.
    + intros url Hu He. rewrite E.
      assert (Hurl : highResArtworkUrlOf songData
                     = js_replace "100x100" "600x600" url).
      { unfold highResArtworkUrlOf. rewrite Hu. by destruct url. }
      rewrite Hurl.
      destruct (fetch env (S (S (tick w))) (js_replace "100x100" "600x600" url))
        as [resp|msg]; [destruct (resp_ok resp)|]; cbn [snd];
        (erewrite events_since_app; [|cbn; log_norm; reflexivity]);
        reflexivity.
  - split; [split; [done|intros _; eexists; by rewrite E]|]. split.
    + intros _. rewrite E. cbn [fst snd]. split; [done|]. split.
      * erewrite events_since_app; [|cbn; reflexivity]. reflexivity.
      * intros Hp i a Hi Hid. eexists. split.
        -- by apply processQueueItem_item.
        -- rewrite E. by cbn.
    + intros url Hu He. rewrite Hu in Et. by destruct url.
Qed.

(** A match without artwork URL: the item ends in error and the artwork
    host is not asked; and the replacement on the URL of the example. *)
Lemma processFile_artwork_url_witness :
  let sf := pendingItem "a" "Beatles - Yesterday.mp3" in
  let w := stagedWorld [sf] in
  js_replace "100x100" "600x600" "http://x/100x100bb.jpg"
    = "http://x/600x600bb.jpg" ∧
  fetched_urls (events_since w (processFile noArtworkEnv (StagedFile.file sf) w).2)
    = ["https://itunes.apple.com/search?term=The Beatles Yesterday&entity=song&limit=1"] ∧
  ∃ b, stagedFiles (processQueueItem noArtworkEnv sf 0 w).2 !! 0%nat = Some b ∧
       StagedFile.status b = error ∧
       StagedFile.error b = Some "Cover art not found.".
Proof.
  cbn zeta. split; [by vm_compute|].
  destruct (processFile_artwork_url noArtworkEnv
              (pendingItem "a" "Beatles - Yesterday.mp3") 0
              (stagedWorld [pendingItem "a" "Beatles - Yesterday.mp3"])
              "Yesterday" "The Beatles"
              {| resultCount := 1; results := [noArtworkResult] |}
              noArtworkResult [])
    as (_ & H & _); [by eexists _, _|done|done|].
  destruct (H eq_refl) as (_ & Hf & Hitem). split; [exact Hf|].
  destruct (Hitem eq_refl 0%nat (pendingItem "a" "Beatles - Yesterday.mp3"))
    as (b & Hb & Hs & He & _); [done|done|].
  by exists b.
Defined.

(** ** The artwork download of the single song form *)

(** C6 fails on the single song form.  The artwork host answers 404 with
    an error page.  The bulk pipeline checks the status: the item ends in
    error without cover art.  [handleFetchInfo] does not: it reports no
    error and attaches the error page as the cover art of the form. *)
Theorem handleFetchInfo_ignores_artwork_status :
  let w := with_form (typedForm "Yesterday") initialWorld in
  let w' := (handleFetchInfo brokenArtEnv w).2 in
  let bulk :=
    (handleProcessQueue brokenArtEnv
       (stagedWorld [pendingItem "a" "Beatles - Yesterday.mp3"])).2 in
  let notFound :=
    {| resp_status := 404; resp_json := Rejected "Unexpected token";
       resp_blob := notFoundBlob |} in
  fetch brokenArtEnv 1 "http://x/600x600bb.jpg" = Resolved notFound ∧
  resp_ok notFound = false ∧
  (λ b : StagedFile.t,
     (StagedFile.status b, StagedFile.error b, StagedFile.coverArtFile b))
    <$> stagedFiles bulk
    = [(error, Some "Failed to download cover art.", None)] ∧
  fetched_urls (events_since w w')
    = ["https://itunes.apple.com/search?term=Yesterday&entity=song&limit=1";
       "http://x/600x600bb.jpg"] ∧
  f_error (form w') = None ∧
  f_coverArtFile (form w')
    = Some {| file_name := "cover.jpg"; lastModified := 1704067200000;
              file_bytes := blob_bytes notFoundBlob;
              file_type := "text/html" |}.
Proof. by vm_compute. Qed.

(** * The rest of the program *)
(** ** Further properties of the bulk uploader *)

Lemma errorMessage_nonempty (e : Exn) : is_empty (errorMessage e) = false.
Proof. unfold errorMessage. by destruct (exn_message e). Qed.

Lemma finish_well_marked (o : Outcome (SongDetails.t * File))
    (a : StagedFile.t) :
  o ≠ Unsettled →
  well_marked (finish o (markProcessing a)) ∧
  is_terminal (finish o (markProcessing a)).
Proof.
  intros Ho. destruct o as [[d cv]|e|]; [| |done]; cbn.
  - split; [split|by left]; cbn; [|done]. intros _. by split; eexists.
  - split; [split|by right]; cbn; [done|]. intros _. eexists.
    split; [done|]. apply errorMessage_nonempty.
Qed.

(** The two updates of an attempt, with what they leave on the items
    they touch. *)
Lemma attempt_updates_marked (x : string) (o : Outcome (SongDetails.t * File))
    (st : list StagedFile.t) :
  o ≠ Unsettled →
  Forall2
    (λ a b, StagedFile.id b = StagedFile.id a ∧
            (StagedFile.id a = x → is_terminal b ∧ well_marked b) ∧
            (StagedFile.id a ≠ x → b = a))
    st (updateById x (finish o) (updateById x markProcessing st)).
Proof.
  intros Ho.
  unfold updateById. rewrite <- list_fmap_compose.
  apply Forall2_fmap_r, Forall_Forall2_diag, Forall_forall.
  intros a _. cbn. destruct (decide (StagedFile.id a = x)) as [Hx|Hx]; cbn.
  - rewrite decide_True by done.
    destruct (finish_status o (markProcessing a) Ho) as (Hid & _ & _).
    destruct (finish_well_marked o a Ho) as [Hw Ht].
    split; [by rewrite Hid|]. split; [done|]. congruence.
  - rewrite decide_False by done. by repeat split.
Qed.

(** After the loop, an item that bears the id of a pending item of the
    snapshot is settled and well marked; the others are as they were. *)
Lemma processQueueLoop_settles (env : Env) (rest : list StagedFile.t)
    (c : nat) (w : World) :
  Forall2
    (λ a b, StagedFile.id b = StagedFile.id a ∧
            (StagedFile.id a ∈ StagedFile.id <$> filter is_pending rest →
             is_terminal b ∧ well_marked b) ∧
            (StagedFile.id a ∉ StagedFile.id <$> filter is_pending rest →
             b = a))
    (stagedFiles w) (stagedFiles (processQueueLoop env rest c w).2).
Proof.
  revert c w. induction rest as [|sf rest IH]; intros c w.
  - cbn. apply Forall_Forall2_diag, Forall_forall. intros a _.
    split; [done|]. split; [|done]. by intros ?%elem_of_nil.
  - cbn [processQueueLoop]. unfold mbind, M_bind.
    destruct (decide (is_pending sf)) as [Hp|Hp].
    + rewrite filter_cons_True by done.
      destruct (processQueueItem_pending env sf c w Hp) as (Ho & Hst & _).
      destruct (processQueueItem env sf c w) as [o w1]. cbn in Ho, Hst.
      subst o. cbn [fst snd].
      eapply Forall2_chain;
        [|apply (attempt_updates_marked (StagedFile.id sf)
                   (processFile env (StagedFile.file sf) w).1),
                processFile_settles
         |rewrite <- Hst; apply IH].
      cbn. intros a b d (Hid & Hx & Hne) (Hid' & Hin & Hnin).
      split; [congruence|]. rewrite Hid in *. split.
      * intros [Heq|Hr]%elem_of_cons.
        -- destruct (decide (StagedFile.id a
                      ∈ StagedFile.id <$> filter is_pending rest)) as [Hi|Hi];
             [by apply Hin|].
           rewrite (Hnin Hi). by apply Hx.
        -- by apply Hin.
      * intros [Hn1 Hn2]%not_elem_of_cons.
        rewrite (Hnin Hn2). by apply Hne.
    + rewrite filter_cons_False by done.
      rewrite (processQueueItem_skip env sf c w Hp).
      apply (IH (S c) (with_processedCount (S c) w)).
Qed.

Lemma filter_length_0 {A} (P : A → Prop) `{∀ x, Decision (P x)}
    (l : list A) :
  Forall (λ x, ¬ P x) l → length (filter P l) = 0%nat.
Proof.
  induction 1 as [|x l Hx _ IH]; [done|].
  by rewrite filter_cons_False.
Qed.



Lemma mapM_newStagedFile_items (env : Env) (fs : list File) (w : World) :
  mapM (newStagedFile env) fs w =
  (Ok (imap (λ i file, stagedItemOf file (mathRandom env (tick w + i))) fs),
   with_tick (tick w + length fs) w).
Proof.
  revert w. induction fs as [|f fs IH]; intros w.
  - cbn. by rewrite Nat.add_0_r, with_tick_id.
  - eapply (mapM_cons_Ok _ _ _ _ (with_tick (S (tick w)) w)).
    + cbn. by rewrite Nat.add_0_r.
    + rewrite IH. cbn. f_equal.
      * f_equal. apply imap_ext. intros i x _. cbn. do 2 f_equal. lia.
      * unfold with_tick. cbn. f_equal. lia.
Qed.

(** X2.  Staging files appends one fresh pending item per file, in the
    order of the selection, after the items already staged, which it
    leaves as they are; it sends nothing to the model or the catalog and
    touches neither the store, the library nor the object URLs.  A
    selection without file list changes nothing. *)
Theorem handleFileChange_appends (env : Env) (fs : list File) (w : World) :
  let w' := (handleFileChange env (Some fs) w).2 in
  let added :=
    imap (λ i file, stagedItemOf file (mathRandom env (tick w + i))) fs in
  (handleFileChange env (Some fs) w).1 = Ok tt ∧
  stagedFiles w' = stagedFiles w ++ added ∧
  StagedFile.file <$> added = fs ∧
  Forall is_fresh_item added ∧
  events_since w w' = [EvSetStagedFiles (stagedFiles w ++ added)] ∧
  db w' = db w ∧ songs w' = songs w ∧ objectURLs w' = objectURLs w ∧
  processedCount w' = processedCount w ∧
  handleFileChange env None w = (Ok tt, w).
Proof.
  cbn zeta. unfold handleFileChange, mbind, M_bind.
  rewrite mapM_newStagedFile_items. cbn.
  repeat split; try done.
  - rewrite fmap_imap. cbn. clear. generalize (tick w). intros t.
    revert t. induction fs as [|f fs IH]; intros t; [done|].
    cbn. f_equal. apply (IH (S t)).
  - apply Forall_forall. intros sf Hsf.
    apply elem_of_lookup_imap in Hsf as (i & f & -> & _). by repeat split.
  - by erewrite events_since_app.
Qed.

(** X3.  Every operation on the staged collection keeps the items well
    marked: an item in success carries its details and its cover art, an
    item in error carries a non-empty message. *)
Theorem perform_keeps_well_marked (env : Env) (a : Action) (w : World) :
  Forall well_marked (stagedFiles w) →
  Forall well_marked (stagedFiles (perform env a w).2).
Proof.
  intros Hall. destruct a as [files| | |]; cbn [perform].
  - destruct (handleFileChange_run env files w) as (added & Hp & -> & _).
    apply Forall_app. split; [done|].
    eapply Forall_impl; [exact Hp|]. intros sf Hsf.
    unfold is_pending in Hsf. split; rewrite Hsf; discriminate.
  - rewrite handleProcessQueue_eq. cbn [snd].
    set (w1 := with_processedCount 0 (with_isProcessing true w)).
    pose proof (processQueueLoop_settles env (stagedFiles w) 0 w1) as HF.
    change (stagedFiles w1) with (stagedFiles w) in HF.
    cbn. apply Forall_forall. intros b Hb.
    apply list_elem_of_lookup in Hb as [i Hi].
    destruct (Forall2_lookup_r _ _ _ _ _ HF Hi) as (a & Ha & _ & Hin & Hnin).
    destruct (decide (StagedFile.id a
                ∈ StagedFile.id <$> filter is_pending (stagedFiles w)))
      as [Hd|Hd]; [by apply Hin|].
    rewrite (Hnin Hd). rewrite Forall_forall in Hall. apply Hall.
    by eapply list_elem_of_lookup_2.
  - destruct (handleAddSongsToLibrary_cases env w)
      as [[_ ->]|[(e & _ & ->)|(_ & data & _ & ->)]]; cbn [snd];
      [done|done|].
    destruct (store_settles env (tick w + length data)); cbn [snd].
    + unfold committed. cbn. constructor.
    + by destruct (addSongs_run env data w) as (_ & _ & -> & _).
  - cbn. constructor.
Qed.

Lemma perform_keeps_well_marked_witness :
  let w := stagedWorld [pendingItem "a" "Unknown - Noise.mp3";
                        pendingItem "b" "Beatles - Yesterday.mp3"] in
  let w' := (perform flakyEnv ProcessQueue w).2 in
  StagedFile.error <$> stagedFiles w'
    = [Some "Song not found on iTunes."; None] ∧
  Forall well_marked (stagedFiles w').
Proof.
  cbn zeta. split; [by vm_compute|].
  apply (perform_keeps_well_marked flakyEnv ProcessQueue).
  repeat constructor; discriminate.
Defined.

(** ** The failure modes of the per-item pipeline *)

(** The world once the model has been asked. *)
Lemma processFile_extraction_error (env : Env) (file : File) (w : World)
    (e : Exn) :
  extraction_error env w file = Some e →
  processFile env file w =
  (Throw e,
   with_tick (S (tick w))
     (with_log (log w ++ [EvGenerateContent (geminiPrompt (file_name file))])
        w)).
Proof.
  unfold extraction_error, processFile, callGenerateContent, emit, ask, lift,
    modify, throw. unfold mbind, M_bind. cbn -[processFile_resolve].
  destruct (generateContent env (tick w) (geminiPrompt (file_name file)))
    as [text|msg]; cbn -[processFile_resolve]; [|by intros [= <-]].
  destruct (jsonParse env text) as [ex|msg]; cbn -[processFile_resolve];
    [|by intros [= <-]].
  destruct (truthy (ex_title ex)), (truthy (ex_artist ex));
    cbn -[processFile_resolve]; try done; by intros [= <-].
Qed.

Lemma processFile_catalog_error (env : Env) (file : File) (w : World)
    (title artist : string) (e : Exn) :
  extraction_returns env w file title artist →
  catalog_error env w title artist = Some e →
  processFile env file w =
  (Throw e, after_lookup env w file title artist).
Proof.
  intros (text & Hg & Hj & Ht & Ha).
  unfold catalog_error, catalogUrlOf, processFile, callGenerateContent,
    callFetch, emit, ask, lift, modify, throw.
  unfold mbind, M_bind. cbn -[processFile_resolve].
  rewrite Hg. cbn -[processFile_resolve]. rewrite Hj.
  cbn -[processFile_resolve].
  destruct title as [|c1 t1]; [discriminate|].
  destruct artist as [|c2 a1]; [discriminate|].
  cbn -[processFile_resolve].
  destruct (fetch env (S (tick w)) _) as [resp|msg]; cbn -[processFile_resolve].
  - destruct (resp_ok resp); cbn -[processFile_resolve].
    + destruct (resp_json resp) as [data|msg]; [done|].
      intros [= <-]. unfold after_lookup. by log_norm.
    + intros [= <-]. unfold after_lookup. by log_norm.
  - intros [= <-]. unfold after_lookup. by log_norm.
Qed.

(** X4.  When the text extraction of an attempt fails (the model call is
    rejected, its answer does not parse, or the title or the artist is
    missing or empty), the attempt fails with that error, neither the
    catalog nor the artwork host is asked, and the item ends in error
    with the message of the error, its other fields as they were. *)
Theorem extraction_failure_stops_attempt (env : Env) (sf : StagedFile.t)
    (c : nat) (w : World) (e : Exn) :
  extraction_error env w (StagedFile.file sf) = Some e →
  let r := processFile env (StagedFile.file sf) w in
  r.1 = Throw e ∧
  fetched_urls (events_since w r.2) = [] ∧
  (is_pending sf →
   ∀ i a, stagedFiles w !! i = Some a →
          StagedFile.id a = StagedFile.id sf →
          stagedFiles (processQueueItem env sf c w).2 !! i
          = Some (markError (errorMessage e) (markProcessing a))).
Proof.
  intros He. cbn zeta.
  pose proof (processFile_extraction_error env _ w e He) as E.
  rewrite E. cbn [fst snd]. split; [done|]. split.
  - erewrite events_since_app; [|cbn; reflexivity]. reflexivity.
  - intros Hp i a Hi Hid.
    rewrite (processQueueItem_item env sf c w i a Hp Hi Hid). by rewrite E.
Qed.

Lemma extraction_failure_stops_attempt_witness :
  let sf := pendingItem "a" "Beatles - Yesterday.mp3" in
  let w := stagedWorld [sf] in
  (λ b : StagedFile.t, (StagedFile.status b, StagedFile.error b))
    <$> stagedFiles (processQueueItem blankTitleEnv sf 0 w).2
    = [(error, Some "AI could not determine title and artist.")] ∧
  fetched_urls
    (events_since w (processFile blankTitleEnv (StagedFile.file sf) w).2) = [].
Proof.
  cbn zeta. split; [by vm_compute|].
  by apply (extraction_failure_stops_attempt blankTitleEnv
              (pendingItem "a" "Beatles - Yesterday.mp3") 0
              (stagedWorld [pendingItem "a" "Beatles - Yesterday.mp3"])
              {| exn_kind := ExtractionError;
                 exn_message := "AI could not determine title and artist." |}).
Defined.

(** X5.  When the catalog request of an attempt fails (the request is
    rejected, the status is not 2xx, or the body does not parse), the
    attempt fails with that error, the artwork host is not asked, and
    the item ends in error with the message of the error. *)
Theorem catalog_failure_stops_attempt (env : Env) (sf : StagedFile.t)
    (c : nat) (w : World) (title artist : string) (e : Exn) :
  extraction_returns env w (StagedFile.file sf) title artist →
  catalog_error env w title artist = Some e →
  let r := processFile env (StagedFile.file sf) w in
  r.1 = Throw e ∧
  fetched_urls (events_since w r.2) = [catalogUrlOf env title artist] ∧
  (is_pending sf →
   ∀ i a, stagedFiles w !! i = Some a →
          StagedFile.id a = StagedFile.id sf →
          stagedFiles (processQueueItem env sf c w).2 !! i
          = Some (markError (errorMessage e) (markProcessing a))).
Proof.
  intros Hx He. cbn zeta.
  pose proof (processFile_catalog_error env _ w _ _ e Hx He) as E.
  rewrite E. cbn [fst snd]. split; [done|]. split.
  - erewrite events_since_app; [|cbn; reflexivity]. reflexivity.
  - intros Hp i a Hi Hid.
    rewrite (processQueueItem_item env sf c w i a Hp Hi Hid). by rewrite E.
Qed.

Lemma catalog_failure_stops_attempt_witness :
  let sf := pendingItem "a" "Beatles - Yesterday.mp3" in
  let w := stagedWorld [sf] in
  (λ b : StagedFile.t, (StagedFile.status b, StagedFile.error b))
    <$> stagedFiles (processQueueItem catalogDownEnv sf 0 w).2
    = [(error, Some "iTunes search failed.")] ∧
  fetched_urls
    (events_since w (processFile catalogDownEnv (StagedFile.file sf) w).2)
    = [catalogUrlOf catalogDownEnv "Yesterday" "The Beatles"].
Proof.
  cbn zeta. split; [by vm_compute|].
  apply (catalog_failure_stops_attempt catalogDownEnv
           (pendingItem "a" "Beatles - Yesterday.mp3") 0
           (stagedWorld [pendingItem "a" "Beatles - Yesterday.mp3"])
           "Yesterday" "The Beatles"
           {| exn_kind := CatalogResponseError;
              exn_message := "iTunes search failed." |}); [|done].
  by eexists.
Defined.

(** X6.  When the download of the artwork fails (the request is rejected
    or the status is not 2xx), the attempt of the bulk pipeline fails
    with that error after exactly two requests, and the item ends in
    error with the message of the error: no details and no cover art are
    attached to it. *)
Theorem artwork_failure_fails_item (env : Env) (sf : StagedFile.t)
    (c : nat) (w : World) (title artist : string) (data : ItunesData)
    (songData : ItunesResult) (rest : list ItunesResult) (url : string)
    (e : Exn) :
  lookup_returns env w (StagedFile.file sf) title artist data →
  resultCount data ≠ 0%Z → results data = songData :: rest →
  artworkUrl100 songData = Some url → is_empty url = false →
  artwork_error env (S (S (tick w))) (js_replace "100x100" "600x600" url)
    = Some e →
  let r := processFile env (StagedFile.file sf) w in
  r.1 = Throw e ∧
  fetched_urls (events_since w r.2)
    = [catalogUrlOf env title artist; js_replace "100x100" "600x600" url] ∧
  (is_pending sf →
   ∀ i a, stagedFiles w !! i = Some a →
          StagedFile.id a = StagedFile.id sf →
          stagedFiles (processQueueItem env sf c w).2 !! i
          = Some (markError (errorMessage e) (markProcessing a))).
Proof.
  intros Hl Hn Hr Hu Hne He. cbn zeta.
  assert (Hurl : highResArtworkUrlOf songData
                 = js_replace "100x100" "600x600" url).
  { unfold highResArtworkUrlOf. rewrite Hu. by destruct url. }
  assert (E : processFile env (StagedFile.file sf) w =
              (Throw e,
               after_fetch (after_lookup env w (StagedFile.file sf) title artist)
                 (js_replace "100x100" "600x600" url))).
  { rewrite (processFile_lookup env _ _ _ _ _ Hl).
    rewrite (processFile_resolve_match env _ _ _ _ _ _ Hn Hr). cbn zeta.
    change (tick (after_lookup env w (StagedFile.file sf) title artist))
      with (S (S (tick w))).
    rewrite highResArtworkUrlOf_empty, Hu, Hurl.
    unfold artwork_error in He.
    destruct url as [|ch url']; [discriminate|]. cbn [truthy negb].
    destruct (fetch env (S (S (tick w))) _) as [resp|msg].
    - destruct (resp_ok resp); [discriminate|]. by injection He as <-.
    - by injection He as <-. }
  rewrite E. cbn [fst snd]. split; [done|]. split.
  - erewrite events_since_app; [|cbn; log_norm; reflexivity]. reflexivity.
  - intros Hp i a Hi Hid.
    rewrite (processQueueItem_item env sf c w i a Hp Hi Hid). by rewrite E.
Qed.

Lemma artwork_failure_fails_item_witness :
  let sf := pendingItem "a" "Beatles - Yesterday.mp3" in
  let w := stagedWorld [sf] in
  (λ b : StagedFile.t,
     (StagedFile.status b, StagedFile.error b, StagedFile.songDetails b,
      StagedFile.coverArtFile b))
    <$> stagedFiles (processQueueItem brokenArtEnv sf 0 w).2
    = [(error, Some "Failed to download cover art.", None, None)] ∧
  (processFile brokenArtEnv (StagedFile.file sf) w).1
    = Throw {| exn_kind := ArtworkFetchError;
               exn_message := "Failed to download cover art." |}.
Proof.
  cbn zeta. split; [by vm_compute|].
  apply (artwork_failure_fails_item brokenArtEnv
           (pendingItem "a" "Beatles - Yesterday.mp3") 0
           (stagedWorld [pendingItem "a" "Beatles - Yesterday.mp3"])
           "Yesterday" "The Beatles" oneMatch helpResult []
           "http://x/100x100bb.jpg"); try done.
  by eexists _, _.
Defined.

(** X7.  A catalog answer that announces results (a result count other
    than zero) and carries none makes the attempt fail on the read of
    the first result: the item ends in error with the message of the
    [TypeError], not with the message of a lookup miss. *)
Theorem hollow_catalog_answer (env : Env) (sf : StagedFile.t) (c : nat)
    (w : World) (title artist : string) (data : ItunesData) :
  lookup_returns env w (StagedFile.file sf) title artist data →
  resultCount data ≠ 0%Z → results data = [] →
  let msg := "Cannot read properties of undefined (reading 'trackName')" in
  (processFile env (StagedFile.file sf) w).1
    = Throw {| exn_kind := RuntimeError; exn_message := msg |} ∧
  (is_pending sf →
   ∀ i a, stagedFiles w !! i = Some a →
          StagedFile.id a = StagedFile.id sf →
          stagedFiles (processQueueItem env sf c w).2 !! i
          = Some (markError msg (markProcessing a))).
Proof.
  intros Hl Hn Hr. cbn zeta.
  assert (E : (processFile env (StagedFile.file sf) w).1
              = Throw {| exn_kind := RuntimeError;
                         exn_message :=
                           "Cannot read properties of undefined (reading 'trackName')" |}).
  { rewrite (processFile_lookup env _ _ _ _ _ Hl).
    unfold processFile_resolve, first_result.
    rewrite (proj2 (Z.eqb_neq _ _) Hn), Hr. reflexivity. }
  split; [exact E|].
  intros Hp i a Hi Hid.
  rewrite (processQueueItem_item env sf c w i a Hp Hi Hid). by rewrite E.
Qed.

Lemma hollow_catalog_answer_witness :
  let sf := pendingItem "a" "Beatles - Yesterday.mp3" in
  let w := stagedWorld [sf] in
  (λ b : StagedFile.t, (StagedFile.status b, StagedFile.error b))
    <$> stagedFiles (handleProcessQueue hollowEnv w).2
    = [(error,
        Some "Cannot read properties of undefined (reading 'trackName')")] ∧
  (processFile hollowEnv (StagedFile.file sf) w).1
    = Throw {| exn_kind := RuntimeError;
               exn_message :=
                 "Cannot read properties of undefined (reading 'trackName')" |}.
Proof.
  cbn zeta. split; [by vm_compute|].
  apply (hollow_catalog_answer hollowEnv
           (pendingItem "a" "Beatles - Yesterday.mp3") 0
           (stagedWorld [pendingItem "a" "Beatles - Yesterday.mp3"])
           "Yesterday" "The Beatles" {| resultCount := 1; results := [] |});
    try done.
  by eexists _, _.
Defined.

(** ** What processing costs and what it leaves alone *)

(** An attempt asks the catalog and the artwork host at most twice. *)
Lemma processFile_fetch_budget (env : Env) (file : File) (w : World) :
  (length (fetched_urls (events_since w (processFile env file w).2)) ≤ 2)%nat.
Proof.
  unfold processFile, processFile_resolve, callGenerateContent, callFetch,
    newFile, first_result, emit, ask, lift, modify, throw.
  unfold mbind, M_bind, mret, M_ret. cbn.
  repeat case_match; simplify_eq/=;
    (erewrite events_since_app; [|cbn; log_norm; reflexivity]); cbn; lia.
Qed.

Lemma observe_quiet (l : list Event) :
  Forall is_quiet l → created_urls l = [] ∧ revoked_urls l = [] ∧
                      transactions l = [].
Proof.
  induction 1 as [|e l He _ (IH1 & IH2 & IH3)]; [done|].
  unfold created_urls, revoked_urls, transactions in *. cbn.
  rewrite IH1, IH2, IH3. by destruct e.
Qed.

Lemma fetched_urls_app (l1 l2 : list Event) :
  fetched_urls (l1 ++ l2) = fetched_urls l1 ++ fetched_urls l2.
Proof. apply omap_app. Qed.

(** The events of the attempt on a pending item of the snapshot. *)
Lemma processQueueItem_events (env : Env) (sf : StagedFile.t) (c : nat)
    (w : World) :
  is_pending sf →
  ∃ evs,
    log (processQueueItem env sf c w).2 = log w ++ evs ∧
    (length (fetched_urls evs) ≤ 2)%nat ∧
    created_urls evs = [] ∧ revoked_urls evs = [] ∧ transactions evs = [].
Proof.
  intros Hp. unfold processQueueItem.
  rewrite decide_False by (rewrite Hp; auto).
  unfold_monad. cbn. set (w1 := with_log _ _).
  pose proof (processFile_fetch_budget env (StagedFile.file sf) w1) as Hb.
  destruct (processFile_run env (StagedFile.file sf) w1)
    as (evs & Hlog & Hfe & _).
  rewrite (events_since_app w1 _ _ Hlog) in Hb.
  assert (Hq : Forall is_quiet evs)
    by (eapply Forall_impl; [exact Hfe|]; by intros []).
  destruct (observe_quiet evs Hq) as (Hc & Hr & Ht).
  unfold fetched_urls, created_urls, revoked_urls, transactions in *.
  cbn in Hb.
  pose proof (processFile_settles env (StagedFile.file sf) w1) as Hs.
  destruct (processFile env (StagedFile.file sf) w1) as [[r|e|] w2];
    [| |done];
    cbn in *; rewrite Hlog; subst w1; cbn;
    (eexists; split; [log_norm; reflexivity|]);
    cbn; rewrite !omap_app, ?Hc, ?Hr, ?Ht; cbn; rewrite ?app_nil_r;
    by repeat split.
Qed.

(** The loop asks at most twice per pending item of the snapshot, and
    neither creates nor revokes an object URL, nor writes to the store. *)
Lemma processQueueLoop_events (env : Env) (rest : list StagedFile.t)
    (c : nat) (w : World) :
  ∃ evs,
    log (processQueueLoop env rest c w).2 = log w ++ evs ∧
    (length (fetched_urls evs) ≤ 2 * length (filter is_pending rest))%nat ∧
    created_urls evs = [] ∧ revoked_urls evs = [] ∧ transactions evs = [].
Proof.
  revert c w. induction rest as [|sf rest IH]; intros c w.
  - exists []. cbn. by rewrite app_nil_r.
  - cbn [processQueueLoop]. unfold mbind, M_bind.
    destruct (decide (is_pending sf)) as [Hp|Hp].
    + rewrite filter_cons_True by done.
      destruct (processQueueItem_events env sf c w Hp)
        as (evs1 & Hl1 & Hf1 & Hc1 & Hr1 & Ht1).
      destruct (processQueueItem_pending env sf c w Hp) as (Ho & _).
      destruct (processQueueItem env sf c w) as [o w1]. cbn in Ho, Hl1.
      subst o.
      destruct (IH (S c) w1) as (evs2 & Hl2 & Hf2 & Hc2 & Hr2 & Ht2).
      exists (evs1 ++ evs2). split; [rewrite Hl2, Hl1; by rewrite app_assoc|].
      unfold fetched_urls, created_urls, revoked_urls, transactions in *.
      rewrite !omap_app, Hc1, Hc2, Hr1, Hr2, Ht1, Ht2, length_app. cbn in *.
      split; [lia|done].
    + rewrite filter_cons_False by done.
      rewrite (processQueueItem_skip env sf c w Hp).
      destruct (IH (S c) (with_processedCount (S c) w))
        as (evs2 & Hl2 & Hrest). by exists evs2.
Qed.

(** X8.  A run of the batch processor sends exactly one prompt to the
    model per pending item and asks the catalog and the artwork host at
    most twice per pending item.  It creates and revokes no object URL
    and writes nothing to the store: the object URLs, the store, the
    library and the single song form are as before. *)
Theorem handleProcessQueue_budget (env : Env) (w : World) :
  let w' := (handleProcessQueue env w).2 in
  let evs := events_since w w' in
  length (gemini_prompts evs) = pendingCount w ∧
  (length (fetched_urls evs) ≤ 2 * pendingCount w)%nat ∧
  created_urls evs = [] ∧ revoked_urls evs = [] ∧ transactions evs = [] ∧
  objectURLs w' = objectURLs w ∧ db w' = db w ∧ songs w' = songs w ∧
  form w' = form w.
Proof.
  cbn zeta. rewrite handleProcessQueue_eq. cbn [snd].
  set (w1 := with_processedCount 0 (with_isProcessing true w)).
  destruct (processQueueLoop_run env (stagedFiles w) 0 w1)
    as (_ & (evs & Hlog & Hg) & _ & Hu & Hdb & Hs & _ & Hf).
  destruct (processQueueLoop_events env (stagedFiles w) 0 w1)
    as (evs' & Hlog' & Hfe & Hc & Hr & Ht).
  rewrite Hlog in Hlog'. apply app_inv_head in Hlog'. subst evs'.
  rewrite (events_since_app w _ evs) by done.
  rewrite Hg, length_fmap. by repeat split.
Qed.

(** ** The single song form *)

Lemma form_keeps_refl (w : World) : form_keeps w w.
Proof. by repeat split. Qed.

Lemma form_keeps_trans (w1 w2 w3 : World) :
  form_keeps w1 w2 → form_keeps w2 w3 → form_keeps w1 w3.
Proof.
  intros (?&?&?&?&?&?&?&?) (?&?&?&?&?&?&?&?). repeat split; congruence.
Qed.

Lemma asks_silent {A} (m : M A) :
  (∀ w, log (m w).2 = log w ∧ form_keeps w (m w).2) → asks 0 m.
Proof.
  intros H w. destruct (H w) as [Hl Hk]. exists [].
  rewrite app_nil_r. split; [done|]. split; [cbn; lia|].
  repeat (split; [done|]). exact Hk.
Qed.

Lemma asks_ret {A} (a : A) : asks 0 (mret a).
Proof. apply asks_silent. intros w. split; [done|apply form_keeps_refl]. Qed.

Lemma asks_throw {A} (k : ErrorKind) (msg : string) : asks 0 (@throw A k msg).
Proof. apply asks_silent. intros w. split; [done|apply form_keeps_refl]. Qed.

Lemma asks_lift {A} (r : Reply A) : asks 0 (lift r).
Proof.
  apply asks_silent. intros w. unfold lift.
  destruct r; (split; [done|apply form_keeps_refl]).
Qed.

Lemma asks_ask {A} (oracle : nat → A) : asks 0 (ask oracle).
Proof. apply asks_silent. intros w. by repeat split. Qed.

Lemma asks_gets {A} (f : World → A) : asks 0 (gets f).
Proof. apply asks_silent. intros w. split; [done|apply form_keeps_refl]. Qed.

Lemma asks_first_result (prop : string) (data : ItunesData) :
  asks 0 (first_result prop data).
Proof. unfold first_result. destruct (results data); [apply asks_throw|apply asks_ret]. Qed.

Lemma asks_setArtist (v : option string) : asks 0 (setArtist v).
Proof. apply asks_silent. intros w. by repeat split. Qed.

Lemma asks_setAlbum (v : option string) : asks 0 (setAlbum v).
Proof. apply asks_silent. intros w. by repeat split. Qed.

Lemma asks_setCoverArtFile (v : option File) : asks 0 (setCoverArtFile v).
Proof. apply asks_silent. intros w. by repeat split. Qed.

Lemma asks_setCoverArtPreview (v : option ObjectURL) :
  asks 0 (setCoverArtPreview v).
Proof. apply asks_silent. intros w. by repeat split. Qed.

Lemma asks_setIsFetching (b : bool) : asks 0 (setIsFetching b).
Proof. apply asks_silent. intros w. by repeat split. Qed.

Lemma asks_setError (v : option string) : asks 0 (setError v).
Proof. apply asks_silent. intros w. by repeat split. Qed.

Lemma asks_createObjectURL (f : File) : asks 0 (createObjectURL f).
Proof.
  intros w. eexists [_]. split; [reflexivity|].
  repeat split; try done; cbn; lia.
Qed.

Lemma asks_revokePreview (p : option ObjectURL) : asks 0 (revokePreview p).
Proof.
  destruct p as [u|]; [|apply asks_ret].
  intros w. eexists [_]. split; [reflexivity|].
  repeat split; try done; cbn; lia.
Qed.

Lemma asks_callFetch (env : Env) (url : string) : asks 1 (callFetch env url).
Proof.
  intros w. exists [EvFetch url]. unfold callFetch, emit, ask, lift, modify.
  unfold mbind, M_bind. cbn.
  destruct (fetch env (tick w) url); cbn; repeat split; try done; lia.
Qed.

Lemma asks_newFile (env : Env) (blob : Blob) (name : string) :
  asks 0 (newFile env blob name).
Proof. apply asks_silent. intros w. by repeat split. Qed.

Lemma asks_bind {A B} (n1 n2 : nat) (m : M A) (f : A → M B) :
  asks n1 m → (∀ a, asks n2 (f a)) → asks (n1 + n2) (m ≫= f).
Proof.
  intros Hm Hf w. unfold mbind, M_bind.
  destruct (Hm w) as (evs & Hl & Hn & Hg & Ht & Hs & Hk).
  destruct (m w) as [[a|e|] w1]; cbn in *.
  - destruct (Hf a w1) as (evs' & Hl' & Hn' & Hg' & Ht' & Hs' & Hk').
    exists (evs ++ evs'). split; [rewrite Hl', Hl; by rewrite app_assoc|].
    unfold fetched_urls, gemini_prompts, transactions, staged_updates in *.
    rewrite !omap_app, length_app, Hg, Hg', Ht, Ht', Hs, Hs'.
    split; [lia|]. repeat (split; [done|]). by eapply form_keeps_trans.
  - exists evs. split; [done|]. split; [lia|]. by repeat (split; [done|]).
  - exists evs. split; [done|]. split; [lia|]. by repeat (split; [done|]).
Qed.

Lemma asks_le {A} (n n' : nat) (m : M A) :
  asks n m → (n ≤ n')%nat → asks n' m.
Proof.
  intros Hm Hle w. destruct (Hm w) as (evs & Hl & Hn & Hrest).
  exists evs. split; [done|]. split; [lia|done].
Qed.

Lemma asks_if {A} (n1 n2 : nat) (b : bool) (m1 m2 : M A) :
  asks n1 m1 → asks n2 m2 → asks (n1 `max` n2) (if b then m1 else m2).
Proof.
  intros H1 H2. destruct b; (eapply asks_le; [eassumption|lia]).
Qed.

(** The [try] block of [handleFetchInfo] asks at most twice. *)
Lemma fetchInfoBody_asks (env : Env) (title : string)
    (preview : option ObjectURL) :
  asks 2 (fetchInfoBody env title preview).
Proof.
  unfold fetchInfoBody. cbn zeta.
  eapply asks_le.
  { eapply asks_bind; [apply asks_callFetch|intros response].
    eapply asks_if; [apply asks_throw|].
    eapply asks_bind; [apply asks_lift|intros data].
    eapply asks_if; [apply asks_throw|].
    eapply asks_bind; [apply asks_first_result|intros result].
    eapply asks_bind; [apply asks_setArtist|intros _].
    eapply asks_bind; [apply asks_setAlbum|intros _].
    instantiate (1 := 1%nat).
    destruct (artworkUrl100 result) as [url|];
      [|eapply asks_le; [apply asks_throw|lia]].
    eapply asks_le.
    { eapply asks_bind; [apply asks_callFetch|intros artResponse].
      eapply asks_bind; [apply asks_newFile|intros artFile].
      eapply asks_bind; [apply asks_setCoverArtFile|intros _].
      eapply asks_bind; [apply asks_revokePreview|intros _].
      eapply asks_bind; [apply asks_createObjectURL|intros u].
      apply asks_setCoverArtPreview. }
    cbn. lia. }
  cbn. lia.
Qed.

Lemma settles_createObjectURL (f : File) : settles (createObjectURL f).
Proof. by intros w. Qed.

(** The [try] block of [handleFetchInfo] awaits the catalog and the
    artwork host only. *)
Lemma fetchInfoBody_settles (env : Env) (title : string)
    (preview : option ObjectURL) :
  settles (fetchInfoBody env title preview).
Proof.
  unfold fetchInfoBody, first_result, newFile, setArtist, setAlbum,
    setCoverArtFile, setCoverArtPreview, setForm, revokeObjectURL.
  cbn zeta.
  repeat first
    [ apply settles_bind; [|intros ?]
    | apply settles_callFetch
    | apply settles_createObjectURL
    | apply settles_modify
    | apply settles_ask
    | apply settles_lift
    | apply settles_throw
    | apply settles_ret
    | case_match ].
Qed.

(** [handleFetchInfo], with the [try] block taken as a whole. *)
Lemma handleFetchInfo_eq (env : Env) (w : World) :
  handleFetchInfo env w =
  if is_empty (f_title (form w)) then
    setError (Some "Please enter a song title to fetch info.") w
  else
    let w1 := (setError None (setIsFetching true w).2).2 in
    match fetchInfoBody env (f_title (form w)) (f_coverArtPreview (form w)) w1
    with
    | (Ok _, w2) => setIsFetching false w2
    | (Throw e, w2) =>
        setIsFetching false (setError (Some (exn_message e)) w2).2
    | (Unsettled, w2) => (Unsettled, w2)
    end.
Proof.
  unfold handleFetchInfo, gets.
  unfold mbind at 1 2, M_bind at 1 2.
  destruct (is_empty (f_title (form w))); [done|].
  cbn zeta. unfold try_finally, try_catch, mbind, M_bind.
  cbn -[fetchInfoBody].
  by destruct (fetchInfoBody env _ _ _) as [[[]|e|] w2].
Qed.

(** X9.  [handleFetchInfo] never throws.  Without title it only sets an
    error and asks nothing.  With a title it asks the catalog and the
    artwork host at most twice and always lowers the fetching flag in the
    end, whatever fails.  In all cases it sends nothing to the model and
    nothing to the store, and the title, the audio file, the store, the
    library and the staged batch are as before. *)
Theorem handleFetchInfo_settles (env : Env) (w : World) :
  let w' := (handleFetchInfo env w).2 in
  let evs := events_since w w' in
  (handleFetchInfo env w).1 = Ok tt ∧
  (is_empty (f_title (form w)) = true →
   evs = [] ∧ tick w' = tick w ∧
   f_error (form w') = Some "Please enter a song title to fetch info." ∧
   f_isFetching (form w') = f_isFetching (form w) ∧
   f_coverArtFile (form w') = f_coverArtFile (form w) ∧
   objectURLs w' = objectURLs w) ∧
  (is_empty (f_title (form w)) = false → f_isFetching (form w') = false) ∧
  (length (fetched_urls evs) ≤ 2)%nat ∧
  gemini_prompts evs = [] ∧ transactions evs = [] ∧
  form_keeps w w'.
Proof.
  cbn zeta. rewrite handleFetchInfo_eq.
  destruct (is_empty (f_title (form w))) eqn:Et.
  - rewrite (events_since_app w _ []) by (cbn; by rewrite app_nil_r).
    cbn. repeat split; try done. lia.
  - cbn zeta.
    set (w1 := (setError None (setIsFetching true w).2).2).
    destruct (fetchInfoBody_asks env (f_title (form w))
                (f_coverArtPreview (form w)) w1)
      as (evs & Hl & Hn & Hg & Ht & _ & Hk).
    assert (Hk1 : form_keeps w w1) by (by repeat split).
    pose proof (form_keeps_trans _ _ _ Hk1 Hk) as Hk2.
    pose proof (fetchInfoBody_settles env (f_title (form w))
                  (f_coverArtPreview (form w)) w1) as Hset.
    destruct (fetchInfoBody env _ _ w1) as [[[]|e|] w2]; [| |done];
      cbn [fst snd] in *;
      (rewrite (events_since_app w _ evs) by (cbn; exact Hl)); cbn;
      (split; [done|]); (split; [done|]); (split; [done|]);
      (split; [done|]); (split; [done|]); (split; [done|]);
      destruct Hk2 as (?&?&?&?&?&?&?&?); by repeat split.
Qed.

Lemma handleFetchInfo_settles_witness :
  let w := typedWorld EmptyString in
  let w' := (handleFetchInfo happyEnv w).2 in
  f_error (form w') = Some "Please enter a song title to fetch info." ∧
  events_since w w' = [] ∧
  fetched_urls (events_since (typedWorld "Yesterday")
                  (handleFetchInfo happyEnv (typedWorld "Yesterday")).2)
    = ["https://itunes.apple.com/search?term=Yesterday&entity=song&limit=1";
       "http://x/600x600bb.jpg"].
Proof.
  cbn zeta.
  destruct (handleFetchInfo_settles happyEnv (typedWorld EmptyString))
    as (_ & H & _).
  destruct (H eq_refl) as (Hevs & _ & Herr & _).
  split; [exact Herr|]. split; [exact Hevs|]. by vm_compute.
Defined.

Lemma includes_intro (needle pre post : string) :
  includes needle (pre +:+ needle +:+ post) = true.
Proof.
  induction pre as [|c pre IH].
  - rewrite append_nil_l.
    destruct (strip_prefix needle (needle +:+ post)) as [r|] eqn:E.
    + destruct (needle +:+ post); cbn [includes]; by rewrite E.
    + pose proof (proj2 (strip_prefix_Some needle (needle +:+ post) post)
                    eq_refl). congruence.
  - rewrite append_cons. cbn [includes].
    by destruct (strip_prefix needle (String c (pre +:+ needle +:+ post))).
Qed.

Lemma includes_skip (needle pre s : string) :
  includes needle s = true → includes needle (pre +:+ s) = true.
Proof.
  intros H. induction pre as [|c pre IH]; [done|].
  rewrite append_cons. cbn [includes].
  by destruct (strip_prefix needle (String c (pre +:+ s))).
Qed.

(** The [try] block when the catalog finds nothing. *)
Lemma fetchInfoBody_miss (env : Env) (w w1 : World) (data : ItunesData)
    (preview : option ObjectURL) :
  form_lookup_returns env w data → resultCount data = 0%Z →
  tick w1 = tick w →
  fetchInfoBody env (f_title (form w)) preview w1 =
  (Throw {| exn_kind := LookupError;
            exn_message := noResultsMessage (f_title (form w)) |},
   after_fetch w1
     (itunesSearchUrl (encodeURIComponent env (f_title (form w))))).
Proof.
  intros (_ & resp & Hf & Hok & Hj) Hz Ht.
  unfold fetchInfoBody, callFetch, emit, ask, lift, modify, throw.
  unfold mbind, M_bind. cbn. rewrite Ht, Hf. cbn. rewrite Hok, Hj. cbn.
  rewrite Hz. unfold after_fetch. rewrite Ht. reflexivity.
Qed.

(** X10.  When the catalog answers the search of the single song form
    with zero results, the form reports an error that quotes the typed
    title; one request was made, and the artist, the album, the cover
    art, its preview and the object URLs are as before. *)
Theorem handleFetchInfo_no_results (env : Env) (w : World)
    (data : ItunesData) :
  form_lookup_returns env w data → resultCount data = 0%Z →
  let w' := (handleFetchInfo env w).2 in
  f_error (form w') = Some (noResultsMessage (f_title (form w))) ∧
  includes (f_title (form w)) (noResultsMessage (f_title (form w))) = true ∧
  fetched_urls (events_since w w')
    = [itunesSearchUrl (encodeURIComponent env (f_title (form w)))] ∧
  f_artist (form w') = f_artist (form w) ∧
  f_album (form w') = f_album (form w) ∧
  f_coverArtFile (form w') = f_coverArtFile (form w) ∧
  f_coverArtPreview (form w') = f_coverArtPreview (form w) ∧
  objectURLs w' = objectURLs w.
Proof.
  intros Hl Hz. cbn zeta. rewrite handleFetchInfo_eq.
  rewrite (proj1 Hl). cbn zeta.
  erewrite (fetchInfoBody_miss env w _ data _ Hl Hz) by done.
  split; [done|].
  split; [unfold noResultsMessage; apply includes_skip, includes_intro|].
  split; [|done].
  erewrite events_since_app; [|cbn; reflexivity]. reflexivity.
Qed.

Lemma handleFetchInfo_no_results_witness :
  let w := typedWorld "Yesterday" in
  let w' := (handleFetchInfo missEnv w).2 in
  f_error (form w')
    = Some (noResultsMessage "Yesterday") ∧
  f_coverArtFile (form w') = None.
Proof.
  cbn zeta.
  destruct (handleFetchInfo_no_results missEnv (typedWorld "Yesterday")
              noMatch) as (He & _ & _ & _ & _ & Hc & _);
    [by split; [|eexists]|done|].
  by split.
Defined.

Ltac form_run Hl Hn Hr :=
  let resp := fresh "resp" in
  let Hf := fresh "Hf" in
  let Hok := fresh "Hok" in
  let Hj := fresh "Hj" in
  let Ht := fresh "Ht" in
  destruct Hl as (Ht & resp & Hf & Hok & Hj);
  rewrite handleFetchInfo_eq, Ht; cbn zeta;
  unfold fetchInfoBody, first_result, callFetch, newFile, setArtist, setAlbum,
    setCoverArtFile, setCoverArtPreview, setIsFetching, setError, setForm,
    revokePreview, createObjectURL, revokeObjectURL, emit, ask, lift, modify,
    throw;
  unfold mbind, M_bind, mret, M_ret; cbn;
  rewrite Hf; cbn; rewrite Hok, Hj; cbn;
  rewrite (proj2 (Z.eqb_neq _ _) Hn), Hr; cbn.

(** X11.  When the catalog returns a match but the artwork step throws
    (the match has no artwork URL, or the artwork request is rejected),
    the form has already taken the artist and the album of the match: it
    ends with these, with the message of the error, and with the cover
    art, its preview and the object URLs as before. *)
Theorem handleFetchInfo_partial_update (env : Env) (w : World)
    (data : ItunesData) (result : ItunesResult) (rest : list ItunesResult)
    (msg : string) :
  form_lookup_returns env w data →
  resultCount data ≠ 0%Z → results data = result :: rest →
  form_artwork_error env w result = Some msg →
  let w' := (handleFetchInfo env w).2 in
  f_error (form w') = Some msg ∧
  f_artist (form w') = artistName result ∧
  f_album (form w') = collectionName result ∧
  f_coverArtFile (form w') = f_coverArtFile (form w) ∧
  f_coverArtPreview (form w') = f_coverArtPreview (form w) ∧
  f_isFetching (form w') = false ∧
  objectURLs w' = objectURLs w.
Proof.
  intros Hl Hn Hr He. cbn zeta. unfold form_artwork_error in He.
  form_run Hl Hn Hr.
  destruct (artworkUrl100 result) as [url|]; cbn.
  - destruct (fetch env (S (tick w)) (js_replace "100x100" "600x600" url))
      as [artResp|m]; [discriminate|]. injection He as <-. by cbn.
  - by injection He as <-.
Qed.

Lemma handleFetchInfo_partial_update_witness :
  let w := typedWorld "Yesterday" in
  let w' := (handleFetchInfo noArtworkEnv w).2 in
  f_error (form w')
    = Some "Cannot read properties of undefined (reading 'replace')" ∧
  f_artist (form w') = Some "The Beatles" ∧
  f_album (form w') = Some "Help!" ∧
  f_coverArtFile (form w') = None.
Proof.
  cbn zeta.
  destruct (handleFetchInfo_partial_update noArtworkEnv
              (typedWorld "Yesterday")
              {| resultCount := 1; results := [noArtworkResult] |}
              noArtworkResult []
              "Cannot read properties of undefined (reading 'replace')")
    as (He & Ha & Hb & Hc & _); try done.
  by split; [|eexists].
Defined.

(** X12.  When the catalog returns a match with an artwork URL and the
    artwork is served with a 2xx status, the form takes the artist and
    the album of the match and a cover art file named cover.jpg made of
    the body served; the preview shown before is revoked, and the new
    preview is a fresh object URL bound to that file.  No error is
    reported. *)
Theorem handleFetchInfo_fills_form (env : Env) (w : World)
    (data : ItunesData) (result : ItunesResult) (rest : list ItunesResult)
    (url : string) (artResp : Response) :
  form_lookup_returns env w data →
  resultCount data ≠ 0%Z → results data = result :: rest →
  artworkUrl100 result = Some url →
  fetch env (S (tick w)) (js_replace "100x100" "600x600" url)
    = Resolved artResp →
  resp_ok artResp = true →
  let w' := (handleFetchInfo env w).2 in
  let cover := coverArtOf env (S (S (tick w))) artResp in
  let kept := without_preview (f_coverArtPreview (form w)) (objectURLs w) in
  f_error (form w') = None ∧
  f_artist (form w') = artistName result ∧
  f_album (form w') = collectionName result ∧
  f_coverArtFile (form w') = Some cover ∧
  f_isFetching (form w') = false ∧
  ∃ u, f_coverArtPreview (form w') = Some u ∧
       kept !! u = None ∧
       objectURLs w' = <[u := cover]> kept ∧
       created_urls (events_since w w') = [u].
Proof.
  intros Hl Hn Hr Hu Hf2 Hok2. cbn zeta.
  form_run Hl Hn Hr. rewrite Hu. cbn. rewrite Hf2. cbn.
  destruct (f_coverArtPreview (form w)) as [old|]; cbn.
  - repeat split. eexists. split; [reflexivity|]. split; [|split].
    + apply not_elem_of_dom, is_fresh.
    + reflexivity.
    + erewrite events_since_app; [|cbn; log_norm; reflexivity]. reflexivity.
  - repeat split. eexists. split; [reflexivity|]. split; [|split].
    + apply not_elem_of_dom, is_fresh.
    + reflexivity.
    + erewrite events_since_app; [|cbn; log_norm; reflexivity]. reflexivity.
Qed.

Lemma handleFetchInfo_fills_form_witness :
  let w := typedWorld "Yesterday" in
  let w' := (handleFetchInfo happyEnv w).2 in
  f_artist (form w') = Some "The Beatles" ∧
  f_album (form w') = Some "Help!" ∧
  f_coverArtFile (form w') = Some coverFile ∧
  f_error (form w') = None.
Proof.
  cbn zeta.
  destruct (handleFetchInfo_fills_form happyEnv (typedWorld "Yesterday")
              oneMatch helpResult [] "http://x/100x100bb.jpg"
              {| resp_status := 200; resp_json := Rejected "Unexpected token";
                 resp_blob := coverBlob |})
    as (He & Ha & Hb & Hc & _); try done.
  by split; [|eexists].
Defined.

(** X13.  Choosing a cover art file sets it on the form, revokes the
    preview shown before and shows a fresh object URL bound to the
    chosen file; nothing is fetched and the rest of the form is kept.
    A change without file leaves the world as it is. *)
Theorem handleCoverArtChange_replaces_preview (f : File) (w : World) :
  let w' := (handleCoverArtChange (Some f) w).2 in
  let evs := events_since w w' in
  let kept := without_preview (f_coverArtPreview (form w)) (objectURLs w) in
  (handleCoverArtChange (Some f) w).1 = Ok tt ∧
  f_coverArtFile (form w') = Some f ∧
  (∃ u, f_coverArtPreview (form w') = Some u ∧
        kept !! u = None ∧
        objectURLs w' = <[u := f]> kept ∧
        created_urls evs = [u]) ∧
  revoked_urls evs = preview_urls (f_coverArtPreview (form w)) ∧
  fetched_urls evs = [] ∧
  f_artist (form w') = f_artist (form w) ∧
  f_album (form w') = f_album (form w) ∧
  f_error (form w') = f_error (form w) ∧
  form_keeps w w' ∧
  handleCoverArtChange None w = (Ok tt, w).
Proof.
  cbn zeta.
  unfold handleCoverArtChange, revokePreview, setCoverArtFile,
    setCoverArtPreview, setForm, createObjectURL, revokeObjectURL, gets,
    modify. unfold mbind, M_bind, mret, M_ret. cbn.
  destruct (f_coverArtPreview (form w)) as [old|]; cbn;
    (erewrite events_since_app; [|cbn; log_norm; reflexivity]); cbn;
    repeat split;
    eexists; (split; [reflexivity|]); (split; [|by split]);
    apply not_elem_of_dom, is_fresh.
Qed.

Lemma gets_bind {A B : Type} (f : World → A) (k : A → M B) (w : World) :
  (gets f ≫= k) w = k (f w) w.
Proof. reflexivity. Qed.

Lemma bind_Ok {A B : Type} (m : M A) (k : A → M B) (w w1 : World) (a : A) :
  m w = (Ok a, w1) → (m ≫= k) w = k a w1.
Proof. unfold mbind, M_bind. by intros ->. Qed.

Lemma formSongData_None (f : SingleForm) :
  formSongData f = None ↔
  is_empty (f_title f) = true ∨ truthy (f_artist f) = false ∨
  truthy (f_album f) = false ∨ f_audioFile f = None ∨
  f_coverArtFile f = None.
Proof.
  unfold formSongData.
  destruct (f_audioFile f), (f_coverArtFile f), (is_empty (f_title f)),
    (truthy (f_artist f)), (truthy (f_album f)); cbn; split; try done;
    try tauto; intros [|[|[|[|]]]]; done.
Qed.

(** X14.  A submission with a field missing (an empty title, artist or
    album, no audio file or no cover art) only reports an error: nothing
    is sent to the store, no object URL is created or revoked, and the
    library and the rest of the form are as before. *)
Theorem handleSubmit_requires_all_fields (env : Env) (w : World) :
  is_empty (f_title (form w)) = true ∨ truthy (f_artist (form w)) = false ∨
  truthy (f_album (form w)) = false ∨ f_audioFile (form w) = None ∨
  f_coverArtFile (form w) = None →
  let w' := (handleSubmit env w).2 in
  (handleSubmit env w).1 = Ok tt ∧
  f_error (form w')
    = Some "All fields, including audio and cover art, are required." ∧
  events_since w w' = [] ∧ tick w' = tick w ∧
  db w' = db w ∧ songs w' = songs w ∧ objectURLs w' = objectURLs w ∧
  f_title (form w') = f_title (form w) ∧
  f_artist (form w') = f_artist (form w) ∧
  f_album (form w') = f_album (form w) ∧
  f_audioFile (form w') = f_audioFile (form w) ∧
  f_coverArtFile (form w') = f_coverArtFile (form w) ∧
  f_coverArtPreview (form w') = f_coverArtPreview (form w) ∧
  f_isSubmitting (form w') = f_isSubmitting (form w).
Proof.
  intros H%formSongData_None. cbn zeta.
  unfold handleSubmit. rewrite gets_bind, H. cbn.
  rewrite (events_since_app w _ []) by (cbn; by rewrite app_nil_r).
  by repeat split.
Qed.

Lemma handleSubmit_requires_all_fields_witness :
  let w := typedWorld "Yesterday" in
  let w' := (handleSubmit happyEnv w).2 in
  f_error (form w')
    = Some "All fields, including audio and cover art, are required." ∧
  db w' = db w ∧ songs w' = songs w.
Proof.
  cbn zeta.
  destruct (handleSubmit_requires_all_fields happyEnv (typedWorld "Yesterday"))
    as (_ & He & _ & _ & Hdb & Hs & _); [by right; left|].
  by repeat split.
Defined.

(** The world in which [handleSubmit] calls [addSongs], and what it does
    after the call, if the call returns. *)
Lemma handleSubmit_eq (env : Env) (w : World) (data : SongData.t) :
  formSongData (form w) = Some data →
  handleSubmit env w =
  let w1 := (addSongs env [data] (setIsSubmitting true w).2).2 in
  if store_settles env (tick w + 1) then
    (Ok tt,
     with_form (blankForm (f_isFetching (form w1)))
       (revokePreview (f_coverArtPreview (form w)) w1).2)
  else (Unsettled, w1).
Proof.
  intros H. unfold handleSubmit. rewrite gets_bind, H. cbn zeta.
  set (ws := (setIsSubmitting true w).2).
  destruct (addSongs_run env [data] ws) as (Ho & _).
  change (tick ws + length [data])%nat with (tick w + 1)%nat in Ho.
  destruct (addSongs env [data] ws) as [o w1] eqn:E. cbn [fst] in Ho. subst o.
  etrans; [apply (bind_Ok _ _ w ws tt); reflexivity|].
  destruct (store_settles env (tick w + 1)).
  - etrans; [apply (bind_Ok _ _ ws w1 tt); exact E|].
    cbn [snd]. destruct (f_coverArtPreview (form w)); vm_compute; reflexivity.
  - unfold mbind, M_bind. by rewrite E.
Qed.

(** X15.  A submission of a complete form hands one record for the song
    of the form to the store in one transaction.  When the write settles
    (the transaction completes, or fails with an [error] event) the
    handler returns, blanks the form and revokes its preview, whether or
    not the store accepted the record: if it did, the song joins the
    library; if not, the store and the library are as before, the object
    URLs made for the song are revoked, and what was typed is gone all
    the same.  When the write never settles the handler stays suspended:
    the form stays submitting with what was typed and its preview, and
    the two object URLs made for the song are not revoked. *)
Theorem handleSubmit_commits_and_resets (env : Env) (w : World)
    (data : SongData.t) :
  formSongData (form w) = Some data →
  let w' := (handleSubmit env w).2 in
  let evs := events_since w w' in
  let records := recordsOf env (tick w) [data] in
  let ok := bool_decide (transactionError env (tick w + 1) = None) in
  let preview := f_coverArtPreview (form w) in
  transactions evs = [(records, ok)] ∧
  db w' = (if ok then foldl put (db w) records else db w) ∧
  stagedFiles w' = stagedFiles w ∧
  (store_settles env (tick w + 1) = true →
   (handleSubmit env w).1 = Ok tt ∧
   form w' = blankForm (f_isFetching (form w)) ∧
   (if ok
    then ∃ song, songs w' = songs w ++ [song] ∧
                 Forall2 displays records [song] ∧
                 revoked_urls evs = preview_urls preview
    else songs w' = songs w ∧
         objectURLs w' = without_preview preview (objectURLs w) ∧
         revoked_urls evs = created_urls evs ++ preview_urls preview)) ∧
  (store_settles env (tick w + 1) = false →
   (handleSubmit env w).1 = Unsettled ∧
   form w' = form (setIsSubmitting true w).2 ∧
   f_isSubmitting (form w') = true ∧
   songs w' = songs w ∧
   length (created_urls evs) = 2%nat ∧
   revoked_urls evs = []).
Proof.
  intros H. cbn zeta. rewrite (handleSubmit_eq env w data H). cbn zeta.
  set (ws := (setIsSubmitting true w).2).
  destruct (addSongs_run env [data] ws)
    as (_ & _ & Hst & _ & _ & Hform & display & Hdisp & _ & Hcase).
  change (tick ws) with (tick w) in *. change (db ws) with (db w) in *.
  change (songs ws) with (songs w) in *.
  change (objectURLs ws) with (objectURLs w) in *.
  change (log ws) with (log w) in *.
  change (stagedFiles ws) with (stagedFiles w) in *.
  cbn [length] in *.
  set (w1 := (addSongs env [data] ws).2) in *.
  set (p := f_coverArtPreview (form w)).
  destruct (observe_create (urls_of display)) as (_ & Hc1 & Hc2 & Hc3).
  destruct (observe_revoke (urls_of display)) as (_ & Hr1 & Hr2 & Hr3).
  destruct (observe_revoke (preview_urls p)) as (_ & Hp1 & Hp2 & Hp3).
  assert (Hlen : length (urls_of display) = 2%nat).
  { apply Forall2_length in Hdisp. unfold recordsOf in Hdisp.
    rewrite length_imap in Hdisp. cbn in Hdisp.
    destruct display as [|s [|s' d]]; by cbn in *. }
  unfold store_settles.
  destruct (transactionError env (tick w + 1)) as [msg|];
    [destruct (transactionErrorEvent env (tick w + 1))|].
  - (* the write is rejected *)
    set (w2 := with_form _ _).
    assert (Hw2 : log w2 = log w1 ++ (EvRevokeObjectURL <$> preview_urls p) ∧
                  objectURLs w2 = without_preview p (objectURLs w1) ∧
                  db w2 = db w1 ∧ songs w2 = songs w1 ∧
                  stagedFiles w2 = stagedFiles w1 ∧
                  form w2 = blankForm (f_isFetching (form w))).
    { subst w2. rewrite Hform. destruct p; cbn; [done|].
      by rewrite app_nil_r. }
    destruct Hw2 as (Hlog & Hurls & Hdb & Hsongs & Hstaged & Hf).
    clearbody w2.
    destruct Hcase as (Hl1 & Hdb1 & Hs1 & Hu1).
    rewrite Hl1 in Hlog. cbn [fst snd].
    erewrite events_since_app; [|rewrite Hlog, <- app_assoc; reflexivity].
    rewrite bool_decide_false by done.
    unfold transactions, revoked_urls, created_urls in *.
    rewrite !omap_app, Hc1, Hc2, Hc3, Hr1, Hr2, Hr3, Hp1, Hp2, Hp3. cbn.
    rewrite !app_nil_r, Hdb, Hsongs, Hurls, Hstaged, Hst, Hdb1, Hs1, Hu1.
    split; [done|]. split; [done|]. split; [done|].
    split; [|by intros [=]]. by intros _.
  - (* the write never settles *)
    destruct Hcase as (Hl1 & Hdb1 & Hs1 & _). cbn [fst snd].
    erewrite events_since_app; [|exact Hl1].
    rewrite bool_decide_false by done.
    unfold transactions, revoked_urls, created_urls in *.
    rewrite !omap_app, Hc1, Hc2, Hc3. cbn.
    rewrite !app_nil_r.
    split; [done|]. split; [done|]. split; [done|].
    split; [by intros [=]|]. intros _.
    split; [done|]. split; [done|]. split; [by rewrite Hform|].
    by split.
  - (* the write is accepted *)
    set (w2 := with_form _ _).
    assert (Hw2 : log w2 = log w1 ++ (EvRevokeObjectURL <$> preview_urls p) ∧
                  objectURLs w2 = without_preview p (objectURLs w1) ∧
                  db w2 = db w1 ∧ songs w2 = songs w1 ∧
                  stagedFiles w2 = stagedFiles w1 ∧
                  form w2 = blankForm (f_isFetching (form w))).
    { subst w2. rewrite Hform. destruct p; cbn; [done|].
      by rewrite app_nil_r. }
    destruct Hw2 as (Hlog & Hurls & Hdb & Hsongs & Hstaged & Hf).
    clearbody w2.
    destruct Hcase as (Hl1 & Hdb1 & Hs1 & _).
    rewrite Hl1 in Hlog. cbn [fst snd].
    erewrite events_since_app; [|rewrite Hlog, <- app_assoc; reflexivity].
    rewrite bool_decide_true by done.
    unfold transactions, revoked_urls, created_urls in *.
    rewrite !omap_app, Hc1, Hc3, Hp1, Hp3. cbn.
    rewrite Hdb, Hsongs, Hstaged, Hst, Hdb1, Hs1.
    split; [done|]. split; [done|]. split; [done|].
    split; [|by intros [=]]. intros _.
    split; [done|]. split; [done|].
    inversion Hdisp as [|r s l1 l2 Hrs Hrest Hrec]; subst.
    inversion Hrest; subst. by exists s.
Qed.

(** The same complete form submitted to a store whose write is rejected,
    and to a store whose write aborts without [error] event: the first
    submission ends with a blank form, the second never ends and the form
    stays submitting. *)
Lemma handleSubmit_commits_and_resets_witness :
  let w := filledWorld in
  let w' := (handleSubmit fullStoreEnv w).2 in
  let w'' := (handleSubmit abortedStoreEnv w).2 in
  formSongData (form w) = Some yesterdayData ∧
  form w' = blankForm false ∧ songs w' = [] ∧ db w' = ∅ ∧
  objectURLs w' = delete 0%nat (objectURLs w) ∧
  (handleSubmit abortedStoreEnv w).1 = Unsettled ∧
  f_isSubmitting (form w'') = true ∧
  revoked_urls (events_since w w'') = [].
Proof.
  cbn zeta.
  assert (H : formSongData (form filledWorld) = Some yesterdayData)
    by (by vm_compute).
  split; [exact H|].
  destruct (handleSubmit_commits_and_resets fullStoreEnv filledWorld
              yesterdayData H) as (_ & Hdb & _ & Hcase & _).
  destruct Hcase as (_ & Hf & Hcase); [by vm_compute|].
  rewrite bool_decide_false in Hdb, Hcase by (by vm_compute).
  destruct Hcase as (Hs & Hu & _).
  split; [exact Hf|]. split; [exact Hs|]. split; [exact Hdb|].
  split; [exact Hu|].
  destruct (handleSubmit_commits_and_resets abortedStoreEnv filledWorld
              yesterdayData H) as (_ & _ & _ & _ & Hstuck).
  destruct Hstuck as (Ho & _ & Hsub & _ & _ & Hr); [by vm_compute|].
  by repeat split.
Defined.


(** *** The object URLs of a commit *)

(** X16.  When the store accepts the batch, [addSongs] appends one song
    per entry to the library, in order; each song shows the data of its
    entry and its two object URLs are live and name the audio file and
    the cover art of that entry.  The object URLs of the batch are
    distinct and were free before, the URLs that were live stay as they
    were, and none is revoked. *)
Theorem addSongs_accepted_songs_play (env : Env) (l : list SongData.t)
    (w : World) :
  transactionError env (tick w + length l) = None →
  let w' := (addSongs env l w).2 in
  let evs := events_since w w' in
  ∃ display,
    songs w' = songs w ++ display ∧
    Forall2 (plays (objectURLs w')) l display ∧
    NoDup (urls_of display) ∧
    created_urls evs = urls_of display ∧
    revoked_urls evs = [] ∧
    (∀ u, u ∈ urls_of display → objectURLs w !! u = None) ∧
    (∀ k, k ∉ urls_of display → objectURLs w' !! k = objectURLs w !! k).
Proof.
  intros Hok. cbn zeta.
  destruct (mapM_prepareSong_bound env l w)
    as (display & Ho & Hlen & Ht & Hlog & Hnd & Hfresh & Hkeep & Hplay
        & Hdb & Hsongs).
  destruct (mapM (prepareSong env) l w) as [o w1] eqn:E.
  cbn in Ho, Ht, Hlog, Hkeep, Hplay, Hdb, Hsongs. subst o.
  rewrite (addSongs_unfold _ _ _ _ _ E).
  assert (Hl : length (recordsOf env (tick w) l) = length display)
    by (unfold recordsOf; by rewrite length_imap).
  rewrite fst_zip, snd_zip by lia.
  unfold try_catch, addSongsToDB, ask, emit, modify, setSongs.
  unfold mbind, M_bind. cbn -[forEach]. rewrite Ht, Hok. cbn.
  exists display.
  erewrite events_since_app; [|rewrite Hlog, <- app_assoc; reflexivity].
  destruct (observe_create (urls_of display)) as (_ & _ & Hc & Hr).
  unfold created_urls, revoked_urls in *. rewrite !omap_app, Hc, Hr. cbn.
  rewrite app_nil_r, Hsongs. by repeat split.
Qed.

Lemma addSongs_accepted_songs_play_witness :
  ∃ song, songs (addSongs happyEnv [yesterdayData] initialWorld).2 = [song] ∧
          Song.title song = "Yesterday".
Proof.
  destruct (addSongs_accepted_songs_play happyEnv [yesterdayData] initialWorld)
    as (display & Hs & Hp & _); [by vm_compute|].
  inversion Hp as [|d s l1 l2 Hds Hrest]; subst. inversion Hrest; subst.
  exists s. split; [exact Hs|]. by destruct Hds as (-> & _).
Defined.

(** *** The object store *)

Lemma foldl_put_lookup (m : gmap string StoredSong.t)
    (rs : list StoredSong.t) (k : string) :
  foldl put m rs !! k = from_option Some (m !! k) (last_with_id k rs).
Proof.
  unfold last_with_id.
  induction rs as [|r rs IH] using rev_ind; [done|].
  rewrite foldl_app, filter_app. cbn [foldl]. unfold put at 1.
  destruct (decide (StoredSong.id r = k)) as [<-|Hne].
  - rewrite filter_cons_True, filter_nil by done.
    by rewrite last_snoc, lookup_insert_eq.
  - rewrite filter_cons_False, filter_nil, app_nil_r by done.
    by rewrite lookup_insert_ne.
Qed.

Lemma foldl_put_keyed (m : gmap string StoredSong.t)
    (rs : list StoredSong.t) :
  keyed m → keyed (foldl put m rs).
Proof.
  revert m. induction rs as [|r rs IH]; intros m Hm; [done|].
  cbn. apply IH. intros k r'. unfold put.
  destruct (decide (StoredSong.id r = k)) as [<-|Hne].
  - rewrite lookup_insert_eq. by intros [= <-].
  - rewrite lookup_insert_ne by done. apply Hm.
Qed.

Lemma last_with_id_NoDup (rs : list StoredSong.t) (r : StoredSong.t) :
  NoDup (StoredSong.id <$> rs) → r ∈ rs →
  last_with_id (StoredSong.id r) rs = Some r.
Proof.
  unfold last_with_id. induction rs as [|a rs IH]; intros Hnd Hin.
  - by apply elem_of_nil in Hin.
  - cbn in Hnd. apply NoDup_cons in Hnd as [Ha Hnd].
    apply elem_of_cons in Hin as [->|Hin].
    + rewrite filter_cons_True by done.
      replace (filter (λ r, StoredSong.id r = StoredSong.id a) rs) with
        (@nil StoredSong.t); [done|].
      symmetry. apply nil_length_inv, filter_length_0, Forall_forall.
      intros x Hx Hid. apply Ha. rewrite <- Hid.
      by apply list_elem_of_fmap_2.
    + rewrite filter_cons_False; [by apply IH|].
      intros Hid. apply Ha. rewrite Hid. by apply list_elem_of_fmap_2.
Qed.

(** X17.  [addSongsToDB] asks the store once.  When the transaction
    completes, every key holds the last record of the batch with that
    id, or what it held before when the batch has none: a record
    replaces an older one with the same id.  Hence a batch with distinct
    ids is stored whole, and every record stays under its own id.  When
    the transaction fails the store is as before; the promise rejects
    with the error if the failure fires an [error] event, and never
    settles if the transaction only aborts.  The library and the object
    URLs are not touched. *)
Theorem addSongsToDB_last_write_wins (env : Env) (rs : list StoredSong.t)
    (w : World) :
  let w' := (addSongsToDB env rs w).2 in
  transactions (events_since w w')
    = [(rs, bool_decide (transactionError env (tick w) = None))] ∧
  songs w' = songs w ∧ objectURLs w' = objectURLs w ∧
  match transactionError env (tick w) with
  | None =>
      (addSongsToDB env rs w).1 = Ok tt ∧
      (∀ k, db w' !! k = from_option Some (db w !! k) (last_with_id k rs)) ∧
      (NoDup (StoredSong.id <$> rs) →
       ∀ r, r ∈ rs → db w' !! StoredSong.id r = Some r) ∧
      (keyed (db w) → keyed (db w'))
  | Some msg =>
      (addSongsToDB env rs w).1
        = (if transactionErrorEvent env (tick w)
           then Throw {| exn_kind := RuntimeError; exn_message := msg |}
           else Unsettled) ∧
      db w' = db w
  end.
Proof.
  cbn zeta. unfold addSongsToDB, ask, emit, modify, throw, unsettled.
  unfold mbind, M_bind. cbn.
  destruct (transactionError env (tick w)) as [msg|];
    [destruct (transactionErrorEvent env (tick w))|]; cbn;
    (erewrite events_since_app; [|cbn; reflexivity]).
  - done.
  - done.
  - repeat split.
    + apply foldl_put_lookup.
    + intros Hnd r Hr. rewrite foldl_put_lookup.
      by rewrite last_with_id_NoDup.
    + apply foldl_put_keyed.
Qed.

Lemma addSongsToDB_last_write_wins_witness :
  let r := storedSongOf "2024-05-01T10:00:00.000Z" yesterdayData in
  db (addSongsToDB happyEnv [r] initialWorld).2 !! StoredSong.id r = Some r.
Proof.
  cbn zeta.
  pose proof (addSongsToDB_last_write_wins happyEnv
                [storedSongOf "2024-05-01T10:00:00.000Z" yesterdayData]
                initialWorld) as H.
  cbn zeta in H. destruct H as (_ & _ & _ & H).
  assert (E : transactionError happyEnv (tick initialWorld) = None)
    by (by vm_compute).
  rewrite E in H. destruct H as (_ & _ & Hnd & _).
  apply Hnd; [|apply list_elem_of_here].
  apply (bool_decide_unpack _). by vm_compute.
Defined.

(** *** Loading the library *)

Lemma toDisplaySong_run (r : StoredSong.t) (w : World) :
  ∃ u1 u2,
    u1 ≠ u2 ∧ objectURLs w !! u1 = None ∧ objectURLs w !! u2 = None ∧
    toDisplaySong r w =
    (Ok {| Song.id := StoredSong.id r;
           Song.title := StoredSong.title r;
           Song.artist := StoredSong.artist r;
           Song.album := StoredSong.album r;
           Song.audioSrc := u1; Song.coverArtSrc := u2 |},
     with_log (log w ++ [EvCreateObjectURL u1; EvCreateObjectURL u2])
       (with_objectURLs
          (<[u2 := StoredSong.coverArtFile r]>
             (<[u1 := StoredSong.audioFile r]> (objectURLs w))) w)).
Proof.
  set (u1 := fresh (dom (objectURLs w))).
  set (u2 := fresh (dom (<[u1 := StoredSong.audioFile r]> (objectURLs w)))).
  exists u1, u2.
  assert (H1 : u1 ∉ dom (objectURLs w)) by apply is_fresh.
  assert (H2 : u2 ∉ dom (<[u1 := StoredSong.audioFile r]> (objectURLs w)))
    by apply is_fresh.
  rewrite dom_insert in H2.
  apply not_elem_of_union in H2 as [H2a H2b].
  apply not_elem_of_singleton in H2a.
  apply not_elem_of_dom in H1, H2b.
  repeat split; [congruence|done|done|].
  unfold toDisplaySong, createObjectURL, mbind, M_bind, mret, M_ret.
  cbn. fold u1. fold u2. log_norm. reflexivity.
Qed.

Lemma mapM_toDisplaySong_run (rs : list StoredSong.t) (w : World) :
  ∃ display,
    let w' := (mapM toDisplaySong rs w).2 in
    (mapM toDisplaySong rs w).1 = Ok display ∧
    Forall2 (shows (objectURLs w')) rs display ∧
    NoDup (urls_of display) ∧
    (∀ u, u ∈ urls_of display → objectURLs w !! u = None) ∧
    (∀ k, k ∉ urls_of display → objectURLs w' !! k = objectURLs w !! k) ∧
    log w' = log w ++ (EvCreateObjectURL <$> urls_of display) ∧
    tick w' = tick w ∧ db w' = db w ∧ songs w' = songs w ∧
    stagedFiles w' = stagedFiles w ∧ form w' = form w.
Proof.
  revert w. induction rs as [|r rs IH]; intros w.
  - exists []. cbn. rewrite app_nil_r.
    repeat split; try done; [constructor|by intros u ?%elem_of_nil].
  - destruct (toDisplaySong_run r w) as (u1 & u2 & Hne & Hu1 & Hu2 & Hrun).
    set (w1 := with_log _ _) in Hrun.
    destruct (IH w1)
      as (display & Ho & Hshow & Hnd & Hfresh & Hkeep & Hlog & Ht & Hdb
          & Hsongs & Hst & Hform).
    destruct (mapM toDisplaySong rs w1) as [o w2] eqn:E.
    cbn in Ho, Hshow, Hkeep, Hlog, Ht, Hdb, Hsongs, Hst, Hform. subst o.
    eexists (_ :: display). rewrite (mapM_cons_Ok _ _ _ _ _ _ _ _ Hrun E).
    cbn.
    assert (Hin : ∀ u, u ∈ urls_of display → u ≠ u1 ∧ u ≠ u2 ∧
                       objectURLs w !! u = None).
    { intros u Hu. specialize (Hfresh u Hu). subst w1. cbn in Hfresh.
      apply lookup_insert_None in Hfresh as [Hfresh ?].
      apply lookup_insert_None in Hfresh as [? ?]. auto. }
    assert (Hn1 : u1 ∉ urls_of display)
      by (intros Hu; by apply Hin in Hu as (? & _)).
    assert (Hn2 : u2 ∉ urls_of display)
      by (intros Hu; by apply Hin in Hu as (_ & ? & _)).
    split; [reflexivity|].
    split.
    { constructor; [|exact Hshow]. repeat split; cbn.
      - rewrite (Hkeep u1 Hn1). subst w1. cbn.
        rewrite lookup_insert_ne by done. by rewrite lookup_insert_eq.
      - rewrite (Hkeep u2 Hn2). subst w1. cbn. by rewrite lookup_insert_eq. }
    split.
    { apply NoDup_cons. split.
      - rewrite not_elem_of_cons. by split.
      - apply NoDup_cons. by split. }
    split.
    { intros u. rewrite !elem_of_cons.
      intros [->|[->|Hu]]; [done|done|]. by apply Hin. }
    split.
    { intros k. rewrite !not_elem_of_cons. intros (Hk1 & Hk2 & Hk).
      rewrite (Hkeep k Hk). subst w1. cbn.
      rewrite lookup_insert_ne by done. by rewrite lookup_insert_ne. }
    split; [rewrite Hlog; subst w1; cbn; by log_norm|].
    by rewrite Ht, Hdb, Hsongs, Hst, Hform.
Qed.

Lemma getAll_elem_of (m : gmap string StoredSong.t) (r : StoredSong.t) :
  r ∈ getAll m ↔ ∃ k, m !! k = Some r.
Proof.
  unfold getAll. rewrite merge_sort_Permutation, list_elem_of_fmap. split.
  - intros ([k r'] & -> & Hin). exists k. by apply elem_of_map_to_list.
  - intros (k & Hk). exists (k, r). split; [done|].
    by apply elem_of_map_to_list.
Qed.

Lemma getAll_NoDup (m : gmap string StoredSong.t) :
  keyed m → NoDup (StoredSong.id <$> getAll m).
Proof.
  intros Hk. unfold getAll. rewrite merge_sort_Permutation.
  replace (StoredSong.id <$> (map_to_list m).*2) with ((map_to_list m).*1).
  - apply NoDup_fst_map_to_list.
  - rewrite <- list_fmap_compose. apply list_fmap_ext.
    intros i [k r] Hi. cbn. symmetry. apply Hk.
    apply elem_of_map_to_list. by eapply list_elem_of_lookup_2.
Qed.

Lemma loadInitialSongs_unreadable (env : Env) (sh : Shell) (w : World)
    (msg : string) :
  transactionError env (tick w) = Some msg →
  loadInitialSongs env sh w =
  (Ok {| userRole := userRole sh; isLoading := false |},
   with_log
     (log w ++ [EvConsoleError "Failed to load songs from DB:"
                  {| exn_kind := RuntimeError; exn_message := msg |}])
     (with_tick (S (tick w)) w)).
Proof.
  intros E. unfold loadInitialSongs, try_catch, getSongsFromDB, ask.
  unfold mbind, M_bind. by rewrite E.
Qed.

Lemma loadInitialSongs_readable (env : Env) (sh : Shell) (w : World) :
  transactionError env (tick w) = None →
  let r := mapM toDisplaySong (getAll (db w)) (with_tick (S (tick w)) w) in
  (loadInitialSongs env sh w).1
    = Ok {| userRole := userRole sh; isLoading := false |} ∧
  (loadInitialSongs env sh w).2
    = with_songs (match r.1 with Ok l => l | _ => [] end) r.2.
Proof.
  intros E. cbn zeta.
  destruct (mapM_toDisplaySong_run (getAll (db w)) (with_tick (S (tick w)) w))
    as (display & Ho & _).
  unfold loadInitialSongs, try_catch, getSongsFromDB, ask, gets.
  unfold mbind, M_bind. rewrite E. cbv beta iota.
  change (db (with_tick (S (tick w)) w)) with (db w).
  destruct (mapM toDisplaySong (getAll (db w)) (with_tick (S (tick w)) w))
    as [o w1].
  cbn in Ho. subst o. by cbn.
Qed.

Lemma renderContent_loaded (sh : Shell) :
  isLoading sh = false → renderContent sh ≠ LoadingView.
Proof.
  unfold renderContent. intros ->. by destruct (userRole sh) as [[]|].
Qed.

(** X18.  Loading the library always returns with the loading flag down,
    so the screen of the current role shows, and the store is only read.
    When the store cannot be read the library and the object URLs are as
    before.  Otherwise the library is replaced by one song per record of
    the store, in ascending order of the ids; each song bears the id and
    the metadata of its record, and its two object URLs are fresh,
    distinct and name the audio file and the cover art of the record.
    With every record under its own id, no two songs of the loaded
    library share an id. *)
Theorem loadInitialSongs_ends_loading (env : Env) (sh : Shell) (w : World) :
  let sh' := (loadInitialSongs env sh w).1 in
  let w' := (loadInitialSongs env sh w).2 in
  let evs := events_since w w' in
  sh' = Ok {| userRole := userRole sh; isLoading := false |} ∧
  renderContent {| userRole := userRole sh; isLoading := false |}
    ≠ LoadingView ∧
  db w' = db w ∧ transactions evs = [] ∧ revoked_urls evs = [] ∧
  match transactionError env (tick w) with
  | Some msg =>
      songs w' = songs w ∧ objectURLs w' = objectURLs w ∧
      created_urls evs = []
  | None =>
      Forall2 (shows (objectURLs w')) (getAll (db w)) (songs w') ∧
      Sorted key_le (getAll (db w)) ∧
      (∀ r, r ∈ getAll (db w) ↔ ∃ k, db w !! k = Some r) ∧
      NoDup (urls_of (songs w')) ∧
      created_urls evs = urls_of (songs w') ∧
      (∀ u, u ∈ urls_of (songs w') → objectURLs w !! u = None) ∧
      (keyed (db w) → NoDup (Song.id <$> songs w'))
  end.
Proof.
  cbn zeta.
  assert (Hr := renderContent_loaded
                  {| userRole := userRole sh; isLoading := false |} eq_refl).
  destruct (transactionError env (tick w)) as [msg|] eqn:E.
  - rewrite (loadInitialSongs_unreadable env sh w msg E). cbn [fst snd].
    erewrite events_since_app; [|cbn; reflexivity].
    split; [done|]. split; [exact Hr|]. by repeat split.
  - destruct (loadInitialSongs_readable env sh w E) as [-> ->]. cbn [fst snd].
    destruct (mapM_toDisplaySong_run (getAll (db w))
                (with_tick (S (tick w)) w))
      as (display & Ho & Hshow & Hnd & Hfresh & Hkeep & Hlog & Ht & Hdb
          & Hsongs & Hst & Hform).
    cbn zeta in *.
    set (w1 := (mapM toDisplaySong (getAll (db w))
                  (with_tick (S (tick w)) w)).2) in *.
    rewrite Ho. cbn in Hfresh, Hlog, Hdb |- *.
    destruct (observe_create (urls_of display)) as (_ & Hc1 & Hc2 & Hc3).
    erewrite events_since_app; [|cbn; exact Hlog].
    split; [done|]. split; [exact Hr|]. split; [done|].
    split; [done|]. split; [done|].
    split; [done|].
    split; [apply Sorted_merge_sort; intros a b; apply String.leb_total|].
    split; [apply getAll_elem_of|].
    split; [done|]. split; [done|]. split; [done|].
    intros Hk.
    replace (Song.id <$> display) with (StoredSong.id <$> getAll (db w));
      [by apply getAll_NoDup|].
    clear -Hshow. induction Hshow as [|r s rs ss [(Hid & _) _] _ IH]; [done|].
    cbn. by rewrite Hid, IH.
Qed.

Lemma loadInitialSongs_ends_loading_witness :
  NoDup (Song.id <$>
           songs (loadInitialSongs happyEnv mountingShell storedWorld).2).
Proof.
  pose proof (loadInitialSongs_ends_loading happyEnv mountingShell storedWorld)
    as H.
  cbn zeta in H. destruct H as (_ & _ & _ & _ & _ & H).
  assert (E : transactionError happyEnv (tick storedWorld) = None)
    by (by vm_compute).
  rewrite E in H. destruct H as (_ & _ & _ & _ & _ & _ & Hk).
  apply Hk. intros k r Hkr. cbn in Hkr.
  by apply lookup_singleton_Some in Hkr as [<- <-].
Defined.

(** The library after a load that could read the store. *)
Lemma loadInitialSongs_songs (env : Env) (sh : Shell) (w : World) :
  transactionError env (tick w) = None →
  let w' := (loadInitialSongs env sh w).2 in
  Forall2 (shows (objectURLs w')) (getAll (db w)) (songs w').
Proof.
  intros E. cbn zeta.
  destruct (loadInitialSongs_readable env sh w E) as [_ ->].
  destruct (mapM_toDisplaySong_run (getAll (db w)) (with_tick (S (tick w)) w))
    as (display & Ho & Hshow & _).
  cbn zeta in *. rewrite Ho. exact Hshow.
Qed.

Lemma last_with_id_elem_of (rs : list StoredSong.t) (r : StoredSong.t) :
  r ∈ rs →
  ∃ r', last_with_id (StoredSong.id r) rs = Some r' ∧
        StoredSong.id r' = StoredSong.id r.
Proof.
  intros Hr. unfold last_with_id.
  destruct (last (filter (λ r0, StoredSong.id r0 = StoredSong.id r) rs))
    as [r'|] eqn:E.
  - exists r'. split; [done|].
    apply last_Some_elem_of in E. by apply list_elem_of_filter in E as [? _].
  - exfalso. apply eq_None_not_Some in E. apply E, last_is_Some.
    intros Hnil.
    assert (Hin : r ∈ filter (λ r0, StoredSong.id r0 = StoredSong.id r) rs)
      by (by apply list_elem_of_filter).
    rewrite Hnil in Hin. by apply elem_of_nil in Hin.
Qed.

(** X19.  A batch the store accepted is found again when the library is
    loaded from the store: the loaded library has a song for the id of
    every record of the batch, and no two of its songs share an id.  A
    loaded song whose id occurs in the batch shows the last record of
    the batch with that id, so of two songs committed under one id only
    the later one comes back. *)
Theorem reload_shows_committed (env : Env) (sh : Shell)
    (l : list SongData.t) (w : World) :
  keyed (db w) →
  transactionError env (tick w + length l) = None →
  transactionError env (S (tick w + length l)) = None →
  let records := recordsOf env (tick w) l in
  let w1 := (addSongs env l w).2 in
  let w2 := (loadInitialSongs env sh w1).2 in
  NoDup (Song.id <$> songs w2) ∧
  (∀ r, r ∈ records → ∃ s, s ∈ songs w2 ∧ Song.id s = StoredSong.id r) ∧
  (∀ s r, s ∈ songs w2 → last_with_id (Song.id s) records = Some r →
          displays r s).
Proof.
  intros Hk E1 E2. cbn zeta.
  destruct (addSongs_run env l w)
    as (_ & Ht & _ & _ & _ & _ & display & _ & _ & Hc).
  rewrite E1 in Hc. destruct Hc as (_ & Hdb & _).
  cbn zeta in Ht, Hdb.
  set (w1 := (addSongs env l w).2) in *.
  rewrite <- Ht in E2.
  pose proof (loadInitialSongs_songs env sh w1 E2) as Hshow. cbn zeta in Hshow.
  set (w2 := (loadInitialSongs env sh w1).2) in *.
  assert (Hk1 : keyed (db w1)) by (rewrite Hdb; by apply foldl_put_keyed).
  assert (Hids : Song.id <$> songs w2 = StoredSong.id <$> getAll (db w1)).
  { clear -Hshow.
    induction Hshow as [|r s rs ss [(Hid & _) _] _ IH]; [done|].
    cbn. by rewrite Hid, IH. }
  split; [rewrite Hids; by apply getAll_NoDup|]. split.
  - intros r Hr.
    destruct (last_with_id_elem_of _ r Hr) as (r' & Hlast & Hid).
    assert (Hin : r' ∈ getAll (db w1)).
    { apply getAll_elem_of. exists (StoredSong.id r).
      by rewrite Hdb, foldl_put_lookup, Hlast. }
    apply list_elem_of_lookup in Hin as [i Hi].
    destruct (Forall2_lookup_l _ _ _ _ _ Hshow Hi) as (s & Hs & (Hd & _) & _).
    exists s. split; [by eapply list_elem_of_lookup_2|]. by rewrite Hd.
  - intros s r Hs Hlast.
    apply list_elem_of_lookup in Hs as [i Hi].
    destruct (Forall2_lookup_r _ _ _ _ _ Hshow Hi) as (r0 & Hr0 & Hd & _).
    assert (Hin : r0 ∈ getAll (db w1)) by (by eapply list_elem_of_lookup_2).
    apply getAll_elem_of in Hin as (k & Hkr).
    pose proof (Hk1 _ _ Hkr) as Hkey.
    destruct Hd as (Hid & Hrest).
    rewrite Hdb, foldl_put_lookup, <- Hkey, <- Hid, Hlast in Hkr.
    cbn in Hkr. injection Hkr as <-. by split.
Qed.

Lemma reload_shows_committed_witness :
  let w1 := (addSongs happyEnv [yesterdayData] initialWorld).2 in
  let w2 := (loadInitialSongs happyEnv mountingShell w1).2 in
  NoDup (Song.id <$> songs w2) ∧
  ∃ s, s ∈ songs w2 ∧
       Song.id s = StoredSong.id
                     (storedSongOf (toISOString happyEnv 0) yesterdayData).
Proof.
  cbn zeta.
  destruct (reload_shows_committed happyEnv mountingShell [yesterdayData]
              initialWorld) as (Hnd & Hin & _);
    [intros k r Hkr; cbn in Hkr; by rewrite lookup_empty in Hkr
    |by vm_compute|by vm_compute|].
  split; [exact Hnd|]. apply Hin. apply list_elem_of_here.
Defined.

(** *** The player *)

(** X20.  With a song selected in a library that is not empty, Next and
    Previous keep a song selected and start playback: Next moves one row
    down and wraps from the last row to the first, Previous moves one row
    up and wraps from the first row to the last, and each undoes the
    other.  The mute setting is kept. *)
Theorem transport_stays_in_range (songs : list Song.t) (p : Player.t) :
  let n := Z.of_nat (length songs) in
  let i := Player.currentSongIndex p in
  (0 ≤ i < n)%Z →
  let next := playNext songs p in
  let prev := playPrev songs p in
  is_Some (songAt songs (Player.currentSongIndex next)) ∧
  is_Some (songAt songs (Player.currentSongIndex prev)) ∧
  Player.currentSongIndex next = (if (i + 1 =? n)%Z then 0 else i + 1)%Z ∧
  Player.currentSongIndex prev = (if (i =? 0)%Z then n - 1 else i - 1)%Z ∧
  Player.currentSongIndex (playPrev songs next) = i ∧
  Player.currentSongIndex (playNext songs prev) = i ∧
  Player.isPlaying next = true ∧ Player.isPlaying prev = true ∧
  Player.isMuted next = Player.isMuted p ∧
  Player.isMuted prev = Player.isMuted p.
Proof.
  cbn zeta. intros Hi. unfold playNext, playPrev.
  destruct (length songs =? 0)%nat eqn:E; [apply Nat.eqb_eq in E; lia|].
  cbn [Player.currentSongIndex Player.isPlaying Player.isMuted].
  set (n := Z.of_nat (length songs)) in *.
  set (i := Player.currentSongIndex p) in *.
  assert (Hnext : Z.rem (i + 1) n = (if (i + 1 =? n)%Z then 0 else i + 1)%Z).
  { rewrite Z.rem_mod_nonneg by lia. destruct (i + 1 =? n)%Z eqn:En.
    - apply Z.eqb_eq in En. rewrite En. apply Z_mod_same_full.
    - apply Z.eqb_neq in En. apply Z.mod_small. lia. }
  assert (Hprev : Z.rem (i - 1 + n) n = (if (i =? 0)%Z then n - 1 else i - 1)%Z).
  { rewrite Z.rem_mod_nonneg by lia. destruct (i =? 0)%Z eqn:En.
    - apply Z.eqb_eq in En. rewrite En.
      replace (0 - 1 + n)%Z with (n - 1)%Z by lia. apply Z.mod_small. lia.
    - apply Z.eqb_neq in En.
      replace (i - 1 + n)%Z with (i - 1 + 1 * n)%Z by lia.
      rewrite Z_mod_plus_full. apply Z.mod_small. lia. }
  assert (Hat : ∀ j, (0 ≤ j < n)%Z → is_Some (songAt songs j)).
  { intros j Hj. unfold songAt.
    destruct (j <? 0)%Z eqn:Ej; [apply Z.ltb_lt in Ej; lia|].
    apply lookup_lt_is_Some. subst n. lia. }
  rewrite Hnext, Hprev.
  split; [apply Hat; destruct (i + 1 =? n)%Z eqn:En; lia|].
  split; [apply Hat; destruct (i =? 0)%Z eqn:En; lia|].
  split; [done|]. split; [done|].
  split.
  { destruct (i + 1 =? n)%Z eqn:En.
    - apply Z.eqb_eq in En. rewrite Z.rem_mod_nonneg by lia.
      replace (0 - 1 + n)%Z with i by lia. apply Z.mod_small. lia.
    - apply Z.eqb_neq in En. rewrite Z.rem_mod_nonneg by lia.
      replace (i + 1 - 1 + n)%Z with (i + 1 * n)%Z by lia.
      rewrite Z_mod_plus_full. apply Z.mod_small. lia. }
  split; [|done].
  destruct (i =? 0)%Z eqn:En.
  - apply Z.eqb_eq in En. rewrite Z.rem_mod_nonneg by lia.
    replace (n - 1 + 1)%Z with n by lia. rewrite Z_mod_same_full. lia.
  - apply Z.eqb_neq in En. rewrite Z.rem_mod_nonneg by lia.
    replace (i - 1 + 1)%Z with i by lia. apply Z.mod_small. lia.
Qed.

Lemma transport_stays_in_range_witness :
  Player.currentSongIndex (playNext [yesterdaySong; helpSong] stoppedPlayer)
    = 0%Z ∧
  Player.currentSongIndex (playPrev [yesterdaySong; helpSong] stoppedPlayer)
    = 0%Z.
Proof.
  destruct (transport_stays_in_range [yesterdaySong; helpSong] stoppedPlayer)
    as (_ & _ & Hn & Hp & _); [by vm_compute|].
  split; [exact Hn|exact Hp].
Defined.

(** [findIndex] is the index of the first element found, or -1. *)
Lemma findIndex_list_find {A} (p : A → bool) (l : list A) :
  findIndex p l =
  match list_find (λ x, p x = true) l with
  | Some (i, _) => Z.of_nat i
  | None => (-1)%Z
  end.
Proof.
  induction l as [|x l IH]; [done|]. cbn.
  destruct (p x) eqn:E.
  - by rewrite decide_True.
  - rewrite decide_False by congruence. rewrite IH.
    destruct (list_find (λ x, p x = true) l) as [[i y]|]; cbn; [|done].
    destruct (Z.of_nat i =? -1)%Z eqn:En; [apply Z.eqb_eq in En; lia|lia].
Qed.

(** X21.  A click on the row of a song of the library selects the first
    song of the library with the id of that song and starts playback; no
    earlier row has that id.  When the ids of the library are distinct
    the selected song is the clicked one. *)
Theorem clickSong_selects_first (songs : list Song.t) (song : Song.t)
    (p : Player.t) :
  song ∈ songs →
  let p' := clickSong songs song p in
  Player.isPlaying p' = true ∧
  ∃ (i : nat) (s : Song.t),
    Player.currentSongIndex p' = Z.of_nat i ∧
    songAt songs (Player.currentSongIndex p') = Some s ∧
    Song.id s = Song.id song ∧
    (∀ j s', songs !! j = Some s' → (j < i)%nat → Song.id s' ≠ Song.id song) ∧
    (NoDup (Song.id <$> songs) → s = song).
Proof.
  intros Hin. cbn zeta. split; [done|].
  unfold clickSong, selectSong. cbn [Player.currentSongIndex].
  rewrite findIndex_list_find.
  destruct (list_find _ songs) as [[i s]|] eqn:E.
  - apply list_find_Some in E as (Hi & Hs & Hbefore).
    apply bool_decide_eq_true in Hs.
    exists i, s. split; [done|]. split.
    { unfold songAt. destruct (Z.of_nat i <? 0)%Z eqn:En;
        [apply Z.ltb_lt in En; lia|]. by rewrite Nat2Z.id. }
    split; [done|]. split.
    { intros j s' Hj Hlt Hid. apply (Hbefore j s' Hj Hlt).
      by apply bool_decide_eq_true. }
    intros Hnd. apply list_elem_of_lookup_2 in Hi.
    by apply (NoDup_fmap_elem_eq Song.id songs).
  - exfalso. apply list_find_None in E. rewrite Forall_forall in E.
    apply (E song Hin). by apply bool_decide_eq_true.
Qed.

Lemma clickSong_selects_first_witness :
  songAt [yesterdaySong; helpSong]
    (Player.currentSongIndex
       (clickSong [yesterdaySong; helpSong] helpSong stoppedPlayer))
    = Some helpSong.
Proof.
  destruct (clickSong_selects_first [yesterdaySong; helpSong] helpSong
              stoppedPlayer)
    as (_ & i & s & _ & Hat & _ & _ & Hnd);
    [apply list_elem_of_further, list_elem_of_here|].
  rewrite Hat. f_equal. apply Hnd.
  apply (bool_decide_unpack _). by vm_compute.
Defined.

(** X22.  The player never plays on an empty library and never points
    past the library: the player as mounted points to a song or is
    stopped on row 0 of an empty library, and this is kept by Next,
    Previous, Play/Pause, a click on a song of the library, and by songs
    joining the library. *)
Theorem player_stays_in_range (songs : list Song.t) (p : Player.t) :
  in_range songs initialPlayer ∧
  (in_range songs p →
   in_range songs (playNext songs p) ∧
   in_range songs (playPrev songs p) ∧
   in_range songs (togglePlayPause songs p) ∧
   (∀ song, song ∈ songs → in_range songs (clickSong songs song p)) ∧
   (∀ more, in_range (songs ++ more) (onSongsChange (songs ++ more) p))).
Proof.
  split.
  { unfold in_range. destruct songs as [|s l]; [by left|].
    right. cbn [length initialPlayer Player.currentSongIndex]. lia. }
  intros [(-> & Hi & Hp)|Hi].
  - split; [by left|]. split; [by left|]. split; [by left|].
    split; [by intros song ?%elem_of_nil|].
    intros more. unfold onSongsChange, in_range. cbn [app].
    destruct more as [|s l]; cbn; [by left|]. right. rewrite Hi. lia.
  - assert (Hlen : (length songs =? 0)%nat = false)
      by (apply Nat.eqb_neq; lia).
    unfold playNext, playPrev, togglePlayPause. rewrite Hlen.
    assert (Hpos : (0 <? length songs)%nat = true)
      by (apply Nat.ltb_lt; apply Nat.eqb_neq in Hlen; lia).
    rewrite Hpos.
    split; [right; cbn; apply Z.rem_bound_pos; lia|].
    split; [right; cbn; apply Z.rem_bound_pos; lia|].
    split; [by right|].
    split.
    + intros song Hin. right. unfold clickSong, selectSong.
      cbn [Player.currentSongIndex]. rewrite findIndex_list_find.
      destruct (list_find _ songs) as [[i s]|] eqn:E.
      * apply list_find_Some in E as (Hs & _).
        apply lookup_lt_Some in Hs. lia.
      * exfalso. apply list_find_None in E. rewrite Forall_forall in E.
        apply (E song Hin). by apply bool_decide_eq_true.
    + intros more. right. unfold onSongsChange.
      assert (Hl : (length (songs ++ more) =? 0)%nat = false)
        by (apply Nat.eqb_neq; rewrite length_app; lia).
      rewrite Hl, length_app. lia.
Qed.

Lemma player_stays_in_range_witness :
  in_range [yesterdaySong; helpSong]
    (playNext [yesterdaySong; helpSong] stoppedPlayer).
Proof.
  destruct (player_stays_in_range [yesterdaySong; helpSong] stoppedPlayer)
    as (_ & H).
  apply H. right. by vm_compute.
Defined.

(** *** The first version of the dashboard *)

Lemma legacy_toSong_run (env : Env) (sf : StagedFile.t) (w : World)
    (d : SongDetails.t) (c : File) :
  StagedFile.songDetails sf = Some d → StagedFile.coverArtFile sf = Some c →
  ∃ u1 u2,
    u1 ≠ u2 ∧ objectURLs w !! u1 = None ∧ objectURLs w !! u2 = None ∧
    Legacy.toSong env sf w =
    (Ok {| Song.id := toISOString env (tick w) +:+ "-" +:+ SongDetails.title d;
           Song.title := SongDetails.title d;
           Song.artist := SongDetails.artist d;
           Song.album := SongDetails.album d;
           Song.audioSrc := u1; Song.coverArtSrc := u2 |},
     with_log (log w ++ [EvCreateObjectURL u1; EvCreateObjectURL u2])
       (with_objectURLs
          (<[u2 := c]> (<[u1 := StagedFile.file sf]> (objectURLs w)))
          (with_tick (S (tick w)) w))).
Proof.
  intros Hd Hc.
  set (u1 := fresh (dom (objectURLs w))).
  set (u2 := fresh (dom (<[u1 := StagedFile.file sf]> (objectURLs w)))).
  exists u1, u2.
  assert (H1 : u1 ∉ dom (objectURLs w)) by apply is_fresh.
  assert (H2 : u2 ∉ dom (<[u1 := StagedFile.file sf]> (objectURLs w)))
    by apply is_fresh.
  rewrite dom_insert in H2.
  apply not_elem_of_union in H2 as [H2a H2b].
  apply not_elem_of_singleton in H2a.
  apply not_elem_of_dom in H1, H2b.
  repeat split; [congruence|done|done|].
  unfold Legacy.toSong, createObjectURL, ask, mbind, M_bind, mret, M_ret.
  rewrite Hd, Hc. cbn. fold u1. fold u2. log_norm. reflexivity.
Qed.

Lemma legacy_mapM_toSong_run (env : Env) (l : list StagedFile.t) (w : World) :
  Forall (λ sf, is_Some (StagedFile.songDetails sf) ∧
                is_Some (StagedFile.coverArtFile sf)) l →
  ∃ newSongs,
    let w' := (mapM (Legacy.toSong env) l w).2 in
    (mapM (Legacy.toSong env) l w).1 = Ok newSongs ∧
    Forall2 (stagedShows (objectURLs w')) l newSongs ∧
    NoDup (urls_of newSongs) ∧
    (∀ u, u ∈ urls_of newSongs → objectURLs w !! u = None) ∧
    (∀ k, k ∉ urls_of newSongs → objectURLs w' !! k = objectURLs w !! k) ∧
    log w' = log w ++ (EvCreateObjectURL <$> urls_of newSongs) ∧
    db w' = db w ∧ songs w' = songs w ∧
    processedCount w' = processedCount w.
Proof.
  intros Hall. revert w. induction Hall as [|sf l [[d Hd] [c Hc]] _ IH]; intros w.
  - exists []. cbn. rewrite app_nil_r.
    repeat split; try done; [constructor|by intros u ?%elem_of_nil].
  - destruct (legacy_toSong_run env sf w d c Hd Hc)
      as (u1 & u2 & Hne & Hu1 & Hu2 & Hrun).
    set (w1 := with_log _ _) in Hrun.
    destruct (IH w1)
      as (newSongs & Ho & Hshow & Hnd & Hfresh & Hkeep & Hlog & Hdb
          & Hsongs & Hpc).
    destruct (mapM (Legacy.toSong env) l w1) as [o w2] eqn:E.
    cbn in Ho, Hshow, Hkeep, Hlog, Hdb, Hsongs, Hpc. subst o.
    eexists (_ :: newSongs). rewrite (mapM_cons_Ok _ _ _ _ _ _ _ _ Hrun E).
    cbn.
    assert (Hin : ∀ u, u ∈ urls_of newSongs → u ≠ u1 ∧ u ≠ u2 ∧
                       objectURLs w !! u = None).
    { intros u Hu. specialize (Hfresh u Hu). subst w1. cbn in Hfresh.
      apply lookup_insert_None in Hfresh as [Hfresh ?].
      apply lookup_insert_None in Hfresh as [? ?]. auto. }
    assert (Hn1 : u1 ∉ urls_of newSongs)
      by (intros Hu; by apply Hin in Hu as (? & _)).
    assert (Hn2 : u2 ∉ urls_of newSongs)
      by (intros Hu; by apply Hin in Hu as (_ & ? & _)).
    split; [reflexivity|].
    split.
    { constructor; [|exact Hshow]. exists d, c. repeat split; try done; cbn.
      - rewrite (Hkeep u1 Hn1). subst w1. cbn.
        rewrite lookup_insert_ne by done. by rewrite lookup_insert_eq.
      - rewrite (Hkeep u2 Hn2). subst w1. cbn. by rewrite lookup_insert_eq. }
    split.
    { apply NoDup_cons. split.
      - rewrite not_elem_of_cons. by split.
      - apply NoDup_cons. by split. }
    split.
    { intros u. rewrite !elem_of_cons.
      intros [->|[->|Hu]]; [done|done|]. by apply Hin. }
    split.
    { intros k. rewrite !not_elem_of_cons. intros (Hk1 & Hk2 & Hk).
      rewrite (Hkeep k Hk). subst w1. cbn.
      rewrite lookup_insert_ne by done. by rewrite lookup_insert_ne. }
    split; [rewrite Hlog; subst w1; cbn; by log_norm|].
    by rewrite Hdb, Hsongs, Hpc.
Qed.

(** X23.  The commit of the first version of the dashboard, on a batch
    whose success items carry their details and cover art: with no
    success item nothing changes; otherwise one song per success item
    joins the library, in staging order, showing the details of the item
    and playing its files through fresh object URLs, and the batch is
    cleared.  That version never writes to the store and leaves the
    progress counter as it is. *)
Theorem legacy_commit_appends_library (env : Env) (w : World) :
  Forall complete (stagedFiles w) →
  let w' := (Legacy.handleAddSongsToLibrary env w).2 in
  let evs := events_since w w' in
  let successes := filter is_success (stagedFiles w) in
  (Legacy.handleAddSongsToLibrary env w).1 = Ok tt ∧
  db w' = db w ∧ transactions evs = [] ∧ revoked_urls evs = [] ∧
  processedCount w' = processedCount w ∧
  (successes = [] → w' = w) ∧
  (successes ≠ [] →
   stagedFiles w' = [] ∧ staged_updates evs = [[]] ∧
   ∃ newSongs,
     songs w' = songs w ++ newSongs ∧
     Forall2 (stagedShows (objectURLs w')) successes newSongs ∧
     NoDup (urls_of newSongs) ∧
     created_urls evs = urls_of newSongs).
Proof.
  intros Hc. cbn zeta.
  unfold Legacy.handleAddSongsToLibrary. rewrite gets_bind.
  fold (is_success). fold (filter is_success (stagedFiles w)).
  set (successes := filter is_success (stagedFiles w)).
  destruct (decide (length successes = 0%nat)) as [Hz|Hnz].
  - apply nil_length_inv in Hz. cbn.
    rewrite (events_since_app w w []) by (by rewrite app_nil_r).
    by repeat split.
  - assert (Hall : Forall (λ sf, is_Some (StagedFile.songDetails sf) ∧
                                 is_Some (StagedFile.coverArtFile sf))
                     successes).
    { apply Forall_forall. intros sf [Hs Hin]%list_elem_of_filter.
      rewrite Forall_forall in Hc. by apply Hc. }
    destruct (legacy_mapM_toSong_run env successes w Hall)
      as (newSongs & Ho & Hshow & Hnd & Hfresh & Hkeep & Hlog & Hdb
          & Hsongs & Hpc).
    destruct (mapM (Legacy.toSong env) successes w) as [o w1] eqn:E.
    cbn in Ho, Hshow, Hkeep, Hlog, Hdb, Hsongs, Hpc. subst o.
    rewrite (bind_Ok _ _ _ _ _ E).
    unfold Legacy.addSongs, setSongs, setStagedFiles, modify.
    unfold mbind, M_bind. cbn.
    erewrite events_since_app; [|rewrite Hlog, <- app_assoc; reflexivity].
    destruct (observe_create (urls_of newSongs)) as (Hc0 & Hc1 & Hc2 & Hc3).
    unfold transactions, revoked_urls, created_urls, staged_updates in *.
    rewrite !omap_app, Hc0, Hc1, Hc2, Hc3. cbn.
    split; [done|]. split; [done|]. split; [done|]. split; [done|].
    split; [done|]. split.
    { intros Hnil. by rewrite Hnil in Hnz. }
    intros _. split; [done|]. split; [done|].
    exists newSongs. rewrite Hsongs, app_nil_r. by repeat split.
Qed.

Lemma legacy_commit_appends_library_witness :
  let w' := (Legacy.handleAddSongsToLibrary happyEnv
               (stagedWorld [successItem; errorItem])).2 in
  stagedFiles w' = [] ∧ length (songs w') = 1%nat ∧ db w' = ∅.
Proof.
  cbn zeta.
  assert (Hc : Forall complete (stagedFiles (stagedWorld [successItem; errorItem]))).
  { apply Forall_cons. split; [intros _; split; by eexists|].
    apply Forall_cons. split; [by intros ?|]. by apply Forall_nil. }
  destruct (legacy_commit_appends_library happyEnv
              (stagedWorld [successItem; errorItem]) Hc)
    as (_ & Hdb & _ & _ & _ & _ & Hcase).
  destruct Hcase as (Hst & _ & newSongs & Hs & Hshow & _); [by vm_compute|].
  split; [exact Hst|]. split; [|exact Hdb].
  rewrite Hs, length_app. apply Forall2_length in Hshow.
  rewrite <- Hshow. by vm_compute.
Defined.
